(** * Crane collision console: scene reconciliation and transport channel

    A shallow embedding of the browser client of the crane collision
    monitor:

    - the Three.js scene module ([createCraneObject], [updateCraneObject],
      [updateWarningLines], [updateThreeScene]),
    - the WebSocket client ([connectWebSocket] and the four socket
      handlers, [scheduleReconnect], [updateConnectionStatus]),
    - the dispatcher [onDataReceived] of the main module.

    JavaScript numbers are IEEE 754 doubles and are modelled by Rocq's
    primitive floats; colours are the 24-bit integers handed to [setHex];
    an object used as a dictionary ([craneObjects], [crane_alerts], the
    colour table) is a [gmap] of its own properties, and a lookup in it
    also finds what the object inherits from [Object.prototype];
    module-level variables become the fields of a state record that every
    function threads through; a function that can end by an exception
    returns, with the state it leaves, whether it did. *)

From Stdlib Require Import ZArith Floats.
From stdpp Require Import gmap strings list fin_maps pretty.

#[global] Set Warnings "-inexact-float".

(* ===================================================================== *)
(** ** The rendering engine's values *)
(* ===================================================================== *)

Module THREE.

Record Vector3 := mkVector3 { x : float; y : float; z : float }.

(** [Math.PI], the double nearest to pi. *)
Definition PI : float := 0x1.921fb54442d18p+1%float.

Inductive Geometry :=
| BoxGeometry (width height depth : float)
| SphereGeometry (radius : float) (widthSegments heightSegments : Z)
| RingGeometry (innerRadius outerRadius : float) (thetaSegments : Z)
(** the closed polyline of [segments + 1] points
    [(cos a * radius, height, sin a * radius)] built by the loop of
    [createCraneObject] *)
| CircleOutline (radius height : float) (segments : Z)
(** [new BufferGeometry().setFromPoints([a, b])] *)
| SegmentGeometry (a b : Vector3).

Inductive MaterialKind :=
| MeshPhongMaterial (emissive : Z) (emissiveIntensity : float)
| MeshBasicMaterial (doubleSide : bool)
| LineBasicMaterial
| LineDashedMaterial (dashSize gapSize : float).

(** What the code hands over where the engine expects a colour number:
    a number, or a value that is no number, no string and no colour (the
    code can come by a function or an object where it looks a colour
    up). *)
Inductive ColorValue := Hex (hex : Z) | NotANumber.

(** [Color.setHex(v)] floors [v] and takes its three bytes; for a value
    that is not a number the floor is NaN, whose bytes are 0. *)
Definition hexOf (v : ColorValue) : Z :=
  match v with
  | Hex hex => hex
  | NotANumber => 0
  end.

(** [Color.set(v)], which a material's constructor calls on the colour
    it is given, acts on a colour, a number or a string only; any other
    value leaves the white that the material starts with. *)
Definition constructedColor (v : ColorValue) : Z :=
  match v with
  | Hex hex => hex
  | NotANumber => 0xFFFFFF
  end.

(** [color] holds the hex value that the constructor or [color.setHex]
    last arrived at. *)
Record Material := mkMaterial {
  kind : MaterialKind;
  color : Z;
  transparent : bool;
  opacity : float;
}.

(** Every [Object3D] carries the engine's instance number [id], taken
    from a global counter when the object is constructed; it stands for
    the identity of the JavaScript object. *)
Record Group := mkGroup {
  group_id : N;
  group_name : string;
  group_position : Vector3;
  group_rotation : Vector3;
}.

Record Mesh := mkMesh {
  mesh_id : N;
  geometry : Geometry;
  material : Material;
  mesh_position : Vector3;
  mesh_rotation : Vector3;
  castShadow : bool;
}.

Record Line := mkLine {
  line_id : N;
  line_geometry : Geometry;
  line_material : Material;
}.

Definition origin : Vector3 := mkVector3 0 0 0.

(** [scene.add(o)] for a freshly constructed [o]: appended to
    [scene.children]. *)
Definition add (o : N) (children : list N) : list N := children ++ [o].

(** [scene.remove(o)]: [indexOf] then [splice], so the first occurrence
    goes and an absent object changes nothing. *)
Fixpoint remove (o : N) (children : list N) : list N :=
  match children with
  | [] => []
  | c :: rest => if decide (c = o) then rest else c :: remove o rest
  end.

End THREE.

(* ===================================================================== *)
(** ** Objects used as dictionaries *)
(* ===================================================================== *)

Module JS.

(** The properties that an object made by a literal or by [JSON.parse]
    inherits from [Object.prototype]. *)
Definition prototypeNames : list string :=
  ["constructor"; "hasOwnProperty"; "isPrototypeOf"; "propertyIsEnumerable";
   "toLocaleString"; "toString"; "valueOf"; "__proto__";
   "__defineGetter__"; "__defineSetter__"; "__lookupGetter__";
   "__lookupSetter__"].

Definition inherited (k : string) : Prop := k ∈ prototypeNames.

#[global] Instance inherited_dec (k : string) : Decision (inherited k).
Proof. unfold inherited. apply _. Defined.

(** What [o[k]] finds: the object's own property, or else a property of
    the prototype, or nothing ([undefined]). An inherited value is a
    function, or for [__proto__] the prototype itself: it is truthy and
    has none of the fields that the code reads. *)
Inductive Property (A : Type) :=
| Own (a : A)
| Inherited
| Absent.
Arguments Own {A} a.
Arguments Inherited {A}.
Arguments Absent {A}.

(** [o[k]], given the own property [own] of [o] under [k], if any. *)
Definition get {A} (own : option A) (k : string) : Property A :=
  match own with
  | Some a => Own a
  | None => if decide (inherited k) then Inherited else Absent
  end.

(** The text of an inherited value, which is what counts where the value
    is used as a property key. The wording is the engine's; it is not
    empty, and it is no key of the prototype. *)
Definition inheritedText (k : string) : string :=
  if decide (k = "__proto__") then "[object Object]"
  else if decide (k = "constructor") then "function Object() { [native code] }"
  else "function " +:+ k +:+ "() { [native code] }".

End JS.

(* ===================================================================== *)
(** ** The wire messages *)
(* ===================================================================== *)

Module Wire.

Record CraneData := mkCraneData {
  id : string;
  name : string;
  base_x : float;
  base_y : float;
  mast_height : float;
  boom_length : float;
  slew_angle : float;
  slew_speed : float;
  luffing_angle : float;
  working_radius : float;
}.

Record Collision := mkCollision {
  crane_a_id : string;
  crane_b_id : string;
  current_distance : float;
  boom_tip_distance : float;
  time_to_collision : option float;
  alert_level : string;
}.

(** [crane_alerts] maps an entity id to its level; a field that the
    frame does not carry is [None]. *)
Record Status := mkStatus {
  crane_alerts : option (gmap string string);
}.

(** One parsed frame: a snapshot, an error frame or an acknowledgment. *)
Record Data := mkData {
  error : option string;
  ack : option bool;
  status : option Status;
  cranes : option (list CraneData);
  collisions : option (list Collision);
}.

(** What [JSON.parse] makes of a frame's text when it does not raise:
    [null]; another falsy value ([false], [0], the empty string); or a
    truthy value. A truthy value that is no object (a number, a string,
    an array) has none of the fields that the code reads, and is the
    [Data] without fields. *)
Inductive Parsed :=
| ParsedNull
| ParsedFalsy
| ParsedValue (data : Data).

(** The value as the code's truthiness tests see it. *)
Definition truthy (parsed : Parsed) : option Data :=
  match parsed with
  | ParsedValue data => Some data
  | _ => None
  end.

End Wire.

(* ===================================================================== *)
(** ** The scene module *)
(* ===================================================================== *)

Module Scene.
Import THREE Wire.

Definition CRANE_COLORS : list Z :=
  [0x4a90d9; 0xe67e22; 0x2ecc71; 0x9b59b6; 0xe74c3c; 0x1abc9c]%Z.

(** The four entries of the object literal [ALERT_LEVEL_COLORS], and
    what [ALERT_LEVEL_COLORS[level]] finds. *)
Definition ALERT_LEVEL_COLORS_own (level : string) : option Z :=
  if decide (level = "NORMAL") then Some 0x00CC00%Z
  else if decide (level = "CAUTION") then Some 0xFFD700%Z
  else if decide (level = "WARNING") then Some 0xFF8C00%Z
  else if decide (level = "DANGER") then Some 0xFF0000%Z
  else None.

Definition ALERT_LEVEL_COLORS (level : string) : JS.Property Z :=
  JS.get (ALERT_LEVEL_COLORS_own level) level.

(** [v || d] for a table lookup [v]: the default is taken when nothing
    is found or the entry is the falsy number 0; an inherited value is
    truthy and is kept. *)
Definition or_default (v : JS.Property Z) (d : Z) : ColorValue :=
  match v with
  | JS.Own c => if (c =? 0)%Z then Hex d else Hex c
  | JS.Inherited => NotANumber
  | JS.Absent => Hex d
  end.

(** The value stored under an id in [craneObjects]. [baseMesh] and
    [mastMesh] are the two children of [group] that the JavaScript
    record does not name; they are kept here so that the whole subtree
    of a visual object is one value. *)
Record CraneObject := mkCraneObject {
  group : Group;
  baseMesh : Mesh;
  mastMesh : Mesh;
  boomGroup : Group;
  boomMesh : Mesh;
  tipMesh : Mesh;
  radiusMesh : Mesh;
  circleLine : Line;
  obj_color : Z;
  mastHeight : float;
  boomLength : float;
}.

(** The module-level variables. [isInitialized] is set by
    [initThreeScene] once the canvas container is found. [scene] is
    [scene.children] restricted to what this module adds after
    initialisation, by instance number; [nextObjectId] is the engine's
    instance counter. [craneObjects] holds the own properties of the
    object, keyed by the server's entity ids; what [craneObjects[id]]
    finds is [JS.get] of the own property. *)
Record State := mkState {
  isInitialized : bool;
  scene : list N;
  craneObjects : gmap string CraneObject;
  warningLines : list Line;
  nextObjectId : N;
}.

Definition set_scene (f : list N → list N) (st : State) : State :=
  mkState (isInitialized st) (f (scene st)) (craneObjects st)
          (warningLines st) (nextObjectId st).
Definition set_craneObjects
    (f : gmap string CraneObject → gmap string CraneObject) (st : State) : State :=
  mkState (isInitialized st) (scene st) (f (craneObjects st))
          (warningLines st) (nextObjectId st).
Definition set_warningLines (f : list Line → list Line) (st : State) : State :=
  mkState (isInitialized st) (scene st) (craneObjects st)
          (f (warningLines st)) (nextObjectId st).
Definition set_nextObjectId (f : N → N) (st : State) : State :=
  mkState (isInitialized st) (scene st) (craneObjects st)
          (warningLines st) (f (nextObjectId st)).

(** What a call leaves: the module's variables as they are when the call
    ends, and whether it ended by an exception. *)
Record Outcome := mkOutcome { after :> State; threw : bool }.

Definition returns (st : State) : Outcome := mkOutcome st false.
Definition throws (st : State) : Outcome := mkOutcome st true.

(** [list.forEach(callback)]: an exception in the callback ends the
    loop. *)
Fixpoint forEach {A} (callback : State → A → Outcome) (st : State)
    (list : list A) : Outcome :=
  match list with
  | [] => returns st
  | a :: rest =>
      let o := callback st a in
      if threw o then o else forEach callback (after o) rest
  end.

(** *** createCraneObject *)

(** [new MeshPhongMaterial({ color })], with the engine's defaults for
    what the call leaves out. *)
Definition phong (c : Z) : Material :=
  mkMaterial (MeshPhongMaterial 0x000000 1) c false 1.

(** The object built for [craneData], its eight [Object3D]s numbered
    from [n] in construction order. *)
Definition buildCraneObject (craneData : CraneData) (colorIndex : nat) (n : N)
    : CraneObject :=
  let color := default 0%Z
                 (CRANE_COLORS !! (colorIndex mod length CRANE_COLORS)%nat) in
  let baseX := base_x craneData in
  let baseZ := base_y craneData in
  let mastH := mast_height craneData in
  let boomL := boom_length craneData in
  {| group := mkGroup n (id craneData) (mkVector3 baseX 0 baseZ) origin;
     baseMesh := mkMesh (n + 1) (BoxGeometry 4 2 4) (phong 0x555555%Z)
                   (mkVector3 0 1 0) origin true;
     mastMesh := mkMesh (n + 2) (BoxGeometry 2 mastH 2) (phong color)
                   (mkVector3 0 (mastH / 2) 0) origin true;
     boomGroup := mkGroup (n + 3) "" (mkVector3 0 mastH 0) origin;
     boomMesh := mkMesh (n + 4) (BoxGeometry boomL 1.2 1.2)
                   (mkMaterial (MeshPhongMaterial color 0.1) color false 1)
                   (mkVector3 (boomL / 2) 0 0) origin true;
     tipMesh := mkMesh (n + 5) (SphereGeometry 1.5 8 8)
                  (mkMaterial (MeshBasicMaterial false) 0xffffff%Z false 1)
                  (mkVector3 boomL 0 0) origin false;
     radiusMesh := mkMesh (n + 6) (RingGeometry (boomL - 1) (boomL + 1) 64)
                     (mkMaterial (MeshBasicMaterial true) color true 0.15)
                     (mkVector3 0 0.5 0) (mkVector3 (- PI / 2) 0 0) false;
     circleLine := mkLine (n + 7) (CircleOutline boomL 0.5 64)
                     (mkMaterial LineBasicMaterial color true 0.4);
     obj_color := color;
     mastHeight := mastH;
     boomLength := boomL |}.

Definition createCraneObject (craneData : CraneData) (colorIndex : nat)
    (st : State) : State :=
  let obj := buildCraneObject craneData colorIndex (nextObjectId st) in
  let st := set_nextObjectId (λ n, n + 8)%N st in
  let st := set_scene (add (group_id (group obj))) st in
  set_craneObjects <[id craneData := obj]> st.

(** *** updateCraneObject *)

Definition set_rotation_y (v : float) (g : Group) : Group :=
  mkGroup (group_id g) (group_name g) (group_position g)
          (mkVector3 (x (group_rotation g)) v (z (group_rotation g))).
Definition set_rotation_z (v : float) (g : Group) : Group :=
  mkGroup (group_id g) (group_name g) (group_position g)
          (mkVector3 (x (group_rotation g)) (y (group_rotation g)) v).

(** [m.material.color.setHex(c)] and [m.material.opacity = o] *)
Definition setHex (c : Z) (m : Mesh) : Mesh :=
  mkMesh (mesh_id m) (geometry m)
         (mkMaterial (kind (material m)) c (transparent (material m))
                     (opacity (material m)))
         (mesh_position m) (mesh_rotation m) (castShadow m).
Definition set_opacity (o : float) (m : Mesh) : Mesh :=
  mkMesh (mesh_id m) (geometry m)
         (mkMaterial (kind (material m)) (color (material m))
                     (transparent (material m)) o)
         (mesh_position m) (mesh_rotation m) (castShadow m).

Definition set_boomGroup (f : Group → Group) (o : CraneObject) : CraneObject :=
  mkCraneObject (group o) (baseMesh o) (mastMesh o) (f (boomGroup o))
    (boomMesh o) (tipMesh o) (radiusMesh o) (circleLine o) (obj_color o)
    (mastHeight o) (boomLength o).
Definition set_tipMesh (f : Mesh → Mesh) (o : CraneObject) : CraneObject :=
  mkCraneObject (group o) (baseMesh o) (mastMesh o) (boomGroup o)
    (boomMesh o) (f (tipMesh o)) (radiusMesh o) (circleLine o) (obj_color o)
    (mastHeight o) (boomLength o).
Definition set_radiusMesh (f : Mesh → Mesh) (o : CraneObject) : CraneObject :=
  mkCraneObject (group o) (baseMesh o) (mastMesh o) (boomGroup o)
    (boomMesh o) (tipMesh o) (f (radiusMesh o)) (circleLine o) (obj_color o)
    (mastHeight o) (boomLength o).

(** The two angle conversions of [updateCraneObject]. *)
Definition slewRad (craneData : CraneData) : float :=
  (- slew_angle craneData * (PI / 180))%float.
Definition luffRad (craneData : CraneData) : float :=
  (luffing_angle craneData * (PI / 180))%float.

(** [alertLevel && alertLevel !== "NORMAL"]: an absent level and the
    empty string are falsy. *)
Definition alerting (alertLevel : option string) : option string :=
  match alertLevel with
  | Some l => if decide (l = "") then None
              else if decide (l = "NORMAL") then None else Some l
  | None => None
  end.

(** The writes that [updateCraneObject] makes to the object it found. *)
Definition writeCraneObject (craneData : CraneData) (alertLevel : option string)
    (obj : CraneObject) : CraneObject :=
  let obj := set_boomGroup (set_rotation_y (slewRad craneData)) obj in
  let obj := set_boomGroup (set_rotation_z (luffRad craneData)) obj in
  match alerting alertLevel with
  | Some l =>
      let alertColor := or_default (ALERT_LEVEL_COLORS l) (obj_color obj) in
      let obj := set_tipMesh (setHex (hexOf alertColor)) obj in
      if decide (l = "DANGER" ∨ l = "WARNING") then
        let obj := set_radiusMesh (setHex (hexOf alertColor)) obj in
        set_radiusMesh (set_opacity 0.25) obj
      else obj
  | None =>
      let obj := set_tipMesh (setHex 0xffffff%Z) obj in
      let obj := set_radiusMesh (setHex (obj_color obj)) obj in
      set_radiusMesh (set_opacity 0.15) obj
  end.

(** An id under which [craneObjects] has no own property but the
    prototype has one gives a value that passes the test [!obj] and has
    no [boomGroup]: the first assignment raises, with nothing written. *)
Definition updateCraneObject (craneData : CraneData)
    (alertLevel : option string) (st : State) : Outcome :=
  match JS.get (craneObjects st !! id craneData) (id craneData) with
  | JS.Absent => returns st
  | JS.Inherited => throws st
  | JS.Own obj =>
      returns
        (set_craneObjects
           <[id craneData := writeCraneObject craneData alertLevel obj]> st)
  end.

Section WithEngine.

(** [getWorldPosition], the engine's capability: the world position of
    a tip marker, computed from the transforms of its ancestor chain
    (root group, boom group) and its own. *)
Variable getWorldPosition : Group → Group → Mesh → Vector3.

Definition tipWorldPosition (obj : CraneObject) : Vector3 :=
  getWorldPosition (group obj) (boomGroup obj) (tipMesh obj).

(** *** updateWarningLines *)

(** [new THREE.LineDashedMaterial({ color, dashSize: 3, gapSize: 2 })] *)
Definition dashed (c : ColorValue) : Material :=
  mkMaterial (LineDashedMaterial 3 2) (constructedColor c) false 1.

(** The body of the [collisions.forEach] callback. The callback goes on
    when both lookups are truthy; a value that the prototype supplies has
    no [tipMesh], and asking it for the world position raises before
    anything is drawn. The [LineBasicMaterial] that the callback also
    constructs is not given to any object and leaves no trace. *)
Definition drawWarningLine (st : State) (collision : Collision) : Outcome :=
  if decide (alert_level collision = "NORMAL") then returns st
  else
    match JS.get (craneObjects st !! crane_a_id collision) (crane_a_id collision),
          JS.get (craneObjects st !! crane_b_id collision) (crane_b_id collision)
    with
    | JS.Absent, _ | _, JS.Absent => returns st
    | JS.Own objA, JS.Own objB =>
        let posA := tipWorldPosition objA in
        let posB := tipWorldPosition objB in
        let color :=
          or_default (ALERT_LEVEL_COLORS (alert_level collision)) 0xFFFFFF%Z in
        let line := mkLine (nextObjectId st) (SegmentGeometry posA posB)
                           (dashed color) in
        let st := set_nextObjectId (λ n, n + 1)%N st in
        let st := set_scene (add (line_id line)) st in
        returns (set_warningLines (λ ls, ls ++ [line]) st)
    | _, _ => throws st
    end.

Definition updateWarningLines (collisions : option (list Collision))
    (st : State) : Outcome :=
  let st := foldl (λ st line, set_scene (remove (line_id line)) st)
                  st (warningLines st) in
  let st := set_warningLines (λ _, []) st in
  match collisions with
  | None => returns st
  | Some collisions => forEach drawWarningLine st collisions
  end.

(** *** updateThreeScene *)

(** [craneAlerts[id]], the argument that [updateCraneObject] gets. An
    inherited value is used there as a property key, where its text is
    what counts, and is compared with string literals, which it differs
    from as its text does: it is passed on as its text. *)
Definition alertLevelOf (craneAlerts : gmap string string) (id : string)
    : option string :=
  match JS.get (craneAlerts !! id) id with
  | JS.Own level => Some level
  | JS.Inherited => Some (JS.inheritedText id)
  | JS.Absent => None
  end.

(** The body of the [cranes.forEach] callback. *)
Definition reconcileCrane (craneAlerts : gmap string string)
    (st : State) (entry : nat * CraneData) : Outcome :=
  let '(index, craneData) := entry in
  let st := match JS.get (craneObjects st !! id craneData) (id craneData) with
            | JS.Absent => createCraneObject craneData index st
            | _ => st
            end in
  updateCraneObject craneData (alertLevelOf craneAlerts (id craneData)) st.

(** The body of the [Object.keys(craneObjects).forEach] callback. Every
    key that the loop visits is still in the map when its turn comes. *)
Definition removeIfDeleted (cranes : list CraneData) (st : State)
    (key : string) : State :=
  match find (λ c, bool_decide (id c = key)) cranes with
  | Some _ => st
  | None =>
      match craneObjects st !! key with
      | Some obj =>
          let st := set_scene (remove (group_id (group obj))) st in
          set_craneObjects (delete key) st
      | None => st
      end
  end.

(** [Object.keys(craneObjects)] is taken once, before the removal loop
    starts; the model lists the keys in the map's own order, and the
    loop's result is the same for every order of the keys. The keys are
    own properties, so the removal loop cannot raise. An exception in the
    loop over the cranes leaves the removal loop and the overlay
    undone. *)
Definition updateThreeScene (state : option Data) (st : State) : Outcome :=
  match state with
  | None => returns st
  | Some state =>
      if negb (isInitialized st) then returns st
      else
        let cranes := default [] (cranes state) in
        let collisions := default [] (collisions state) in
        let craneAlerts :=
          default ∅ (status state ≫= crane_alerts) in
        let o := forEach (reconcileCrane craneAlerts) st (imap pair cranes) in
        if threw o then o
        else
          let st := foldl (removeIfDeleted cranes) (after o)
                          (map_to_list (craneObjects (after o))).*1 in
          updateWarningLines (Some collisions) st
  end.

(** *** Notions used to state the properties of the overlay *)

(** Following the specification: the Alert Level enumeration, and the
    levels above its least element. *)
Definition validLevel (level : string) : Prop :=
  level ∈ ["NORMAL"; "CAUTION"; "WARNING"; "DANGER"].
Definition aboveNormal (level : string) : Prop :=
  level ∈ ["CAUTION"; "WARNING"; "DANGER"].

(** Following the specification: the indicator that a collision record
    is to contribute, given the live mapping. A record above NORMAL
    whose two entities are both live contributes one dashed segment
    between the two tips, in the colour of its level; any other record
    contributes nothing. *)
Definition expectedIndicator (objs : gmap string CraneObject)
    (collision : Collision) : option (Geometry * Material) :=
  if decide (aboveNormal (alert_level collision)) then
    objA ← objs !! crane_a_id collision;
    objB ← objs !! crane_b_id collision;
    levelColor ← ALERT_LEVEL_COLORS_own (alert_level collision);
    Some (SegmentGeometry (tipWorldPosition objA) (tipWorldPosition objB),
          mkMaterial (LineDashedMaterial 3 2) levelColor false 1)
  else None.

End WithEngine.

(** What an overlay line looks like, apart from its identity. *)
Definition appearance (line : Line) : Geometry * Material :=
  (line_geometry line, line_material line).

(** The alert-driven colouring of a visual object: the tip marker's
    colour, and the colour and opacity of the working-radius ring. *)
Definition coloring (obj : CraneObject) : Z * (Z * float) :=
  (color (material (tipMesh obj)),
   (color (material (radiusMesh obj)), opacity (material (radiusMesh obj)))).

(** The instance numbers in use are below the counter, and no object is
    twice in the scene; [updateThreeScene] keeps it so. *)
Definition wellFormed (st : State) : Prop :=
  NoDup (scene st)
  ∧ (∀ n, n ∈ scene st → (n < nextObjectId st)%N)
  ∧ (∀ line, line ∈ warningLines st → (line_id line < nextObjectId st)%N).

End Scene.

(* ===================================================================== *)
(** ** The transport channel and the dispatcher *)
(* ===================================================================== *)

Module Channel.
Import Wire.

(** [WebSocket.readyState] *)
Inductive ReadyState := CONNECTING | OPEN | CLOSING | CLOSED.

#[global] Instance ReadyState_eq_dec : EqDecision ReadyState.
Proof. solve_decision. Defined.

Record Socket := mkSocket { url : string; readyState : ReadyState }.

(** What the client writes to the console, one constructor per call
    site. *)
Inductive ConsoleEntry :=
| LogConnecting (wsUrl : string)      (* console.log,   connectWebSocket *)
| ErrorCreateFailed                   (* console.error, connectWebSocket *)
| LogConnected                        (* console.log,   onopen *)
| WarnServerError (e : string)        (* console.warn,  onmessage *)
| ErrorParse                          (* console.error, onmessage *)
| LogClosed (code : Z)                (* console.log,   onclose *)
| ErrorSocket                         (* console.error, onerror *)
| LogReconnecting.                    (* console.log,   timer callback *)

(** The element [#connection-status]. *)
Record StatusElement := mkStatusElement {
  textContent : string;
  className : string;
}.

Definition RECONNECT_INTERVAL : Z := 3000.

(** The variables of the WebSocket module ([ws] names a socket by its
    index in [sockets]), [currentState] of the main module, the scene
    module's state, and the host: the sockets constructed so far, the
    pending timeouts with their delays, the status element when the
    page has one, the console, and the snapshots handed to the panel
    writers in [panels]. [lastData] and [currentState] are only ever
    assigned and tested for truthiness: [None] is [null] or another
    falsy value. *)
Record State := mkState {
  ws : option nat;
  isConnected : bool;
  reconnectTimer : option positive;
  lastData : option Data;
  currentState : option Data;
  three : Scene.State;
  sockets : list Socket;
  timers : list (positive * Z);
  nextTimerId : positive;
  statusEl : option StatusElement;
  console : list ConsoleEntry;
  panels : list Data;
  location_protocol : string;
  location_host : string;
}.

Definition set_ws (v : option nat) (st : State) : State :=
  mkState v (isConnected st) (reconnectTimer st) (lastData st)
    (currentState st) (three st) (sockets st) (timers st) (nextTimerId st)
    (statusEl st) (console st) (panels st) (location_protocol st)
    (location_host st).
Definition set_isConnected (v : bool) (st : State) : State :=
  mkState (ws st) v (reconnectTimer st) (lastData st)
    (currentState st) (three st) (sockets st) (timers st) (nextTimerId st)
    (statusEl st) (console st) (panels st) (location_protocol st)
    (location_host st).
Definition set_reconnectTimer (v : option positive) (st : State) : State :=
  mkState (ws st) (isConnected st) v (lastData st)
    (currentState st) (three st) (sockets st) (timers st) (nextTimerId st)
    (statusEl st) (console st) (panels st) (location_protocol st)
    (location_host st).
Definition set_lastData (v : option Data) (st : State) : State :=
  mkState (ws st) (isConnected st) (reconnectTimer st) v
    (currentState st) (three st) (sockets st) (timers st) (nextTimerId st)
    (statusEl st) (console st) (panels st) (location_protocol st)
    (location_host st).
Definition set_currentState (v : option Data) (st : State) : State :=
  mkState (ws st) (isConnected st) (reconnectTimer st) (lastData st)
    v (three st) (sockets st) (timers st) (nextTimerId st)
    (statusEl st) (console st) (panels st) (location_protocol st)
    (location_host st).
Definition set_three (f : Scene.State → Scene.State) (st : State) : State :=
  mkState (ws st) (isConnected st) (reconnectTimer st) (lastData st)
    (currentState st) (f (three st)) (sockets st) (timers st) (nextTimerId st)
    (statusEl st) (console st) (panels st) (location_protocol st)
    (location_host st).
Definition set_sockets (f : list Socket → list Socket) (st : State) : State :=
  mkState (ws st) (isConnected st) (reconnectTimer st) (lastData st)
    (currentState st) (three st) (f (sockets st)) (timers st) (nextTimerId st)
    (statusEl st) (console st) (panels st) (location_protocol st)
    (location_host st).
Definition set_timers (f : list (positive * Z) → list (positive * Z))
    (st : State) : State :=
  mkState (ws st) (isConnected st) (reconnectTimer st) (lastData st)
    (currentState st) (three st) (sockets st) (f (timers st)) (nextTimerId st)
    (statusEl st) (console st) (panels st) (location_protocol st)
    (location_host st).
Definition set_nextTimerId (v : positive) (st : State) : State :=
  mkState (ws st) (isConnected st) (reconnectTimer st) (lastData st)
    (currentState st) (three st) (sockets st) (timers st) v
    (statusEl st) (console st) (panels st) (location_protocol st)
    (location_host st).
Definition set_statusEl (f : option StatusElement → option StatusElement)
    (st : State) : State :=
  mkState (ws st) (isConnected st) (reconnectTimer st) (lastData st)
    (currentState st) (three st) (sockets st) (timers st) (nextTimerId st)
    (f (statusEl st)) (console st) (panels st) (location_protocol st)
    (location_host st).
Definition console_write (e : ConsoleEntry) (st : State) : State :=
  mkState (ws st) (isConnected st) (reconnectTimer st) (lastData st)
    (currentState st) (three st) (sockets st) (timers st) (nextTimerId st)
    (statusEl st) (console st ++ [e]) (panels st) (location_protocol st)
    (location_host st).
Definition set_panels (f : list Data → list Data) (st : State) : State :=
  mkState (ws st) (isConnected st) (reconnectTimer st) (lastData st)
    (currentState st) (three st) (sockets st) (timers st) (nextTimerId st)
    (statusEl st) (console st) (f (panels st)) (location_protocol st)
    (location_host st).

(** *** The host's timers *)

(** [setTimeout(callback, delay)]: the returned id is a positive
    integer, hence truthy. The only callback this module ever registers
    is the reconnect callback [reconnectCallback] below. *)
Definition setTimeout (delay : Z) (st : State) : positive * State :=
  let t := nextTimerId st in
  (t, set_nextTimerId (Pos.succ t) (set_timers (λ ts, ts ++ [(t, delay)]) st)).

Definition clearTimeout (t : positive) (st : State) : State :=
  set_timers (filter (λ e, e.1 ≠ t)) st.

(** A timeout that fires leaves the pending list before its callback
    runs. *)
Definition expire (t : positive) (st : State) : State :=
  set_timers (filter (λ e, e.1 ≠ t)) st.

(** *** updateConnectionStatus *)

Definition updateConnectionStatus (connected : bool) (st : State) : State :=
  match statusEl st with
  | None => st
  | Some _ =>
      if connected
      then set_statusEl (λ _, Some (mkStatusElement "연결됨" "status-connected")) st
      else set_statusEl (λ _, Some (mkStatusElement "연결 끊김" "status-disconnected")) st
  end.

(** *** scheduleReconnect; its callback is [reconnectCallback] *)

Definition scheduleReconnect (st : State) : State :=
  match reconnectTimer st with
  | Some _ => st
  | None =>
      let '(t, st) := setTimeout RECONNECT_INTERVAL st in
      set_reconnectTimer (Some t) st
  end.

(** *** connectWebSocket *)

Definition ws_readyState (st : State) : option ReadyState :=
  k ← ws st; readyState <$> sockets st !! k.

Definition wsUrl (st : State) : string :=
  let protocol :=
    if decide (location_protocol st = "https:") then "wss:" else "ws:" in
  protocol +:+ "//" +:+ location_host st +:+ "/ws".

(** [constructorThrows] says whether [new WebSocket(wsUrl)] raises. The
    four handlers installed on the new socket are [onopen], [onmessage],
    [onclose] and [onerror] below; they read and write the module's
    variables only, so they are the same for every socket. *)
Definition connectWebSocket (constructorThrows : bool) (st : State) : State :=
  if decide (ws_readyState st = Some OPEN) then st
  else
    let st := console_write (LogConnecting (wsUrl st)) st in
    if constructorThrows then
      let st := console_write ErrorCreateFailed st in
      scheduleReconnect st
    else
      let k := length (sockets st) in
      let st := set_sockets (λ ss, ss ++ [mkSocket (wsUrl st) CONNECTING]) st in
      set_ws (Some k) st.

Definition reconnectCallback (constructorThrows : bool) (st : State) : State :=
  let st := set_reconnectTimer None st in
  let st := console_write LogReconnecting st in
  connectWebSocket constructorThrows st.

(** *** The socket handlers *)

Definition onopen (st : State) : State :=
  let st := console_write LogConnected st in
  let st := set_isConnected true st in
  let st := updateConnectionStatus true st in
  match reconnectTimer st with
  | Some t => set_reconnectTimer None (clearTimeout t st)
  | None => st
  end.

Definition onclose (code : Z) (st : State) : State :=
  let st := console_write (LogClosed code) st in
  let st := set_isConnected false st in
  let st := updateConnectionStatus false st in
  scheduleReconnect st.

Definition onerror (st : State) : State :=
  let st := console_write ErrorSocket st in
  let st := set_isConnected false st in
  updateConnectionStatus false st.

Section WithHost.

Variable getWorldPosition :
  THREE.Group → THREE.Group → THREE.Mesh → THREE.Vector3.

(** [JSON.parse] on the frame's text; [None] when it raises. *)
Variable JSON_parse : string → option Parsed.

(** [onDataReceived] of the main module: the scene first, then the
    panel writers; the result says whether the call ended by an
    exception, which [updateThreeScene] can raise and which the panel
    writers then do not outlive. Every panel writer returns at once on a
    falsy [state]. *)
Definition onDataReceived (state : option Data) (st : State) : State * bool :=
  let st := set_currentState state st in
  let o := Scene.updateThreeScene getWorldPosition state (three st) in
  let st := set_three (λ _, Scene.after o) st in
  if Scene.threw o then (st, true)
  else
    match state with
    | Some state => (set_panels (λ ps, ps ++ [state]) st, false)
    | None => (st, false)
    end.

Definition truthy_string (v : option string) : option string :=
  match v with
  | Some s => if decide (s = "") then None else Some s
  | None => None
  end.

(** The handler's [try] block holds everything: [JSON.parse], the
    reading of [data.error], which raises on [null], and the dispatch.
    Whatever is raised is logged by the one [catch]. *)
Definition onmessage (event_data : string) (st : State) : State :=
  match JSON_parse event_data with
  | None => console_write ErrorParse st
  | Some data =>
      let st := set_lastData (truthy data) st in
      match data with
      | ParsedNull => console_write ErrorParse st
      | _ =>
          match truthy_string (truthy data ≫= error) with
          | Some e => console_write (WarnServerError e) st
          | None =>
              if decide (truthy data ≫= ack = Some true) then st
              else
                let '(st, threw) := onDataReceived (truthy data) st in
                if threw then console_write ErrorParse st else st
          end
      end
  end.

(** *** The host's event loop *)

Inductive Event :=
| Connect (constructorThrows : bool)
| SocketOpen (k : nat)
| SocketMessage (k : nat) (event_data : string)
| SocketClose (k : nat) (code : Z)
| SocketError (k : nat)
| TimerFired (t : positive) (constructorThrows : bool).

Definition set_readyState (k : nat) (r : ReadyState) (st : State) : State :=
  set_sockets (alter (λ s, mkSocket (url s) r) k) st.

(** One turn of the event loop; [None] when the host cannot deliver
    the event in this state. The order that a browser keeps among the
    events of one socket is not assumed, beyond [open] coming to a
    socket that is still connecting: every other event may reach any
    socket that exists. *)
Definition deliver (ev : Event) (st : State) : option State :=
  match ev with
  | Connect throws => Some (connectWebSocket throws st)
  | SocketOpen k =>
      match sockets st !! k with
      | Some (mkSocket _ CONNECTING) => Some (onopen (set_readyState k OPEN st))
      | _ => None
      end
  | SocketMessage k event_data =>
      match sockets st !! k with
      | Some _ => Some (onmessage event_data st)
      | None => None
      end
  | SocketClose k code =>
      match sockets st !! k with
      | Some _ => Some (onclose code (set_readyState k CLOSED st))
      | None => None
      end
  | SocketError k =>
      match sockets st !! k with
      | Some _ => Some (onerror st)
      | None => None
      end
  | TimerFired t throws =>
      if decide (t ∈ (timers st).*1)
      then Some (reconnectCallback throws (expire t st))
      else None
  end.

Fixpoint run (evs : list Event) (st : State) : option State :=
  match evs with
  | [] => Some st
  | ev :: evs => st ← deliver ev st; run evs st
  end.

End WithHost.

Definition isClose (ev : Event) : Prop :=
  match ev with SocketClose _ _ => True | _ => False end.

(** The module's variable [reconnectTimer] and the host's pending
    timeouts tell the same story: the timeout the variable names, with
    the reconnect delay, is the only one pending. *)
Definition timerTracked (st : State) : Prop :=
  timers st = match reconnectTimer st with
              | Some t => [(t, RECONNECT_INTERVAL)]
              | None => []
              end.

(** What [updateConnectionStatus(false)] leaves in the status element. *)
Definition shownDisconnected : StatusElement :=
  mkStatusElement "연결 끊김" "status-disconnected".

(** The page before [DOMContentLoaded] has called [connectWebSocket]. *)
Definition initial (scene0 : Scene.State) (el : option StatusElement)
    (protocol host : string) : State :=
  mkState None false None None None scene0 [] [] 1%positive el [] []
          protocol host.

End Channel.

(* ===================================================================== *)
(** ** The loop bodies between exceptions *)
(* ===================================================================== *)

(** Proof devices, not models of the source: what the bodies of the two
    [forEach] callbacks do to the state when every lookup in
    [craneObjects] is decided by its own properties. The facts below
    relate them to the callbacks of [Scene], which agree with them up to
    the first exception. *)
Module Plain.
Import THREE Wire Scene.

Definition updateStep (craneData : CraneData)
    (alertLevel : option string) (st : State) : State :=
  match craneObjects st !! id craneData with
  | None => st
  | Some obj =>
      set_craneObjects <[id craneData := writeCraneObject craneData alertLevel obj]> st
  end.

Definition reconcileStep (alerts : gmap string string)
    (st : State) (entry : nat * CraneData) : State :=
  let '(index, craneData) := entry in
  let st := match craneObjects st !! id craneData with
            | None => createCraneObject craneData index st
            | Some _ => st
            end in
  updateStep craneData (alerts !! id craneData) st.

Section WithEngine.

Variable getWorldPosition : Group → Group → Mesh → Vector3.

Definition drawStep (st : State) (collision : Collision) : State :=
  if decide (alert_level collision = "NORMAL") then st
  else
    match craneObjects st !! crane_a_id collision,
          craneObjects st !! crane_b_id collision with
    | Some objA, Some objB =>
        let posA := tipWorldPosition getWorldPosition objA in
        let posB := tipWorldPosition getWorldPosition objB in
        let color :=
          or_default (ALERT_LEVEL_COLORS (alert_level collision)) 0xFFFFFF%Z in
        let line := mkLine (nextObjectId st) (SegmentGeometry posA posB)
                           (dashed color) in
        let st := set_nextObjectId (λ n, n + 1)%N st in
        let st := set_scene (add (line_id line)) st in
        set_warningLines (λ ls, ls ++ [line]) st
    | _, _ => st
    end.

End WithEngine.

End Plain.

(* ===================================================================== *)
(** ** Notions used in the proofs about the scene module *)
(* ===================================================================== *)

Module SceneNotions.
Import THREE Wire Scene.

(** The part of a list that a loop gets through: the elements before
    the first one at which it stops. *)
Fixpoint before {A} (stop : A → bool) (l : list A) : list A :=
  match l with
  | [] => []
  | a :: rest => if stop a then [] else a :: before stop rest
  end.

(** Ids that name no property of the prototype. *)
Definition ownNamesOnly (ids : list string) : Prop :=
  Forall (λ k, ¬ JS.inherited k) ids.

(** A lookup under [k] finds an inherited value. *)
Definition meetsInherited (objs : gmap string CraneObject) (k : string) : bool :=
  bool_decide (objs !! k = None ∧ JS.inherited k).

(** The collision records at which [drawWarningLine] raises: both
    lookups are truthy and one of them is inherited. *)
Definition raisesOn (objs : gmap string CraneObject) (c : Collision) : bool :=
  if decide (alert_level c = "NORMAL") then false
  else
    match JS.get (objs !! crane_a_id c) (crane_a_id c),
          JS.get (objs !! crane_b_id c) (crane_b_id c) with
    | JS.Absent, _ | _, JS.Absent => false
    | JS.Own _, JS.Own _ => false
    | _, _ => true
    end.

(** The alert table with what a lookup in it finds beyond its own
    entries. *)
Definition inheritedAlerts : gmap string string :=
  list_to_map ((λ k, (k, JS.inheritedText k)) <$> JS.prototypeNames).
Definition effectiveAlerts (alerts : gmap string string) : gmap string string :=
  alerts ∪ inheritedAlerts.

(** The ids of the entities that a [forEach] over the crane list visits. *)
Definition entryIds (entries : list (nat * CraneData)) : list string :=
  (λ e, id e.2) <$> entries.

(** What the sequence of writes of one tick does to the object stored
    under [k], once that object exists. *)
Definition writes (alerts : gmap string string) (k : string)
    (entries : list (nat * CraneData)) (obj : CraneObject) : CraneObject :=
  foldl (λ o e, if decide (id e.2 = k)
                then writeCraneObject e.2 (alerts !! k) o else o) obj entries.

(** The entity data that the last write for [k] comes from. *)
Definition lastEntity (k : string) (d : CraneData)
    (entries : list (nat * CraneData)) : CraneData :=
  foldl (λ acc e, if decide (id e.2 = k) then e.2 else acc) d entries.

(** The old overlay lines taken out of the scene's children. *)
Definition removeAll (ls : list Line) (children : list N) : list N :=
  foldl (λ ch line, remove (line_id line) ch) children ls.

(** The two facts about instance numbers that every pass keeps. *)
Definition tidy (st : State) : Prop :=
  NoDup (scene st) ∧ ∀ n, n ∈ scene st → (n < nextObjectId st)%N.

(** The alert table, the indexed entity list and the id list that a
    tick works with. *)
Definition tickAlerts (state : Data) : gmap string string :=
  effectiveAlerts (default ∅ (status state ≫= crane_alerts)).
Definition tickEntries (state : Data) : list (nat * CraneData) :=
  imap pair (default [] (cranes state)).
Definition tickIds (state : Data) : list string :=
  id <$> default [] (cranes state).

(** [obj] with new values in the five places that [updateCraneObject]
    assigns to: the two boom rotations, the tip colour, the colour and
    the opacity of the working-radius ring. *)
Definition repaint (ry rz : float) (tipColor radiusColor : Z)
    (radiusOpacity : float) (obj : CraneObject) : CraneObject :=
  set_radiusMesh (set_opacity radiusOpacity)
    (set_radiusMesh (setHex radiusColor)
       (set_tipMesh (setHex tipColor)
          (set_boomGroup (set_rotation_z rz)
             (set_boomGroup (set_rotation_y ry) obj)))).

(** The entries that the loop over the cranes gets through from [st],
    the state it leaves, and whether it raises on the way. *)
Definition reachedEntries (state : Data) (st : State) : list (nat * CraneData) :=
  before (λ e, meetsInherited (craneObjects st) (id e.2)) (tickEntries state).
Definition entityPass (state : Data) (st : State) : State :=
  foldl (Plain.reconcileStep (tickAlerts state)) st (reachedEntries state st).
Definition entitiesRaise (state : Data) (st : State) : bool :=
  existsb (λ e, meetsInherited (craneObjects st) (id e.2)) (tickEntries state).

(** The state in which the [collisions.forEach] of a tick starts, when
    the loop over the cranes got through: both passes over the entities
    are done, the old lines are out of the scene and [warningLines] is
    empty. *)
Definition afterEntities (state : Data) (st : State) : State :=
  foldl (removeIfDeleted (default [] (cranes state)))
    (entityPass state st)
    (map_to_list (craneObjects (entityPass state st))).*1.

Definition cleared (st : State) : State :=
  set_warningLines (λ _, []) (set_scene (removeAll (warningLines st)) st).

Section WithEngine.

Variable getWorldPosition : Group → Group → Mesh → Vector3.

(** What [drawWarningLine] does, read off the code: the appearance of
    the line it adds for a collision record, if it adds one. *)
Definition drawnIndicator (objs : gmap string CraneObject)
    (collision : Collision) : option (Geometry * Material) :=
  if decide (alert_level collision = "NORMAL") then None
  else
    match objs !! crane_a_id collision, objs !! crane_b_id collision with
    | Some objA, Some objB =>
        Some (SegmentGeometry (tipWorldPosition getWorldPosition objA)
                              (tipWorldPosition getWorldPosition objB),
              dashed (or_default (ALERT_LEVEL_COLORS (alert_level collision))
                                 0xFFFFFF%Z))
    | _, _ => None
    end.

(** The collision records that the overlay pass gets through on the
    mapping [objs]. *)
Definition drawnRecords (objs : gmap string CraneObject)
    (collisions : list Collision) : list Collision :=
  before (raisesOn objs) collisions.

End WithEngine.

End SceneNotions.

(* ===================================================================== *)
(** ** Sample data *)
(* ===================================================================== *)

Module Samples.
Import THREE Wire.

(** A stand-in for the engine's world transform that composes the three
    translations and leaves the rotations out. *)
Definition sumOfPositions (g b : Group) (t : Mesh) : Vector3 :=
  mkVector3
    (x (group_position g) + x (group_position b) + x (mesh_position t))
    (y (group_position g) + y (group_position b) + y (mesh_position t))
    (z (group_position g) + z (group_position b) + z (mesh_position t)).

Definition crane (name : string) (bx by_ slew luff : float) : CraneData :=
  mkCraneData name name bx by_ 40 30 slew 0 luff 30.

Definition craneA : CraneData := crane "A" 0 0 90 30.
Definition craneB : CraneData := crane "B" 50 0 270 0.
Definition craneC : CraneData := crane "C" 100 20 45 10.
(** the entity "A", moved and resized *)
Definition craneA' : CraneData :=
  mkCraneData "A" "A" 7 9 55 21 10 0 5 21.

Definition pair_AB (level : string) : Collision :=
  mkCollision "A" "B" 50 12 None level.

Definition snapshot (cs : list CraneData) (cols : list Collision)
    (alerts : list (string * string)) : Data :=
  mkData None None (Some (mkStatus (Some (list_to_map alerts))))
         (Some cs) (Some cols).

(** An initialised scene with nothing in it yet. *)
Definition emptyScene : Scene.State := Scene.mkState true [] ∅ [] 100.

Definition tick (state : Data) (st : Scene.State) : Scene.State :=
  Scene.after (Scene.updateThreeScene sumOfPositions (Some state) st).

Definition snapshotAB : Data :=
  snapshot [craneA; craneB] [pair_AB "DANGER"; pair_AB "NORMAL"]
           [("A", "DANGER"); ("B", "CAUTION")].
Definition snapshotC : Data := snapshot [craneC] [] [].
Definition snapshotA_danger : Data := snapshot [craneA] [] [("A", "DANGER")].
Definition snapshotA_caution : Data := snapshot [craneA] [] [("A", "CAUTION")].
Definition snapshotA_moved : Data := snapshot [craneA'] [] [].

(** An entity whose id names a property of the prototype, listed before
    entity B; and a collision record that names such an id, listed
    before the record of A and B. *)
Definition snapshotInherited : Data :=
  snapshot [crane "constructor" 20 20 0 0; craneB] [] [].
Definition snapshotAB_inheritedPair : Data :=
  snapshot [craneA; craneB]
           [mkCollision "constructor" "A" 50 12 None "DANGER"; pair_AB "DANGER"]
           [].

(** The object of entity "A" after its first tick without an alert. *)
Definition objectA : Scene.CraneObject :=
  Scene.writeCraneObject craneA None (Scene.buildCraneObject craneA 0 100).

(** A stand-in for [JSON.parse] that knows three frames by name and
    rejects every other text. *)
Definition parseByName (text : string) : option Parsed :=
  if decide (text = "snapshotAB") then Some (ParsedValue snapshotAB)
  else if decide (text = "ack")
       then Some (ParsedValue (mkData None (Some true) None None None))
  else if decide (text = "error")
       then Some (ParsedValue (mkData (Some "overloaded") None None None None))
  else None.

Abbreviation page :=
  (Channel.initial emptyScene
     (Some (Channel.mkStatusElement "" "")) "http:" "localhost:8000").

Abbreviation deliverAll := (Channel.run sumOfPositions parseByName).

(** The page once [connectWebSocket] has run, once the socket has
    opened, and once a first snapshot has been dispatched. *)
Definition connecting : Channel.State :=
  default page (deliverAll [Channel.Connect false] page).
Definition opened : Channel.State :=
  default page (deliverAll [Channel.Connect false; Channel.SocketOpen 0] page).
Definition showing : Channel.State :=
  default page
    (deliverAll [Channel.Connect false; Channel.SocketOpen 0;
                 Channel.SocketMessage 0 "snapshotAB"] page).

End Samples.

(* ===================================================================== *)
(** ** Outbound commands, the scenario reset and the status summary *)
(* ===================================================================== *)

Module Page.
Import Wire.

(** The values that the outbound commands carry. *)
Inductive Value := VString (s : string) | VNumber (v : float).

(** [o[k] = v] on an object held as its own properties in insertion
    order: an existing property keeps its place, a new one goes last. *)
Fixpoint setProperty (k : string) (v : Value) (o : list (string * Value))
    : list (string * Value) :=
  match o with
  | [] => [(k, v)]
  | (k', v') :: rest =>
      if decide (k' = k) then (k, v) :: rest
      else (k', v') :: setProperty k v rest
  end.

Fixpoint getProperty (k : string) (o : list (string * Value)) : option Value :=
  match o with
  | [] => None
  | (k', v') :: rest => if decide (k' = k) then Some v' else getProperty k rest
  end.

(** Whether a key is written with decimal digits alone. An object
    lists such keys before its other keys, in numeric order, so the
    insertion order above is the order of an object none of whose keys
    is of this kind. *)
Fixpoint digitsOnly (k : string) : bool :=
  match k with
  | EmptyString => true
  | String c rest =>
      (48 <=? Ascii.nat_of_ascii c)%nat && (Ascii.nat_of_ascii c <=? 57)%nat
      && digitsOnly rest
  end.

(** [{ ...target, ...source }]: the properties of [source], in order,
    assigned onto [target]. *)
Definition spread (target source : list (string * Value))
    : list (string * Value) :=
  foldl (λ o kv, setProperty kv.1 kv.2 o) target source.

(** What [sendMessage] writes to the console. *)
Inductive SendConsoleEntry :=
| WarnNotConnected                    (* console.warn,  sendMessage *)
| ErrorSendFailed.                    (* console.error, sendMessage *)

(** A [.scenario-btn] element: its [data-id] and whether its class list
    has [active]. *)
Record ScenarioButton := mkScenarioButton {
  data_id : string;
  active : bool;
}.

(** The client of the channel module together with what the functions
    below act on: the frames handed to [ws.send] with the socket they
    went to, the console lines of [sendMessage], the scenario buttons,
    and the text of the elements that [setTextContent] looks up by id
    (an id without an entry has no element). *)
Record State := mkState {
  client : Channel.State;
  sent : list (nat * string);
  sendConsole : list SendConsoleEntry;
  scenarioButtons : list ScenarioButton;
  elements : gmap string string;
}.

Definition set_client (f : Channel.State → Channel.State) (st : State) : State :=
  mkState (f (client st)) (sent st) (sendConsole st) (scenarioButtons st)
          (elements st).
Definition set_sent (f : list (nat * string) → list (nat * string))
    (st : State) : State :=
  mkState (client st) (f (sent st)) (sendConsole st) (scenarioButtons st)
          (elements st).
Definition sendConsole_write (e : SendConsoleEntry) (st : State) : State :=
  mkState (client st) (sent st) (sendConsole st ++ [e]) (scenarioButtons st)
          (elements st).
Definition set_scenarioButtons
    (f : list ScenarioButton → list ScenarioButton) (st : State) : State :=
  mkState (client st) (sent st) (sendConsole st) (f (scenarioButtons st))
          (elements st).
Definition set_elements (f : gmap string string → gmap string string)
    (st : State) : State :=
  mkState (client st) (sent st) (sendConsole st) (scenarioButtons st)
          (f (elements st)).

Section WithStringify.

(** [JSON.stringify] on a command object. *)
Variable JSON_stringify : list (string * Value) → string.

(** *** sendMessage and the four commands *)

(** [sendThrows] says whether [ws.send(JSON.stringify(message))]
    raises. *)
Definition sendMessage (sendThrows : bool) (message : list (string * Value))
    (st : State) : bool * State :=
  match Channel.ws (client st), Channel.ws_readyState (client st) with
  | Some k, Some Channel.OPEN =>
      if sendThrows then (false, sendConsole_write ErrorSendFailed st)
      else (true, set_sent (λ fs, fs ++ [(k, JSON_stringify message)]) st)
  | _, _ => (false, sendConsole_write WarnNotConnected st)
  end.

Definition sendCraneControl (sendThrows : bool) (craneId : string)
    (controls : list (string * Value)) (st : State) : bool * State :=
  sendMessage sendThrows
    (spread [("type", VString "control"); ("crane_id", VString craneId)]
            controls) st.

Definition sendScenarioApply (sendThrows : bool) (scenarioId : string)
    (st : State) : bool * State :=
  sendMessage sendThrows
    [("type", VString "scenario"); ("scenario_id", VString scenarioId)] st.

Definition sendStopAll (sendThrows : bool) (st : State) : bool * State :=
  sendMessage sendThrows [("type", VString "stop_all")] st.

Definition sendSimSpeed (sendThrows : bool) (speed : float) (st : State)
    : bool * State :=
  sendMessage sendThrows
    [("type", VString "sim_speed"); ("speed", VNumber speed)] st.

(** *** applyScenario *)

(** The first two statements of [applyScenario]: every group leaves the
    scene, then [craneObjects] is a new empty object. *)
Definition clearCraneObjects (st : Scene.State) : Scene.State :=
  let st :=
    foldl (λ st key,
             match Scene.craneObjects st !! key with
             | Some obj =>
                 Scene.set_scene
                   (THREE.remove (THREE.group_id (Scene.group obj))) st
             | None => st
             end)
          st (map_to_list (Scene.craneObjects st)).*1 in
  Scene.set_craneObjects (λ _, ∅) st.

Definition applyScenario (sendThrows : bool) (scenarioId : string)
    (st : State) : State :=
  let st := set_client (Channel.set_three clearCraneObjects) st in
  let st := (sendScenarioApply sendThrows scenarioId st).2 in
  set_scenarioButtons
    (fmap (λ btn, mkScenarioButton (data_id btn)
                    (bool_decide (data_id btn = scenarioId)))) st.

End WithStringify.

(** *** setTextContent and updateStatusSummary *)

Definition setTextContent (elementId text : string) (st : State) : State :=
  match elements st !! elementId with
  | Some _ => set_elements <[elementId := text]> st
  | None => st
  end.

(** The tally of [updateStatusSummary]: one step of its [forEach] over
    the levels. Only the entries of the four levels are read afterwards;
    under a level that names a property of the prototype the code keeps
    a text where this map keeps a count, and nothing reads it. *)
Definition tally (counts : gmap string nat) (level : string)
    : gmap string nat :=
  <[level := (default 0 (counts !! level) + 1)%nat]> counts.

Definition noCounts : gmap string nat :=
  <["DANGER" := 0%nat]> (<["WARNING" := 0%nat]>
    (<["CAUTION" := 0%nat]> (<["NORMAL" := 0%nat]> ∅))).

Definition updateStatusSummary (state : option Data) (st : State) : State :=
  match state with
  | None => st
  | Some state =>
      match status state with
      | None => st
      | Some status =>
          let cranes := default [] (cranes state) in
          let st := setTextContent "total-cranes" (pretty (length cranes)) st in
          let craneAlerts := default ∅ (crane_alerts status) in
          let counts := foldl tally noCounts (map_to_list craneAlerts).*2 in
          let st := setTextContent "count-normal"
                      (pretty (default 0%nat (counts !! "NORMAL"))) st in
          let st := setTextContent "count-caution"
                      (pretty (default 0%nat (counts !! "CAUTION"))) st in
          let st := setTextContent "count-warning"
                      (pretty (default 0%nat (counts !! "WARNING"))) st in
          setTextContent "count-danger"
            (pretty (default 0%nat (counts !! "DANGER"))) st
      end
  end.

End Page.

(* ===================================================================== *)
(** ** Further notions used in the proofs *)
(* ===================================================================== *)

Module MoreNotions.
Import THREE Wire Scene.

(** The instance number of the root group stored under a key. *)
Definition groupIdOf (st : State) (k : string) : option N :=
  (λ obj, group_id (group obj)) <$> craneObjects st !! k.

Definition isGroupId (st : State) (n : N) : Prop :=
  ∃ k, groupIdOf st k = Some n.
Definition isLineId (st : State) (n : N) : Prop :=
  ∃ line, line ∈ warningLines st ∧ line_id line = n.

(** The scene and the two registries agree: the children of the scene
    are exactly the root groups of the live objects and the lines of the
    overlay, each once; no two keys share a group, no group is a line,
    and the counter is beyond every number in use. *)
Definition accounted (st : State) : Prop :=
  NoDup (scene st)
  ∧ (∀ n, n ∈ scene st → (n < nextObjectId st)%N)
  ∧ (∀ n, n ∈ scene st ↔ isGroupId st n ∨ isLineId st n)
  ∧ (∀ n, isGroupId st n → ¬ isLineId st n)
  ∧ (∀ k1 k2 n, groupIdOf st k1 = Some n → groupIdOf st k2 = Some n → k1 = k2).

(** Objects taken out of a list of children one after the other. *)
Definition removeIds (ids children : list N) : list N :=
  foldl (λ ch g, remove g ch) children ids.

(** The last entity with id [k] in a crane list, [d] if there is none. *)
Definition lastOf (k : string) (d : CraneData) (cranes : list CraneData)
    : CraneData :=
  foldl (λ acc c, if decide (id c = k) then c else acc) d cranes.

(** How many entities of an alert table are at a level. *)
Definition countLevel (level : string) (alerts : gmap string string) : nat :=
  length (filter (λ l, l = level) (map_to_list alerts).*2).

(** What [updateConnectionStatus(true)] leaves in the status element. *)
Definition shownConnected : Channel.StatusElement :=
  Channel.mkStatusElement "연결됨" "status-connected".

(** What the page shows of the data: the scene, the snapshot last
    dispatched, the panels, and the frame last parsed. *)
Definition display (st : Channel.State)
    : Scene.State * option Data * list Data * option Data :=
  (Channel.three st, Channel.currentState st, Channel.panels st,
   Channel.lastData st).

(** [ws] names the socket constructed last, if any was constructed. *)
Definition wsIsNewest (st : Channel.State) : Prop :=
  Channel.ws st = match length (Channel.sockets st) with
                  | O => None
                  | S n => Some n
                  end.

(** The status element, when the page has one, agrees with
    [isConnected]; before the first open, close or error event it may
    still hold what the page was loaded with. *)
Definition statusShown (el0 : option Channel.StatusElement)
    (st : Channel.State) : Prop :=
  match Channel.statusEl st with
  | None => el0 = None
  | Some el =>
      el0 ≠ None
      ∧ if Channel.isConnected st then el = shownConnected
        else el = Channel.shownDisconnected ∨ el0 = Some el
  end.

End MoreNotions.

(* ===================================================================== *)
(** ** Further sample data *)
(* ===================================================================== *)

Module MoreSamples.
Import Wire Samples.

(** Entities A and B with one collision record whose level is not one
    of the four, and a snapshot that lists nothing. *)
Definition snapshotAB_critical : Data :=
  snapshot [craneA; craneB] [pair_AB "CRITICAL"] [].
Definition snapshotNone : Data := snapshot [] [] [].

(** A stand-in for [JSON.stringify] that lists the properties in their
    order and leaves the numbers out. *)
Definition showValue (v : Page.Value) : string :=
  match v with
  | Page.VString text => text
  | Page.VNumber _ => "#"
  end.
Definition showObject (o : list (string * Page.Value)) : string :=
  foldr (λ kv acc, kv.1 +:+ "=" +:+ showValue kv.2 +:+ ";" +:+ acc) "" o.

(** The page around a client: nothing sent yet, two scenario buttons of
    which the first is active, and the summary elements except the
    counter of the NORMAL level. *)
Definition pageOf (c : Channel.State) : Page.State :=
  Page.mkState c [] []
    [Page.mkScenarioButton "basic" true; Page.mkScenarioButton "dense" false]
    (list_to_map [("total-cranes", "-"); ("count-caution", "-");
                  ("count-warning", "-"); ("count-danger", "-")]).

(** One control of the slew slider. *)
Definition slewTo45 : list (string * Page.Value) :=
  [("slew_angle", Page.VNumber 45)].

End MoreSamples.

(* ===================================================================== *)
(** ** Facts about the loop bodies *)
(* ===================================================================== *)

Module PlainFacts.
Import THREE Wire Scene SceneNotions Plain.

(** Writing an object twice for the same alert level leaves only the
    second write visible: poses are assignments and the colour branch is
    chosen by the level alone. *)
Lemma writeCraneObject_absorb d1 d2 a obj :
  writeCraneObject d2 a (writeCraneObject d1 a obj) = writeCraneObject d2 a obj.
Proof.
  unfold writeCraneObject.
  destruct (alerting a) as [l|]; [|reflexivity].
  destruct (decide (l = "DANGER" ∨ l = "WARNING")); reflexivity.
Qed.

Lemma updateStep_lookup d a st k :
  craneObjects (updateStep d a st) !! k =
    if decide (id d = k)
    then writeCraneObject d a <$> craneObjects st !! k
    else craneObjects st !! k.
Proof.
  unfold updateStep.
  destruct (craneObjects st !! id d) as [obj|] eqn:E; simpl.
  - case_decide as Hk.
    + subst k. rewrite lookup_insert_eq, E. reflexivity.
    + rewrite lookup_insert_ne by assumption. reflexivity.
  - case_decide as Hk; [subst k; rewrite E|]; reflexivity.
Qed.

Lemma reconcileStep_lookup alerts st i d k :
  craneObjects (reconcileStep alerts st (i, d)) !! k =
    if decide (id d = k)
    then Some (writeCraneObject d (alerts !! k)
                 (default (buildCraneObject d i (nextObjectId st))
                          (craneObjects st !! k)))
    else craneObjects st !! k.
Proof.
  unfold reconcileStep. rewrite updateStep_lookup.
  case_decide as Hk.
  - subst k. destruct (craneObjects st !! id d) as [obj|] eqn:E; simpl.
    + rewrite E. reflexivity.
    + rewrite lookup_insert_eq. reflexivity.
  - destruct (craneObjects st !! id d) as [obj|] eqn:E; simpl; [reflexivity|].
    rewrite lookup_insert_ne by assumption. reflexivity.
Qed.

Lemma fold_lookup_Some alerts k entries : ∀ st obj,
  craneObjects st !! k = Some obj →
  craneObjects (foldl (reconcileStep alerts) st entries) !! k =
    Some (writes alerts k entries obj).
Proof.
  induction entries as [|[i d] entries IH]; intros st obj Hobj;
    unfold writes; cbn [foldl].
  - assumption.
  - apply IH. rewrite reconcileStep_lookup, Hobj. cbn [default snd].
    case_decide; reflexivity.
Qed.

Lemma fold_lookup_notin alerts k entries : ∀ st,
  k ∉ entryIds entries →
  craneObjects (foldl (reconcileStep alerts) st entries) !! k =
    craneObjects st !! k.
Proof.
  induction entries as [|[i d] entries IH]; intros st Hk; cbn [foldl];
    [reflexivity|].
  unfold entryIds in Hk. rewrite fmap_cons in Hk. cbn [snd] in Hk.
  apply not_elem_of_cons in Hk as [Hne Hk].
  rewrite IH by exact Hk. rewrite reconcileStep_lookup.
  case_decide; congruence.
Qed.

Lemma writes_absorb alerts k entries : ∀ d obj,
  writes alerts k entries (writeCraneObject d (alerts !! k) obj) =
    writeCraneObject (lastEntity k d entries) (alerts !! k) obj.
Proof.
  induction entries as [|[i e] entries IH]; intros d obj;
    unfold writes, lastEntity in *; cbn [foldl snd]; [reflexivity|].
  case_decide.
  - rewrite writeCraneObject_absorb. apply IH.
  - apply IH.
Qed.

Lemma fold_lookup_in alerts k entries : ∀ st,
  k ∈ entryIds entries →
  ∃ base, ∀ d,
    craneObjects (foldl (reconcileStep alerts) st entries) !! k =
      Some (writeCraneObject (lastEntity k d entries) (alerts !! k) base).
Proof.
  induction entries as [|[i e] entries IH]; intros st Hk.
  - unfold entryIds in Hk. simpl in Hk. by apply elem_of_nil in Hk.
  - cbn [foldl]. destruct (decide (id e = k)) as [He|He].
    + exists (default (buildCraneObject e i (nextObjectId st))
                      (craneObjects st !! k)).
      intros d.
      erewrite fold_lookup_Some; last first.
      { rewrite reconcileStep_lookup. case_decide; [reflexivity|congruence]. }
      rewrite writes_absorb. unfold lastEntity. cbn [foldl snd].
      rewrite decide_True by assumption. reflexivity.
    + unfold entryIds in Hk. rewrite fmap_cons in Hk. cbn [snd] in Hk.
      apply elem_of_cons in Hk as [Hk|Hk]; [congruence|].
      destruct (IH (reconcileStep alerts st (i, e)) Hk) as [base Hbase].
      exists base. intros d. rewrite (Hbase d). unfold lastEntity. cbn [foldl snd].
      rewrite decide_False by assumption. reflexivity.
Qed.

(** *** The removal loop *)

Lemma find_id_None (cranes : list CraneData) key :
  find (λ c, bool_decide (id c = key)) cranes = None ↔ key ∉ id <$> cranes.
Proof.
  induction cranes as [|c cranes IH]; cbn [find fmap list_fmap].
  - split; [intros _; apply not_elem_of_nil|reflexivity].
  - rewrite not_elem_of_cons. case_bool_decide as Hc.
    + split; [discriminate|]. intros [Hne _]. congruence.
    + rewrite IH. split; [intros ?; split; congruence|intros [_ ?]; assumption].
Qed.

Lemma removeIfDeleted_lookup cranes st key k :
  craneObjects (removeIfDeleted cranes st key) !! k =
    if decide (key = k ∧ key ∉ id <$> cranes) then None
    else craneObjects st !! k.
Proof.
  unfold removeIfDeleted.
  destruct (find _ cranes) as [c|] eqn:Hfind.
  - rewrite decide_False; [reflexivity|].
    intros [_ Hnot]. apply find_id_None in Hnot. congruence.
  - apply find_id_None in Hfind.
    destruct (craneObjects st !! key) as [obj|] eqn:Hobj; cbn.
    + case_decide as Hk.
      * destruct Hk as [-> _]. apply lookup_delete_eq.
      * rewrite lookup_delete_ne; [reflexivity|]. intros ->. apply Hk. done.
    + case_decide as Hk; [|reflexivity]. destruct Hk as [<- _]. done.
Qed.

Lemma removeDeleted_lookup cranes keys : ∀ st k,
  craneObjects (foldl (removeIfDeleted cranes) st keys) !! k =
    if decide (k ∈ keys ∧ k ∉ id <$> cranes) then None
    else craneObjects st !! k.
Proof.
  induction keys as [|key keys IH]; intros st k; cbn [foldl].
  - rewrite decide_False; [reflexivity|]. intros [H _]. by apply elem_of_nil in H.
  - rewrite IH, removeIfDeleted_lookup.
    destruct (decide (k ∈ keys ∧ k ∉ id <$> cranes)) as [[Hin Hnot]|Hrest].
    + rewrite decide_True; [reflexivity|].
      split; [apply elem_of_cons; by right|done].
    + destruct (decide (key = k ∧ key ∉ id <$> cranes)) as [[-> Hnot]|Hhead].
      * rewrite decide_True; [reflexivity|].
        split; [apply elem_of_cons; by left|done].
      * rewrite decide_False; [reflexivity|].
        intros [Hin Hnot]. apply elem_of_cons in Hin as [->|Hin].
        -- apply Hhead. done.
        -- apply Hrest. done.
Qed.

(** When every key still has its entity, the removal loop changes
    nothing. *)
Lemma removeDeleted_id cranes keys : ∀ st,
  (∀ k, k ∈ keys → k ∈ id <$> cranes) →
  foldl (removeIfDeleted cranes) st keys = st.
Proof.
  induction keys as [|key keys IH]; intros st Hall; cbn [foldl]; [reflexivity|].
  assert (removeIfDeleted cranes st key = st) as ->.
  { unfold removeIfDeleted.
    destruct (find _ cranes) eqn:Hfind; [reflexivity|].
    apply find_id_None in Hfind. exfalso. apply Hfind, Hall, elem_of_cons. by left. }
  apply IH. intros k Hk. apply Hall, elem_of_cons. by right.
Qed.

Lemma removeDeleted_isInitialized cranes keys : ∀ st,
  isInitialized (foldl (removeIfDeleted cranes) st keys) = isInitialized st.
Proof.
  induction keys as [|key keys IH]; intros st; cbn [foldl]; [reflexivity|].
  rewrite IH. unfold removeIfDeleted.
  destruct (find _ cranes); [reflexivity|].
  destruct (craneObjects st !! key); reflexivity.
Qed.

(** *** Fields that the per-entity pass leaves alone *)

Lemma reconcile_isInitialized alerts entries : ∀ st,
  isInitialized (foldl (reconcileStep alerts) st entries) = isInitialized st.
Proof.
  induction entries as [|[i d] entries IH]; intros st; cbn [foldl]; [reflexivity|].
  rewrite IH. unfold reconcileStep, updateStep, createCraneObject.
  destruct (craneObjects st !! id d) as [obj|] eqn:E; cbn.
  - rewrite E. reflexivity.
  - rewrite lookup_insert_eq. reflexivity.
Qed.

Lemma State_eq (s1 s2 : State) :
  isInitialized s1 = isInitialized s2 → scene s1 = scene s2 →
  craneObjects s1 = craneObjects s2 → warningLines s1 = warningLines s2 →
  nextObjectId s1 = nextObjectId s2 → s1 = s2.
Proof. destruct s1, s2; cbn; congruence. Qed.

(** An entity that already has its object is only written to: nothing
    is constructed and nothing is added to the scene. *)
Lemma reconcile_present alerts entries : ∀ st,
  (∀ k, k ∈ entryIds entries → is_Some (craneObjects st !! k)) →
  foldl (reconcileStep alerts) st entries =
    set_craneObjects
      (λ _, craneObjects (foldl (reconcileStep alerts) st entries)) st.
Proof.
  induction entries as [|[i d] entries IH]; intros st Hall; cbn [foldl].
  - destruct st; reflexivity.
  - destruct (Hall (id d)) as [obj Hobj].
    { unfold entryIds. rewrite fmap_cons. apply elem_of_cons. by left. }
    assert (reconcileStep alerts st (i, d) =
            set_craneObjects <[id d := writeCraneObject d (alerts !! id d) obj]> st)
      as Hstep.
    { unfold reconcileStep, updateStep. rewrite Hobj. cbn.
      rewrite Hobj. reflexivity. }
    rewrite IH.
    + rewrite Hstep. apply State_eq; reflexivity.
    + intros k Hk. rewrite reconcileStep_lookup. case_decide; [eauto|].
      apply Hall. unfold entryIds. rewrite fmap_cons. apply elem_of_cons. by right.
Qed.

(** *** [scene.remove] on a list of children *)

Lemma elem_of_remove o x children : x ∈ remove o children → x ∈ children.
Proof.
  induction children as [|c rest IH]; cbn [remove]; [done|].
  case_decide.
  - intros ?. apply elem_of_cons. by right.
  - rewrite !elem_of_cons. intros [->|?]; [by left|right; by apply IH].
Qed.

Lemma NoDup_remove o children : NoDup children → NoDup (remove o children).
Proof.
  induction 1 as [|c rest Hc Hrest IH]; cbn [remove]; [constructor|].
  case_decide; [assumption|].
  constructor; [|assumption]. intros Hin. apply Hc. eapply elem_of_remove, Hin.
Qed.

Lemma remove_gone o children : NoDup children → o ∉ remove o children.
Proof.
  induction 1 as [|c rest Hc Hrest IH]; cbn [remove]; [apply not_elem_of_nil|].
  case_decide as Heq; [by subst c|].
  apply not_elem_of_cons. split; [congruence|assumption].
Qed.

Lemma removeAll_spec ls : ∀ children,
  NoDup children →
  NoDup (removeAll ls children)
  ∧ (∀ x, x ∈ removeAll ls children → x ∈ children)
  ∧ (∀ line, line ∈ ls → line_id line ∉ removeAll ls children).
Proof.
  induction ls as [|l ls IH]; intros children Hnd; unfold removeAll; cbn [foldl].
  - split; [assumption|]. split; [done|]. intros line H. by apply elem_of_nil in H.
  - destruct (IH (remove (line_id l) children) (NoDup_remove _ _ Hnd))
      as (Hnd' & Hsub & Hgone).
    split; [exact Hnd'|]. split.
    + intros x Hx. eapply elem_of_remove, Hsub, Hx.
    + intros line Hline. apply elem_of_cons in Hline as [->|Hline].
      * intros Hin. apply Hsub in Hin.
        exact (remove_gone (line_id l) children Hnd Hin).
      * by apply Hgone.
Qed.

(** *** Instance numbers through the two passes over the entities *)

Lemma remove_comm a b children :
  remove a (remove b children) = remove b (remove a children).
Proof.
  induction children as [|c rest IH]; cbn [remove]; [reflexivity|].
  destruct (decide (c = b)) as [Hb|Hb], (decide (c = a)) as [Ha|Ha];
    cbn [remove].
  - congruence.
  - rewrite decide_True by exact Hb. reflexivity.
  - rewrite decide_True by exact Ha. reflexivity.
  - rewrite decide_False by exact Ha. rewrite decide_False by exact Hb.
    by rewrite IH.
Qed.

Lemma removeIfDeleted_comm cranes st k1 k2 :
  removeIfDeleted cranes (removeIfDeleted cranes st k1) k2 =
    removeIfDeleted cranes (removeIfDeleted cranes st k2) k1.
Proof.
  destruct (decide (k1 = k2)) as [->|Hne]; [reflexivity|].
  unfold removeIfDeleted.
  destruct (find (λ c, bool_decide (id c = k1)) cranes) eqn:E1,
           (find (λ c, bool_decide (id c = k2)) cranes) eqn:E2;
    try reflexivity.
  destruct (craneObjects st !! k1) as [o1|] eqn:H1,
           (craneObjects st !! k2) as [o2|] eqn:H2;
    cbn [craneObjects set_craneObjects set_scene];
    rewrite ?lookup_delete_ne by congruence; rewrite ?H1, ?H2;
    try reflexivity.
  apply State_eq; cbn; [reflexivity|apply remove_comm|apply delete_delete|
                        reflexivity|reflexivity].
Qed.

(** The removal loop gives the same state in whatever order the keys
    are visited, so the order in which [Object.keys] lists them is of no
    consequence. *)
Lemma removeDeleted_Permutation cranes keys keys' :
  keys ≡ₚ keys' → ∀ st,
  foldl (removeIfDeleted cranes) st keys = foldl (removeIfDeleted cranes) st keys'.
Proof.
  induction 1 as [|k l l' _ IH|k1 k2 l|l1 l2 l3 _ IH1 _ IH2]; intros st;
    cbn [foldl].
  - reflexivity.
  - apply IH.
  - by rewrite removeIfDeleted_comm.
  - by rewrite IH1.
Qed.

Lemma updateStep_fields d a st :
  warningLines (updateStep d a st) = warningLines st
  ∧ scene (updateStep d a st) = scene st
  ∧ nextObjectId (updateStep d a st) = nextObjectId st.
Proof.
  unfold updateStep. destruct (craneObjects st !! id d); done.
Qed.

Lemma createCraneObject_fields d i st :
  warningLines (createCraneObject d i st) = warningLines st
  ∧ scene (createCraneObject d i st) = scene st ++ [nextObjectId st]
  ∧ nextObjectId (createCraneObject d i st) = (nextObjectId st + 8)%N.
Proof. done. Qed.

Lemma reconcileStep_fields alerts st i d :
  warningLines (reconcileStep alerts st (i, d)) = warningLines st
  ∧ scene (reconcileStep alerts st (i, d)) =
      match craneObjects st !! id d with
      | Some _ => scene st
      | None => scene st ++ [nextObjectId st]
      end
  ∧ nextObjectId (reconcileStep alerts st (i, d)) =
      match craneObjects st !! id d with
      | Some _ => nextObjectId st
      | None => (nextObjectId st + 8)%N
      end.
Proof.
  unfold reconcileStep.
  match goal with |- context [updateStep ?d ?a ?s] =>
    destruct (updateStep_fields d a s) as (-> & -> & ->) end.
  destruct (craneObjects st !! id d); [done|].
  apply createCraneObject_fields.
Qed.

(** Adding an object with the counter's number, and moving the counter
    past it, keeps the scene tidy. *)
Lemma tidy_add (children : list N) (n m : N) :
  NoDup children → (∀ x, x ∈ children → (x < n)%N) → (n < m)%N →
  NoDup (children ++ [n]) ∧ ∀ x, x ∈ children ++ [n] → (x < m)%N.
Proof.
  intros Hnd Hlt Hnm. split.
  - apply NoDup_app. split; [assumption|]. split; [|apply NoDup_singleton].
    intros x Hin Hin'. apply list_elem_of_singleton in Hin'. subst x.
    apply Hlt in Hin. lia.
  - intros x Hin. apply elem_of_app in Hin as [Hin|Hin].
    + apply Hlt in Hin. lia.
    + apply list_elem_of_singleton in Hin. subst x. exact Hnm.
Qed.

Lemma reconcileStep_tidy alerts st e :
  tidy st →
  tidy (reconcileStep alerts st e)
  ∧ (nextObjectId st ≤ nextObjectId (reconcileStep alerts st e))%N
  ∧ warningLines (reconcileStep alerts st e) = warningLines st.
Proof.
  intros [Hnd Hlt]. destruct e as [i d].
  destruct (reconcileStep_fields alerts st i d) as (Hw & Hs & Hn).
  unfold tidy. rewrite Hw, Hs, Hn.
  destruct (craneObjects st !! id d) as [obj|].
  - repeat split; [assumption|assumption|lia].
  - split; [|split; [lia|reflexivity]].
    apply tidy_add; [assumption|assumption|lia].
Qed.

Lemma reconcile_fold_tidy alerts entries : ∀ st,
  tidy st →
  tidy (foldl (reconcileStep alerts) st entries)
  ∧ (nextObjectId st ≤ nextObjectId (foldl (reconcileStep alerts) st entries))%N
  ∧ warningLines (foldl (reconcileStep alerts) st entries) = warningLines st.
Proof.
  induction entries as [|e entries IH]; intros st Ht; cbn [foldl].
  - repeat split; [apply Ht|apply Ht|lia].
  - destruct (reconcileStep_tidy alerts st e Ht) as (Ht1 & Hle1 & Hw1).
    destruct (IH _ Ht1) as (Ht2 & Hle2 & Hw2).
    split; [exact Ht2|]. split; [lia|congruence].
Qed.

Lemma removeDeleted_tidy cranes keys : ∀ st,
  tidy st →
  tidy (foldl (removeIfDeleted cranes) st keys)
  ∧ nextObjectId (foldl (removeIfDeleted cranes) st keys) = nextObjectId st
  ∧ warningLines (foldl (removeIfDeleted cranes) st keys) = warningLines st.
Proof.
  induction keys as [|key keys IH]; intros st Ht; cbn [foldl]; [done|].
  assert (tidy (removeIfDeleted cranes st key)
          ∧ nextObjectId (removeIfDeleted cranes st key) = nextObjectId st
          ∧ warningLines (removeIfDeleted cranes st key) = warningLines st)
    as (Ht1 & Hn1 & Hw1).
  { unfold removeIfDeleted. destruct (find _ cranes); [done|].
    destruct (craneObjects st !! key) as [obj|]; [|done].
    destruct Ht as [Hnd Hlt]. cbn. repeat split.
    - by apply NoDup_remove.
    - intros n Hn. apply Hlt. eapply elem_of_remove, Hn. }
  destruct (IH _ Ht1) as (Ht2 & Hn2 & Hw2).
  split; [exact Ht2|]. split; congruence.
Qed.

Lemma entryIds_imap (cranes : list CraneData) :
  entryIds (imap pair cranes) = id <$> cranes.
Proof.
  unfold entryIds. rewrite fmap_imap.
  rewrite (imap_ext _ (λ _, id) cranes) by reflexivity.
  apply imap_const.
Qed.

Lemma elem_of_keys (m : gmap string CraneObject) k :
  k ∈ (map_to_list m).*1 ↔ is_Some (m !! k).
Proof.
  rewrite list_elem_of_fmap. split.
  - intros [[k' v] [-> Hin]]. apply elem_of_map_to_list in Hin. eauto.
  - intros [v Hv]. exists (k, v). split; [reflexivity|].
    by apply elem_of_map_to_list.
Qed.

Section WithEngine.

Variable getWorldPosition : Group → Group → Mesh → Vector3.

Abbreviation drawStep := (Plain.drawStep getWorldPosition).

(** *** The overlay pass touches neither the mapping nor the flag *)

Lemma drawStep_craneObjects st c :
  craneObjects (drawStep st c) = craneObjects st
  ∧ isInitialized (drawStep st c) = isInitialized st.
Proof.
  unfold Plain.drawStep. case_decide; [done|].
  destruct (craneObjects st !! crane_a_id c), (craneObjects st !! crane_b_id c);
    done.
Qed.

Lemma draw_fold_craneObjects cs : ∀ st,
  craneObjects (foldl drawStep st cs) = craneObjects st
  ∧ isInitialized (foldl drawStep st cs) = isInitialized st.
Proof.
  induction cs as [|c cs IH]; intros st; cbn [foldl]; [done|].
  destruct (IH (drawStep st c)) as [-> ->].
  apply drawStep_craneObjects.
Qed.

Lemma unscene_fold (ls : list Line) : ∀ st,
  foldl (λ st line, set_scene (remove (line_id line)) st) st ls =
    set_scene (λ children, foldl (λ ch line, remove (line_id line) ch) children ls) st.
Proof.
  induction ls as [|l ls IH]; intros st; cbn [foldl].
  - destruct st; reflexivity.
  - rewrite IH. reflexivity.
Qed.

(** *** What a tick may change in an object that is already there *)

Lemma repaint_self obj :
  ∃ ry rz tc rc ro, obj = repaint ry rz tc rc ro obj.
Proof.
  destruct obj as [g bm mm [bid bname bpos [rx ry rz]] boom
                   [tid tg [tk tc tt to] tp tr ts]
                   [rid rg [rk rc rt ro] rp rr rs] cl c mh bl].
  exists ry, rz, tc, rc, ro. reflexivity.
Qed.

Lemma writeCraneObject_repaint d a obj ry rz tc rc ro :
  ∃ ry' rz' tc' rc' ro',
    writeCraneObject d a (repaint ry rz tc rc ro obj) =
      repaint ry' rz' tc' rc' ro' obj.
Proof.
  unfold writeCraneObject.
  destruct (alerting a) as [l|].
  - destruct (decide (l = "DANGER" ∨ l = "WARNING")).
    + exists (slewRad d), (luffRad d),
        (hexOf (or_default (ALERT_LEVEL_COLORS l) (obj_color obj))),
        (hexOf (or_default (ALERT_LEVEL_COLORS l) (obj_color obj))),
        0.25%float.
      reflexivity.
    + exists (slewRad d), (luffRad d),
        (hexOf (or_default (ALERT_LEVEL_COLORS l) (obj_color obj))),
        rc, ro.
      reflexivity.
  - exists (slewRad d), (luffRad d), 0xffffff%Z, (obj_color obj), 0.15%float.
    reflexivity.
Qed.

Lemma writes_repaint alerts k entries : ∀ obj ry rz tc rc ro,
  ∃ ry' rz' tc' rc' ro',
    writes alerts k entries (repaint ry rz tc rc ro obj) =
      repaint ry' rz' tc' rc' ro' obj.
Proof.
  induction entries as [|[i e] entries IH]; intros obj ry rz tc rc ro;
    unfold writes in *; cbn [foldl snd].
  - exists ry, rz, tc, rc, ro. reflexivity.
  - case_decide; [|apply IH].
    destruct (writeCraneObject_repaint e (alerts !! k) obj ry rz tc rc ro)
      as (ry' & rz' & tc' & rc' & ro' & ->).
    apply IH.
Qed.

(** *** The overlay pass *)

Lemma drawStep_fields st c :
  match drawnIndicator getWorldPosition (craneObjects st) c with
  | Some looks =>
      ∃ line, appearance line = looks ∧ line_id line = nextObjectId st
        ∧ warningLines (drawStep st c) = warningLines st ++ [line]
        ∧ scene (drawStep st c) = scene st ++ [nextObjectId st]
        ∧ nextObjectId (drawStep st c) = (nextObjectId st + 1)%N
  | None => drawStep st c = st
  end.
Proof.
  unfold drawnIndicator, Plain.drawStep.
  case_decide; [reflexivity|].
  destruct (craneObjects st !! crane_a_id c) as [objA|]; [|reflexivity].
  destruct (craneObjects st !! crane_b_id c) as [objB|]; [|reflexivity].
  exists (mkLine (nextObjectId st)
            (SegmentGeometry (tipWorldPosition getWorldPosition objA)
                             (tipWorldPosition getWorldPosition objB))
            (dashed (or_default (ALERT_LEVEL_COLORS (alert_level c)) 0xFFFFFF%Z))).
  done.
Qed.

Lemma draw_fold_lines cs : ∀ st,
  appearance <$> warningLines (foldl drawStep st cs) =
    (appearance <$> warningLines st) ++ omap (drawnIndicator getWorldPosition (craneObjects st)) cs.
Proof.
  induction cs as [|c cs IH]; intros st; cbn [foldl omap list_omap].
  - by rewrite app_nil_r.
  - rewrite IH. destruct (drawStep_craneObjects st c) as [-> _].
    pose proof (drawStep_fields st c) as Hc.
    destruct (drawnIndicator getWorldPosition (craneObjects st) c) as [looks|].
    + destruct Hc as (line & Hlooks & _ & -> & _).
      rewrite fmap_app, <- app_assoc, <- Hlooks. reflexivity.
    + rewrite Hc. reflexivity.
Qed.

Lemma draw_fold_scene_mono cs : ∀ st n,
  n ∈ scene st → n ∈ scene (foldl drawStep st cs).
Proof.
  induction cs as [|c cs IH]; intros st n Hn; cbn [foldl]; [exact Hn|].
  apply IH. pose proof (drawStep_fields st c) as Hc.
  destruct (drawnIndicator getWorldPosition (craneObjects st) c) as [looks|].
  - destruct Hc as (line & _ & _ & _ & -> & _). apply elem_of_app. by left.
  - rewrite Hc. exact Hn.
Qed.

Lemma draw_fold_tidy cs : ∀ st,
  tidy st →
  let st' := foldl drawStep st cs in
  tidy st'
  ∧ (nextObjectId st ≤ nextObjectId st')%N
  ∧ (∀ n, n ∈ scene st' → n ∈ scene st ∨ (nextObjectId st ≤ n)%N)
  ∧ (∀ line, line ∈ warningLines st' →
       line ∈ warningLines st
       ∨ ((nextObjectId st ≤ line_id line < nextObjectId st')%N
          ∧ line_id line ∈ scene st')).
Proof.
  induction cs as [|c cs IH]; intros st Ht; cbn [foldl]; cbv zeta.
  - split; [exact Ht|]. split; [lia|]. split; intros ? ?; by left.
  - pose proof (drawStep_fields st c) as Hc.
    destruct (drawnIndicator getWorldPosition (craneObjects st) c) as [looks|];
      [|rewrite Hc; by apply IH].
    destruct Hc as (line & _ & Hid & Hw & Hs & Hn).
    assert (Ht1 : tidy (drawStep st c)).
    { destruct Ht as [Hnd Hlt]. unfold tidy. rewrite Hs, Hn.
      apply tidy_add; [assumption|assumption|lia]. }
    destruct (IH _ Ht1) as (Ht2 & Hle & Hscene & Hlines). cbv zeta in *.
    split; [exact Ht2|]. split; [lia|]. split.
    + intros n Hin. apply Hscene in Hin as [Hin|Hin]; [|right; lia].
      rewrite Hs in Hin. apply elem_of_app in Hin as [Hin|Hin]; [by left|].
      apply list_elem_of_singleton in Hin. subst n. right. lia.
    + intros l Hl. apply Hlines in Hl as [Hl|[Hrange Hin]].
      * rewrite Hw in Hl. apply elem_of_app in Hl as [Hl|Hl]; [by left|].
        apply list_elem_of_singleton in Hl. subst l. right. split; [lia|].
        apply draw_fold_scene_mono. rewrite Hs, Hid. apply elem_of_app. right.
        by apply list_elem_of_singleton.
      * right. split; [lia|exact Hin].
Qed.

Lemma drawn_is_expected objs c :
  validLevel (alert_level c) →
  drawnIndicator getWorldPosition objs c = expectedIndicator getWorldPosition objs c.
Proof.
  unfold validLevel, drawnIndicator, expectedIndicator, aboveNormal.
  intros Hvalid.
  repeat (apply elem_of_cons in Hvalid as [->|Hvalid]);
    [| | | |by apply elem_of_nil in Hvalid].
  - rewrite decide_True by reflexivity. rewrite decide_False; [reflexivity|].
    intros H. repeat (apply elem_of_cons in H as [H|H]; [discriminate|]).
    by apply elem_of_nil in H.
  - rewrite decide_False by discriminate.
    rewrite decide_True by (apply elem_of_cons; by left).
    destruct (objs !! crane_a_id c), (objs !! crane_b_id c); reflexivity.
  - rewrite decide_False by discriminate.
    rewrite decide_True by (apply elem_of_cons; right; apply elem_of_cons; by left).
    destruct (objs !! crane_a_id c), (objs !! crane_b_id c); reflexivity.
  - rewrite decide_False by discriminate.
    rewrite decide_True
      by (do 2 (apply elem_of_cons; right); apply elem_of_cons; by left).
    destruct (objs !! crane_a_id c), (objs !! crane_b_id c); reflexivity.
Qed.

Lemma omap_drawn_expected objs cs :
  Forall (λ c, validLevel (alert_level c)) cs →
  omap (drawnIndicator getWorldPosition objs) cs = omap (expectedIndicator getWorldPosition objs) cs.
Proof.
  induction 1 as [|c cs Hc _ IH]; cbn [omap list_omap]; [reflexivity|].
  rewrite IH, drawn_is_expected by exact Hc. reflexivity.
Qed.

Lemma cleared_tidy st :
  tidy st →
  tidy (cleared st)
  ∧ (∀ line, line ∈ warningLines st → line_id line ∉ scene (cleared st)).
Proof.
  intros [Hnd Hlt].
  destruct (removeAll_spec (warningLines st) (scene st) Hnd) as (Hnd' & Hsub & Hgone).
  split; [split|]; cbn.
  - exact Hnd'.
  - intros n Hn. apply Hlt, Hsub, Hn.
  - exact Hgone.
Qed.

(** Every state that the module builds from a well-formed one is
    well-formed. *)
End WithEngine.

End PlainFacts.
(* ===================================================================== *)
(** ** Facts about the scene module *)
(* ===================================================================== *)

Module SceneFacts.
Import THREE Wire Scene SceneNotions PlainFacts.

(** *** A loop up to its first exception *)

Lemma before_all {A} (stop : A → bool) (l : list A) :
  existsb stop l = false → before stop l = l.
Proof.
  induction l as [|a l IH]; cbn [existsb before]; [reflexivity|].
  destruct (stop a); cbn [orb]; [discriminate|]. intros H. by rewrite IH.
Qed.

Lemma before_ext {A} (stop stop' : A → bool) (l : list A) :
  (∀ a, stop a = stop' a) →
  before stop l = before stop' l ∧ existsb stop l = existsb stop' l.
Proof.
  intros Hext. induction l as [|a l [IH1 IH2]]; cbn [existsb before]; [done|].
  rewrite <- Hext, IH1, IH2. done.
Qed.

Lemma existsb_false_Forall {A} (stop : A → bool) (l : list A) :
  Forall (λ a, stop a = false) l → existsb stop l = false.
Proof.
  induction 1 as [|a l Ha _ IH]; cbn [existsb]; [reflexivity|].
  by rewrite Ha, IH.
Qed.

(** A [forEach] whose callback raises exactly at the elements that
    [stop] marks, and otherwise does what [plain] does, gets through the
    elements before the first marked one. *)
Lemma forEach_before {A} (I : State → Prop) (callback : State → A → Outcome)
    (plain : State → A → State) (stop : A → bool) :
  (∀ st a, I st →
     callback st a = if stop a then throws st else returns (plain st a)) →
  (∀ st a, I st → stop a = false → I (plain st a)) →
  ∀ l st, I st →
    forEach callback st l =
      mkOutcome (foldl plain st (before stop l)) (existsb stop l).
Proof.
  intros Hcall Hkeep. induction l as [|a l IH]; intros st HI;
    cbn [forEach before existsb foldl]; [reflexivity|].
  rewrite Hcall by exact HI.
  destruct (stop a) eqn:Ha; cbn [threw after throws returns orb foldl];
    [reflexivity|].
  apply IH, Hkeep; assumption.
Qed.

(** *** The callbacks and the loop bodies *)

Lemma inheritedAlerts_lookup k :
  inheritedAlerts !! k =
    if decide (JS.inherited k) then Some (JS.inheritedText k) else None.
Proof.
  destruct (decide (JS.inherited k)) as [Hk|Hk].
  - unfold JS.inherited, JS.prototypeNames in Hk.
    repeat (apply elem_of_cons in Hk as [->|Hk]);
      [..|by apply elem_of_nil in Hk]; vm_compute; reflexivity.
  - apply not_elem_of_list_to_map_1. intros Hin.
    apply list_elem_of_fmap in Hin as ([k' t] & -> & Hin).
    apply list_elem_of_fmap in Hin as (k'' & [= -> ->] & Hin).
    exact (Hk Hin).
Qed.

Lemma effectiveAlerts_lookup alerts k :
  effectiveAlerts alerts !! k = alertLevelOf alerts k.
Proof.
  unfold effectiveAlerts, alertLevelOf, JS.get.
  rewrite lookup_union, inheritedAlerts_lookup.
  destruct (alerts !! k) as [level|]; [by destruct (decide (JS.inherited k))|].
  by destruct (decide (JS.inherited k)).
Qed.

Lemma effectiveAlerts_own alerts k :
  ¬ JS.inherited k → effectiveAlerts alerts !! k = alerts !! k.
Proof.
  intros Hk. rewrite effectiveAlerts_lookup. unfold alertLevelOf, JS.get.
  destruct (alerts !! k); [reflexivity|]. by rewrite decide_False.
Qed.

Lemma meetsInherited_Some (objs : gmap string CraneObject) k :
  is_Some (objs !! k) → meetsInherited objs k = false.
Proof.
  intros [obj Hobj]. unfold meetsInherited. apply bool_decide_eq_false.
  intros [Hnone _]. congruence.
Qed.

Lemma meetsInherited_own (objs : gmap string CraneObject) k :
  ¬ JS.inherited k → meetsInherited objs k = false.
Proof.
  intros Hk. unfold meetsInherited. apply bool_decide_eq_false.
  intros [_ Hin]. exact (Hk Hin).
Qed.

Lemma get_cases {A} (own : option A) k :
  JS.get own k =
    match own with
    | Some a => JS.Own a
    | None => if bool_decide (JS.inherited k) then JS.Inherited else JS.Absent
    end.
Proof.
  unfold JS.get. destruct own; [reflexivity|].
  destruct (decide (JS.inherited k)) as [H|H].
  - by rewrite bool_decide_true.
  - by rewrite bool_decide_false.
Qed.

Lemma meetsInherited_None (objs : gmap string CraneObject) k :
  objs !! k = None → meetsInherited objs k = bool_decide (JS.inherited k).
Proof.
  intros Hnone. unfold meetsInherited. apply bool_decide_ext.
  split; [by intros [_ ?]|by intros ?].
Qed.

(** What [updateCraneObject] leaves, and when it raises. *)
Lemma updateCraneObject_spec d a st :
  Scene.updateCraneObject d a st =
    mkOutcome (Plain.updateStep d a st)
              (meetsInherited (craneObjects st) (id d)).
Proof.
  unfold Scene.updateCraneObject, Plain.updateStep.
  rewrite get_cases.
  destruct (craneObjects st !! id d) as [obj|] eqn:E.
  - rewrite meetsInherited_Some by eauto. reflexivity.
  - rewrite meetsInherited_None by exact E.
    destruct (bool_decide (JS.inherited (id d))); reflexivity.
Qed.

(** The callback of the loop over the cranes raises exactly when the
    lookup under the entry's id finds an inherited value, and then has
    written nothing. *)
Lemma reconcileCrane_spec alerts st i d :
  Scene.reconcileCrane alerts st (i, d) =
    if meetsInherited (craneObjects st) (id d) then throws st
    else returns (Plain.reconcileStep (effectiveAlerts alerts) st (i, d)).
Proof.
  unfold Scene.reconcileCrane, Plain.reconcileStep.
  rewrite effectiveAlerts_lookup, get_cases, updateCraneObject_spec.
  destruct (craneObjects st !! id d) as [obj|] eqn:E.
  - rewrite meetsInherited_Some by eauto. reflexivity.
  - rewrite (meetsInherited_None _ _ E).
    destruct (bool_decide (JS.inherited (id d))) eqn:Hin.
    + rewrite meetsInherited_None by exact E. rewrite Hin.
      unfold Plain.updateStep. rewrite E. reflexivity.
    + rewrite meetsInherited_Some; [reflexivity|].
      cbn. rewrite lookup_insert_eq. eauto.
Qed.

Lemma plain_step_meets alerts objs0 st e k :
  (∀ k, meetsInherited (craneObjects st) k = meetsInherited objs0 k) →
  meetsInherited objs0 (id e.2) = false →
  meetsInherited (craneObjects (Plain.reconcileStep alerts st e)) k
  = meetsInherited objs0 k.
Proof.
  intros HI Hstop. destruct e as [i d]. cbn [snd] in Hstop.
  destruct (decide (id d = k)) as [<-|Hne].
  - rewrite Hstop. apply meetsInherited_Some.
    rewrite reconcileStep_lookup, decide_True by reflexivity. eauto.
  - rewrite <- HI. unfold meetsInherited.
    rewrite reconcileStep_lookup, decide_False by exact Hne. reflexivity.
Qed.

(** The loop over the cranes: the entries before the first one whose id
    finds an inherited value are reconciled, and no later one. *)
Lemma entityLoop_spec alerts entries st :
  forEach (Scene.reconcileCrane alerts) st entries =
    mkOutcome
      (foldl (Plain.reconcileStep (effectiveAlerts alerts)) st
         (before (λ e, meetsInherited (craneObjects st) (id e.2)) entries))
      (existsb (λ e, meetsInherited (craneObjects st) (id e.2)) entries).
Proof.
  apply (forEach_before
           (λ st', ∀ k, meetsInherited (craneObjects st') k
                        = meetsInherited (craneObjects st) k)).
  - intros st' [i d] HI. rewrite reconcileCrane_spec, HI. reflexivity.
  - intros st' e HI Hstop k. by apply plain_step_meets.
  - reflexivity.
Qed.

(** Along the entries that the loop gets through, the lookups that find
    an inherited value stay the same. *)
Lemma reached_meets alerts objs0 entries : ∀ st k,
  (∀ k, meetsInherited (craneObjects st) k = meetsInherited objs0 k) →
  meetsInherited
    (craneObjects
       (foldl (Plain.reconcileStep alerts) st
          (before (λ e, meetsInherited objs0 (id e.2)) entries))) k
  = meetsInherited objs0 k.
Proof.
  induction entries as [|e entries IH]; intros st k HI; cbn [before foldl].
  - apply HI.
  - destruct (meetsInherited objs0 (id e.2)) eqn:Hstop; cbn [foldl]; [apply HI|].
    apply IH. intros k'. by apply plain_step_meets.
Qed.

Section WithEngine.

Variable getWorldPosition : Group → Group → Mesh → Vector3.

Abbreviation updateThreeScene := (Scene.updateThreeScene getWorldPosition).
Abbreviation updateWarningLines := (Scene.updateWarningLines getWorldPosition).
Abbreviation drawWarningLine := (Scene.drawWarningLine getWorldPosition).
Abbreviation drawStep := (Plain.drawStep getWorldPosition).

(** The callback of the overlay pass raises exactly at the records that
    [raisesOn] marks, and then has drawn nothing. *)
Lemma drawWarningLine_spec st c :
  drawWarningLine st c =
    if raisesOn (craneObjects st) c then throws st
    else returns (drawStep st c).
Proof.
  unfold Scene.drawWarningLine, Plain.drawStep, raisesOn.
  destruct (decide (alert_level c = "NORMAL")); [reflexivity|].
  rewrite !get_cases.
  destruct (craneObjects st !! crane_a_id c) as [objA|],
           (craneObjects st !! crane_b_id c) as [objB|];
    repeat match goal with
           | |- context [bool_decide ?P] => destruct (bool_decide P)
           end; reflexivity.
Qed.

Lemma overlayLoop_spec cs st :
  forEach drawWarningLine st cs =
    mkOutcome (foldl drawStep st (drawnRecords (craneObjects st) cs))
              (existsb (raisesOn (craneObjects st)) cs).
Proof.
  apply (forEach_before (λ st', craneObjects st' = craneObjects st)).
  - intros st' c HI. rewrite drawWarningLine_spec, HI. reflexivity.
  - intros st' c HI _.
    destruct (drawStep_craneObjects getWorldPosition st' c) as [-> _].
    exact HI.
  - reflexivity.
Qed.

Lemma updateWarningLines_spec cs st :
  updateWarningLines (Some cs) st =
    mkOutcome (foldl drawStep (cleared st) (drawnRecords (craneObjects st) cs))
              (existsb (raisesOn (craneObjects st)) cs).
Proof.
  unfold Scene.updateWarningLines. rewrite unscene_fold, overlayLoop_spec.
  reflexivity.
Qed.

(** The overlay pass touches neither the mapping nor the flag, whether
    it raises or not. *)
Lemma updateWarningLines_craneObjects cs st :
  craneObjects (updateWarningLines cs st) = craneObjects st
  ∧ isInitialized (updateWarningLines cs st) = isInitialized st.
Proof.
  destruct cs as [cs|].
  - rewrite updateWarningLines_spec. cbn [after].
    destruct (draw_fold_craneObjects getWorldPosition
                (drawnRecords (craneObjects st) cs) (cleared st)) as [-> ->].
    done.
  - unfold Scene.updateWarningLines. rewrite unscene_fold. done.
Qed.

(** *** One tick *)

(** A tick on an initialised scene: when the loop over the cranes
    raises, the tick ends there; otherwise the removal loop and the
    overlay pass follow. *)
Lemma tick_spec state st :
  isInitialized st = true →
  updateThreeScene (Some state) st =
    if entitiesRaise state st then throws (entityPass state st)
    else updateWarningLines (Some (default [] (collisions state)))
                            (afterEntities state st).
Proof.
  intros Hinit. unfold Scene.updateThreeScene. rewrite Hinit. cbn [negb].
  cbv zeta. rewrite entityLoop_spec. cbn [threw after].
  fold (tickEntries state).
  change (existsb _ (tickEntries state)) with (entitiesRaise state st).
  destruct (entitiesRaise state st); reflexivity.
Qed.

Lemma entityPass_all state st :
  entitiesRaise state st = false →
  entityPass state st =
    foldl (Plain.reconcileStep (tickAlerts state)) st (tickEntries state).
Proof.
  intros Hno. unfold entityPass, reachedEntries. by rewrite before_all.
Qed.

Lemma ownNamesOnly_no_raise state st :
  ownNamesOnly (tickIds state) → entitiesRaise state st = false.
Proof.
  unfold ownNamesOnly, tickIds, entitiesRaise, tickEntries. intros Hown.
  apply existsb_false_Forall. apply Forall_forall. intros [i d] Hin.
  cbn [snd]. apply meetsInherited_own.
  rewrite Forall_forall in Hown. apply Hown.
  apply elem_of_lookup_imap in Hin as (j & d' & [= <- <-] & Hd).
  apply list_elem_of_fmap. exists d. split; [reflexivity|].
  eapply list_elem_of_lookup_2, Hd.
Qed.

Lemma entityPass_isInitialized state st :
  isInitialized (entityPass state st) = isInitialized st.
Proof. unfold entityPass. apply reconcile_isInitialized. Qed.

Lemma afterEntities_isInitialized state st :
  isInitialized (afterEntities state st) = isInitialized st.
Proof.
  unfold afterEntities.
  rewrite removeDeleted_isInitialized. apply entityPass_isInitialized.
Qed.

Lemma tick_isInitialized state st :
  isInitialized (updateThreeScene state st) = isInitialized st.
Proof.
  destruct state as [state|]; [|reflexivity].
  destruct (isInitialized st) eqn:Hinit.
  - rewrite tick_spec by exact Hinit.
    destruct (entitiesRaise state st); cbn [after throws].
    + rewrite entityPass_isInitialized. exact Hinit.
    + match goal with |- isInitialized (after (Scene.updateWarningLines _ ?c ?s)) = _ =>
        destruct (updateWarningLines_craneObjects c s) as [_ ->] end.
      rewrite afterEntities_isInitialized. exact Hinit.
  - unfold Scene.updateThreeScene. rewrite Hinit. exact Hinit.
Qed.

(** The mapping when the loop over the cranes raised: the entries
    reached are reconciled, and nothing is removed. *)
Lemma tick_raised state st :
  isInitialized st = true → entitiesRaise state st = true →
  updateThreeScene (Some state) st = throws (entityPass state st).
Proof. intros Hinit Hraise. by rewrite tick_spec, Hraise. Qed.

(** The mapping when it did not. *)
Lemma tick_lookup state st k :
  isInitialized st = true → entitiesRaise state st = false →
  craneObjects (updateThreeScene (Some state) st) !! k =
    if decide (k ∈ tickIds state)
    then craneObjects
           (foldl (Plain.reconcileStep (tickAlerts state)) st (tickEntries state)) !! k
    else None.
Proof.
  intros Hinit Hno. rewrite tick_spec, Hno by exact Hinit.
  match goal with |- craneObjects (after (Scene.updateWarningLines _ ?c ?s)) !! _ = _ =>
    destruct (updateWarningLines_craneObjects c s) as [-> _] end.
  unfold afterEntities. rewrite entityPass_all by exact Hno.
  rewrite removeDeleted_lookup. fold (tickIds state).
  destruct (decide (k ∈ tickIds state)) as [Hin|Hnot].
  - rewrite decide_False; [reflexivity|]. intros [_ ?]. done.
  - case_decide as Hk; [reflexivity|].
    destruct (craneObjects (foldl _ st (tickEntries state)) !! k) eqn:E;
      [|reflexivity].
    exfalso. apply Hk. split; [|exact Hnot]. apply elem_of_keys. eauto.
Qed.

Lemma tickIds_inhabited state k :
  k ∈ tickIds state → ∃ d : CraneData, id d = k.
Proof.
  unfold tickIds. rewrite list_elem_of_fmap. intros [d [-> _]]. eauto.
Qed.

Lemma tick_lookup_in state st k :
  isInitialized st = true → entitiesRaise state st = false →
  k ∈ tickIds state →
  ∃ base, ∀ d,
    craneObjects (updateThreeScene (Some state) st) !! k =
      Some (writeCraneObject (lastEntity k d (tickEntries state))
              (tickAlerts state !! k) base).
Proof.
  intros Hinit Hno Hk.
  destruct (fold_lookup_in (tickAlerts state) k (tickEntries state) st) as [base Hb].
  { unfold tickEntries. rewrite entryIds_imap. exact Hk. }
  exists base. intros d. rewrite tick_lookup, decide_True by assumption.
  apply Hb.
Qed.

(** Reconciling the same entries once more changes nothing. *)
Lemma reconcile_fold_settled alerts entries st :
  let st1 := foldl (Plain.reconcileStep alerts) st entries in
  foldl (Plain.reconcileStep alerts) st1 entries = st1.
Proof.
  intros st1.
  assert (Hin : ∀ k, k ∈ entryIds entries →
            ∃ base, ∀ d, craneObjects st1 !! k =
              Some (writeCraneObject (lastEntity k d entries) (alerts !! k) base))
    by (intros k Hk; by apply fold_lookup_in).
  clearbody st1.
  assert (Hsome : ∀ k, k ∈ entryIds entries → is_Some (craneObjects st1 !! k)).
  { intros k Hk. destruct (Hin k Hk) as [base Hb].
    assert (∃ d : CraneData, id d = k) as [d0 _].
    { unfold entryIds in Hk. apply list_elem_of_fmap in Hk as [e [-> _]]. eauto. }
    rewrite (Hb d0). eauto. }
  rewrite reconcile_present by exact Hsome.
  apply State_eq; try reflexivity.
  unfold set_craneObjects. cbn [craneObjects].
  apply map_eq. intros k.
  destruct (decide (k ∈ entryIds entries)) as [Hk|Hk].
  - destruct (Hin k Hk) as [base Hb].
    assert (∃ d : CraneData, id d = k) as [d0 _].
    { unfold entryIds in Hk. apply list_elem_of_fmap in Hk as [e [-> _]]. eauto. }
    erewrite fold_lookup_Some by apply (Hb d0).
    rewrite writes_absorb.
    rewrite (Hb (lastEntity k d0 entries)). reflexivity.
  - by rewrite fold_lookup_notin.
Qed.

(** After a tick that got through the cranes, another pass over the
    same entities gets through them too, finds every object in place and
    already written, and removes nothing. *)
Lemma tick_settled state st :
  isInitialized st = true → entitiesRaise state st = false →
  entitiesRaise state (updateThreeScene (Some state) st) = false
  ∧ afterEntities state (updateThreeScene (Some state) st)
    = after (updateThreeScene (Some state) st).
Proof.
  intros Hinit Hno.
  set (st1 := after (updateThreeScene (Some state) st)).
  assert (Hin : ∀ k, k ∈ tickIds state →
            ∃ base, ∀ d, craneObjects st1 !! k =
              Some (writeCraneObject (lastEntity k d (tickEntries state))
                      (tickAlerts state !! k) base))
    by (intros k Hk; apply tick_lookup_in; assumption).
  assert (Hout : ∀ k, k ∉ tickIds state → craneObjects st1 !! k = None).
  { intros k Hk. unfold st1. rewrite tick_lookup by assumption.
    apply decide_False. exact Hk. }
  clearbody st1.
  assert (Hsome : ∀ k, k ∈ entryIds (tickEntries state) →
                       is_Some (craneObjects st1 !! k)).
  { intros k Hk. unfold tickEntries in Hk. rewrite entryIds_imap in Hk.
    destruct (Hin k Hk) as [base Hb].
    destruct (tickIds_inhabited state k Hk) as [d0 _].
    rewrite (Hb d0). eauto. }
  assert (Hno1 : entitiesRaise state st1 = false).
  { unfold entitiesRaise. apply existsb_false_Forall, Forall_forall.
    intros e He. apply meetsInherited_Some, Hsome.
    unfold entryIds. apply list_elem_of_fmap. by exists e. }
  split; [exact Hno1|].
  assert (Hfix : foldl (Plain.reconcileStep (tickAlerts state)) st1
                       (tickEntries state) = st1).
  { rewrite reconcile_present by exact Hsome.
    apply State_eq; try reflexivity.
    unfold set_craneObjects. cbn [craneObjects].
    apply map_eq. intros k.
    destruct (decide (k ∈ tickIds state)) as [Hk|Hk].
    - destruct (Hin k Hk) as [base Hb].
      destruct (tickIds_inhabited state k Hk) as [d0 _].
      erewrite fold_lookup_Some by apply (Hb d0).
      rewrite writes_absorb.
      rewrite (Hb (lastEntity k d0 (tickEntries state))). reflexivity.
    - rewrite fold_lookup_notin; [reflexivity|].
      unfold tickEntries. rewrite entryIds_imap. exact Hk. }
  unfold afterEntities. rewrite entityPass_all by exact Hno1.
  rewrite Hfix. apply removeDeleted_id.
  intros k Hk. apply elem_of_keys in Hk as [obj Hobj].
  destruct (decide (k ∈ tickIds state)) as [Hin'|Hnot]; [exact Hin'|].
  rewrite Hout in Hobj by exact Hnot. discriminate.
Qed.

(** After a tick in which the loop over the cranes raised, the loop
    raises again at the same entry and has nothing left to write. *)
Lemma tick_raised_settled state st :
  entitiesRaise state st = true →
  entitiesRaise state (entityPass state st) = true
  ∧ entityPass state (entityPass state st) = entityPass state st.
Proof.
  intros Hraise.
  assert (Hmeets : ∀ k, meetsInherited (craneObjects (entityPass state st)) k
                        = meetsInherited (craneObjects st) k).
  { intros k. unfold entityPass, reachedEntries. by apply reached_meets. }
  destruct (before_ext
              (λ e, meetsInherited (craneObjects (entityPass state st)) (id e.2))
              (λ e, meetsInherited (craneObjects st) (id e.2))
              (tickEntries state)) as [Hbefore Hexists].
  { intros e. apply Hmeets. }
  split.
  - unfold entitiesRaise at 1. rewrite Hexists. exact Hraise.
  - unfold entityPass at 1, reachedEntries at 1. rewrite Hbefore.
    unfold entityPass, reachedEntries. apply reconcile_fold_settled.
Qed.

(** C1, as amended. After [updateThreeScene] has processed, on an
    initialised scene, a snapshot none of whose entity ids names a
    property of the prototype, the keys of [craneObjects] are exactly the
    entity ids of that snapshot's crane list. Reconciling a snapshot [s1]
    and then such a snapshot [s2] therefore leaves exactly the ids of
    [s2], whatever [s1] was, and when the two id sets are disjoint no id
    of [s1] is left in the mapping. *)
Theorem C1_live_ids_are_snapshot_ids (st : State) (s1 s2 : Data) :
  isInitialized st = true →
  ownNamesOnly (id <$> default [] (cranes s2)) →
  let st1 := updateThreeScene (Some s1) st in
  let st2 := updateThreeScene (Some s2) st1 in
  (ownNamesOnly (id <$> default [] (cranes s1)) →
   dom (craneObjects st1) =@{gset string} list_to_set (id <$> default [] (cranes s1)))
  ∧ dom (craneObjects st2) =@{gset string} list_to_set (id <$> default [] (cranes s2))
  ∧ ((∀ k, k ∈ id <$> default [] (cranes s1) →
           k ∉ id <$> default [] (cranes s2)) →
     ∀ k, k ∈ id <$> default [] (cranes s1) → craneObjects st2 !! k = None).
Proof.
  intros Hinit Hown2 st1 st2.
  assert (Hdom : ∀ s st0, isInitialized st0 = true →
            ownNamesOnly (id <$> default [] (cranes s)) →
            dom (craneObjects (updateThreeScene (Some s) st0))
            =@{gset string} list_to_set (id <$> default [] (cranes s))).
  { intros s st0 H0 Hown.
    pose proof (ownNamesOnly_no_raise s st0 Hown) as Hno.
    apply set_eq. intros k.
    rewrite elem_of_dom, elem_of_list_to_set. split.
    - intros [obj Hobj]. rewrite tick_lookup in Hobj by assumption.
      case_decide; [assumption|discriminate].
    - intros Hk. destruct (tick_lookup_in s st0 k H0 Hno Hk) as [base Hb].
      destruct (tickIds_inhabited s k Hk) as [d0 _].
      rewrite (Hb d0). eauto. }
  assert (Hinit1 : isInitialized st1 = true).
  { unfold st1. rewrite tick_isInitialized. exact Hinit. }
  split; [intros Hown1; apply Hdom; assumption|].
  split; [apply Hdom; assumption|].
  intros Hdisj k Hk. unfold st2.
  rewrite tick_lookup;
    [|exact Hinit1|apply ownNamesOnly_no_raise; exact Hown2].
  rewrite decide_False; [reflexivity|]. apply Hdisj, Hk.
Qed.

(** C2. Reconciling the same snapshot twice in a row, from any state,
    gives the mapping that reconciling it once gives: the same ids, and
    for every id the same object with the same boom rotations and the
    same colours. The second run constructs no visual object and removes
    none. When the first run got through the cranes, the second is
    exactly the rebuild of the overlay; when the first run was stopped
    by an exception among the cranes, the second is stopped at the same
    place and leaves every variable as it was. The second run ends by an
    exception exactly if the first did. *)
Theorem C2_reconcile_twice_is_reconcile_once (state : option Data) (st : State) :
  let st1 := updateThreeScene state st in
  let st2 := updateThreeScene state st1 in
  craneObjects st2 = craneObjects st1
  ∧ dom (craneObjects st2) =@{gset string} dom (craneObjects st1)
  ∧ threw st2 = threw st1
  ∧ st2 = match state with
          | Some s =>
              if isInitialized st
              then
                if threw (forEach
                            (reconcileCrane (default ∅ (status s ≫= crane_alerts)))
                            st (imap pair (default [] (cranes s))))
                then throws st1
                else updateWarningLines (Some (default [] (collisions s))) st1
              else returns st1
          | None => returns st1
          end.
Proof.
  intros st1 st2.
  destruct state as [s|]; [|by repeat split].
  destruct (isInitialized st) eqn:Hinit.
  2:{ assert (Hst1 : updateThreeScene (Some s) st = returns st)
        by (unfold Scene.updateThreeScene; rewrite Hinit; reflexivity).
      assert (Hst2 : st2 = returns st1).
      { unfold st2, st1. rewrite Hst1. cbn [after returns]. exact Hst1. }
      rewrite Hst2. unfold st1. rewrite Hst1. by repeat split. }
  rewrite entityLoop_spec. cbn [threw]. fold (tickEntries s).
  change (existsb _ (tickEntries s)) with (entitiesRaise s st).
  assert (Hinit1 : isInitialized st1 = true)
    by (unfold st1; rewrite tick_isInitialized; exact Hinit).
  destruct (entitiesRaise s st) eqn:Hraise.
  - assert (Hst1 : updateThreeScene (Some s) st = throws (entityPass s st))
      by (by apply tick_raised).
    destruct (tick_raised_settled s st Hraise) as [Hraise1 Hfix].
    assert (Hst2 : st2 = throws st1).
    { unfold st2. rewrite tick_spec by exact Hinit1.
      unfold st1. rewrite Hst1. cbn [after throws].
      rewrite Hraise1, Hfix. reflexivity. }
    rewrite Hst2. unfold st1. rewrite Hst1. cbn [after throws threw].
    by repeat split.
  - destruct (tick_settled s st Hinit Hraise) as [Hraise1 Hfix].
    fold st1 in Hraise1, Hfix.
    assert (Hst2 : st2 = updateWarningLines (Some (default [] (collisions s))) st1).
    { unfold st2. rewrite tick_spec by exact Hinit1.
      rewrite Hraise1, Hfix. reflexivity. }
    assert (Hobjs : craneObjects st2 = craneObjects st1).
    { rewrite Hst2. apply updateWarningLines_craneObjects. }
    split; [exact Hobjs|]. split; [by rewrite Hobjs|].
    split; [|exact Hst2].
    rewrite Hst2, updateWarningLines_spec. cbn [threw].
    unfold st1. rewrite tick_spec, Hraise by exact Hinit.
    rewrite updateWarningLines_spec. cbn [threw after].
    destruct (draw_fold_craneObjects getWorldPosition
                (drawnRecords (craneObjects (afterEntities s st))
                   (default [] (collisions s)))
                (cleared (afterEntities s st))) as [-> _].
    reflexivity.
Qed.

(** C10. An entity that already has a visual object keeps, through any
    later snapshot that still lists it, the object's root group (its
    placement computed from [base_x], [base_y] at creation), every
    geometry and every other field: whatever [base_x], [base_y],
    [mast_height] and [boom_length] the snapshot carries, the tick writes
    only the two boom rotations, the tip colour and the colour and
    opacity of the working-radius ring. *)
Theorem C10_update_keeps_placement_and_geometry
    (state : Data) (st : State) (k : string) (obj : CraneObject) :
  craneObjects st !! k = Some obj →
  k ∈ id <$> default [] (cranes state) →
  ∃ ry rz tipColor radiusColor radiusOpacity,
    craneObjects (updateThreeScene (Some state) st) !! k =
      Some (repaint ry rz tipColor radiusColor radiusOpacity obj)
    ∧ group (repaint ry rz tipColor radiusColor radiusOpacity obj) = group obj.
Proof.
  intros Hobj Hk.
  assert (Hwritten : ∀ entries,
            ∃ ry rz tc rc ro,
              craneObjects
                (foldl (Plain.reconcileStep (tickAlerts state)) st entries) !! k
              = Some (repaint ry rz tc rc ro obj)).
  { intros entries. erewrite fold_lookup_Some by exact Hobj.
    destruct (repaint_self obj) as (ry & rz & tc & rc & ro & Hself).
    destruct (writes_repaint (tickAlerts state) k entries obj ry rz tc rc ro)
      as (ry' & rz' & tc' & rc' & ro' & Hw).
    rewrite <- Hself in Hw. exists ry', rz', tc', rc', ro'. by rewrite Hw. }
  destruct (isInitialized st) eqn:Hinit.
  - destruct (entitiesRaise state st) eqn:Hraise.
    + rewrite tick_raised by assumption. cbn [after throws].
      destruct (Hwritten (reachedEntries state st))
        as (ry & rz & tc & rc & ro & Hw).
      exists ry, rz, tc, rc, ro. split; [exact Hw|reflexivity].
    + rewrite tick_lookup by assumption.
      rewrite decide_True by exact Hk.
      destruct (Hwritten (tickEntries state)) as (ry & rz & tc & rc & ro & Hw).
      exists ry, rz, tc, rc, ro. split; [exact Hw|reflexivity].
  - unfold Scene.updateThreeScene. rewrite Hinit. cbn [negb after returns].
    destruct (repaint_self obj) as (ry & rz & tc & rc & ro & Hself).
    exists ry, rz, tc, rc, ro. rewrite <- Hself. split; [exact Hobj|reflexivity].
Qed.

(** *** The overlay pass *)

Lemma raisesOn_own (objs : gmap string CraneObject) c :
  ¬ JS.inherited (crane_a_id c) → ¬ JS.inherited (crane_b_id c) →
  raisesOn objs c = false.
Proof.
  intros Ha Hb. unfold raisesOn.
  destruct (decide (alert_level c = "NORMAL")); [reflexivity|].
  rewrite !get_cases.
  rewrite (bool_decide_false _ Ha), (bool_decide_false _ Hb).
  destruct (objs !! crane_a_id c), (objs !! crane_b_id c); reflexivity.
Qed.

(** The tick that no exception stops. *)
Lemma tick_unfold state st :
  isInitialized st = true →
  entitiesRaise state st = false →
  Forall (λ c, raisesOn (craneObjects (afterEntities state st)) c = false)
         (default [] (collisions state)) →
  updateThreeScene (Some state) st =
    returns (foldl drawStep (cleared (afterEntities state st))
                   (default [] (collisions state))).
Proof.
  intros Hinit Hno Hcs. rewrite tick_spec, Hno by exact Hinit.
  rewrite updateWarningLines_spec. unfold drawnRecords.
  pose proof (existsb_false_Forall _ _ Hcs) as Hex.
  rewrite before_all by exact Hex. rewrite Hex. reflexivity.
Qed.

Lemma entityPass_tidy state st :
  tidy st →
  tidy (entityPass state st)
  ∧ (nextObjectId st ≤ nextObjectId (entityPass state st))%N
  ∧ warningLines (entityPass state st) = warningLines st.
Proof. intros Ht. unfold entityPass. by apply reconcile_fold_tidy. Qed.

Lemma afterEntities_tidy state st :
  tidy st →
  tidy (afterEntities state st)
  ∧ (nextObjectId st ≤ nextObjectId (afterEntities state st))%N
  ∧ warningLines (afterEntities state st) = warningLines st.
Proof.
  intros Ht. unfold afterEntities.
  destruct (entityPass_tidy state st Ht) as (Ht1 & Hle1 & Hw1).
  match goal with |- context [foldl (removeIfDeleted ?c) ?s ?k] =>
    destruct (removeDeleted_tidy c k s Ht1) as (Ht2 & Hn2 & Hw2) end.
  split; [exact Ht2|]. split; [lia|congruence].
Qed.

(** Every state that the module builds from a well-formed one is
    well-formed, also when an exception cuts the tick short. *)
Lemma updateThreeScene_wellFormed state st :
  wellFormed st → wellFormed (updateThreeScene state st).
Proof.
  intros (Hnd & Hlt & Hlines).
  destruct state as [state|]; [|by repeat split].
  destruct (isInitialized st) eqn:Hinit.
  - rewrite tick_spec by exact Hinit.
    destruct (entitiesRaise state st).
    + destruct (entityPass_tidy state st (conj Hnd Hlt)) as ([Hnd1 Hlt1] & Hle1 & Hw1).
      cbn [after throws]. repeat split; [exact Hnd1|exact Hlt1|].
      intros line Hline. rewrite Hw1 in Hline. apply Hlines in Hline. lia.
    + rewrite updateWarningLines_spec. cbn [after].
      destruct (afterEntities_tidy state st (conj Hnd Hlt)) as (Ht1 & Hle1 & Hw1).
      destruct (cleared_tidy _ Ht1) as (Ht2 & _).
      destruct (draw_fold_tidy getWorldPosition
                  (drawnRecords (craneObjects (afterEntities state st))
                     (default [] (collisions state))) _ Ht2)
        as ([Hnd3 Hlt3] & _ & _ & Hl3).
      cbv zeta in Hl3. repeat split; [exact Hnd3|exact Hlt3|].
      intros line Hline. apply Hl3 in Hline as [Hline|[Hrange _]]; [|lia].
      by apply elem_of_nil in Hline.
  - unfold Scene.updateThreeScene. rewrite Hinit. by repeat split.
Qed.

(** C4, as amended. After a tick on an initialised scene with a
    snapshot none of whose entity ids and none of whose collision
    records' ids names a property of the prototype, the overlay holds,
    in the order of the snapshot's collision records, exactly one line
    for each record whose level is above NORMAL and whose two entities
    are both in the mapping: a dashed segment between the two entities'
    current tip positions, in the colour of the record's level. A record
    at NORMAL contributes none. Nothing of the previous overlay
    survives: every line of the new overlay is an object constructed in
    this tick and present in the scene, and every line of the old
    overlay has left the scene. *)
Theorem C4_overlay_rebuilt_from_collisions (state : Data) (st : State) :
  isInitialized st = true →
  wellFormed st →
  Forall (λ c, validLevel (alert_level c)) (default [] (collisions state)) →
  ownNamesOnly (id <$> default [] (cranes state)) →
  Forall (λ c, ownNamesOnly [crane_a_id c; crane_b_id c])
         (default [] (collisions state)) →
  let st' := updateThreeScene (Some state) st in
  appearance <$> warningLines st' =
    omap (expectedIndicator getWorldPosition (craneObjects st'))
         (default [] (collisions state))
  ∧ (∀ c, alert_level c = "NORMAL" →
          expectedIndicator getWorldPosition (craneObjects st') c = None)
  ∧ (∀ line, line ∈ warningLines st' →
       (nextObjectId st ≤ line_id line)%N ∧ line_id line ∈ scene st')
  ∧ (∀ line, line ∈ warningLines st → line_id line ∉ scene st').
Proof.
  intros Hinit (Hnd & Hlt & Hlines) Hvalid Hown Hpairs st'.
  destruct (afterEntities_tidy state st (conj Hnd Hlt)) as (Ht1 & Hle1 & Hw1).
  destruct (cleared_tidy _ Ht1) as (Ht2 & Hgone).
  destruct (draw_fold_tidy getWorldPosition (default [] (collisions state)) _ Ht2)
    as (_ & _ & Hscene & Hnew).
  cbv zeta in Hscene, Hnew.
  assert (Hst' : after st' = foldl drawStep (cleared (afterEntities state st))
                               (default [] (collisions state))).
  { unfold st'. rewrite tick_unfold; [reflexivity|exact Hinit| |].
    - by apply ownNamesOnly_no_raise.
    - eapply Forall_impl; [exact Hpairs|]. intros c Hc.
      apply Forall_cons in Hc as [Ha Hc]. apply Forall_cons in Hc as [Hb _].
      by apply raisesOn_own. }
  clearbody st'. rewrite Hst'. clear Hst' st'.
  split; [|split; [|split]].
  - rewrite draw_fold_lines.
    destruct (draw_fold_craneObjects getWorldPosition (default [] (collisions state))
                (cleared (afterEntities state st))) as [-> _].
    rewrite omap_drawn_expected by exact Hvalid. reflexivity.
  - intros c Hc. unfold expectedIndicator, aboveNormal. rewrite Hc.
    apply decide_False. intros H.
    repeat (apply elem_of_cons in H as [H|H]; [discriminate|]).
    by apply elem_of_nil in H.
  - intros line Hline. apply Hnew in Hline as [Hline|[Hrange Hin]].
    + by apply elem_of_nil in Hline.
    + split; [|exact Hin]. change (nextObjectId (cleared (afterEntities state st)))
        with (nextObjectId (afterEntities state st)) in Hrange. lia.
  - intros line Hline Hin. apply Hscene in Hin as [Hin|Hin].
    + apply (Hgone line); [rewrite Hw1; exact Hline|exact Hin].
    + apply Hlines in Hline.
      change (nextObjectId (cleared (afterEntities state st)))
        with (nextObjectId (afterEntities state st)) in Hin. lia.
Qed.

(** C3, as amended. On every update the boom group's rotation about the
    vertical axis is the slew angle sign-flipped, [-a * (PI / 180)], and
    its rotation about the z axis is the luffing angle converted without
    a sign flip, [a * (PI / 180)]; both are pure functions of the entity
    data. *)
Theorem C3_slew_flipped_luffing_not
    (craneData : CraneData) (alertLevel : option string) (st : State)
    (obj : CraneObject) :
  craneObjects st !! id craneData = Some obj →
  ∃ obj',
    craneObjects (updateCraneObject craneData alertLevel st) !! id craneData
      = Some obj'
    ∧ y (group_rotation (boomGroup obj'))
      = (- slew_angle craneData * (PI / 180))%float
    ∧ z (group_rotation (boomGroup obj'))
      = (luffing_angle craneData * (PI / 180))%float.
Proof.
  intros Hobj. exists (writeCraneObject craneData alertLevel obj).
  split.
  - rewrite updateCraneObject_spec. cbn [after].
    rewrite updateStep_lookup, decide_True, Hobj by reflexivity.
    reflexivity.
  - unfold writeCraneObject.
    destruct (alerting alertLevel) as [l|];
      [destruct (decide (l = "DANGER" ∨ l = "WARNING"))|]; split; reflexivity.
Qed.

End WithEngine.

(** How the colouring is chosen. The tip marker follows the current
    level in every case; the ring is assigned for WARNING, DANGER and
    for NORMAL or no level, and is left as it was for any other level. *)
Lemma writeCraneObject_coloring d a obj :
  coloring (writeCraneObject d a obj) =
    match alerting a with
    | None => (0xffffff%Z, (obj_color obj, 0.15%float))
    | Some l =>
        let c := hexOf (or_default (ALERT_LEVEL_COLORS l) (obj_color obj)) in
        if decide (l = "DANGER" ∨ l = "WARNING") then (c, (c, 0.25%float))
        else (c, snd (coloring obj))
    end.
Proof.
  unfold writeCraneObject.
  destruct (alerting a) as [l|]; [|reflexivity].
  cbv zeta. destruct (decide (l = "DANGER" ∨ l = "WARNING")); reflexivity.
Qed.

Lemma not_inherited k : bool_decide (JS.inherited k) = false → ¬ JS.inherited k.
Proof. apply bool_decide_eq_false. Qed.

(** *** The code on sample snapshots *)

Import Samples.

(** C9 at a failing input. Entity "A" is at DANGER in one snapshot and
    at CAUTION in the next: its ring keeps the DANGER colour and opacity,
    whereas the same CAUTION snapshot on a fresh scene gives the ring the
    crane's own colour at the resting opacity. The ring's colouring thus
    depends on the previous level. *)
Theorem C9_ring_keeps_colour_of_previous_level :
  coloring <$> craneObjects (tick snapshotA_caution (tick snapshotA_danger emptyScene)) !! "A"
    = Some (0xFFD700%Z, (0xFF0000%Z, 0.25%float))
  ∧ coloring <$> craneObjects (tick snapshotA_caution emptyScene) !! "A"
    = Some (0xFFD700%Z, (0x4a90d9%Z, 0.15%float)).
Proof. split; vm_compute; reflexivity. Qed.

(** Witness for C1: entities A and B, then entity C alone. *)
Lemma C1_witness :
  isInitialized emptyScene = true
  ∧ dom (craneObjects (tick snapshotC (tick snapshotAB emptyScene)))
    =@{gset string} list_to_set ["C"]
  ∧ craneObjects (tick snapshotC (tick snapshotAB emptyScene)) !! "A" = None.
Proof.
  assert (HownC : ownNamesOnly (id <$> default [] (cranes snapshotC))).
  { repeat constructor. apply not_inherited. vm_compute. reflexivity. }
  pose proof (C1_live_ids_are_snapshot_ids sumOfPositions emptyScene
                snapshotAB snapshotC eq_refl HownC) as (_ & Hdom & Hnone).
  split; [reflexivity|]. split; [exact Hdom|].
  apply Hnone.
  - intros k Hk Hk'. apply list_elem_of_singleton in Hk'. subst k.
    vm_compute in Hk. repeat (apply elem_of_cons in Hk as [Hk|Hk]; [discriminate|]).
    by apply elem_of_nil in Hk.
  - apply elem_of_cons. by left.
Defined.

(** C1 as stated fails for an id that names a property of the
    prototype: the snapshot lists an entity "constructor" and then
    entity B; the lookup under "constructor" finds the inherited
    function, so no object is built for it, the update raises, and B is
    never reached. The mapping stays empty. *)
Lemma C1_inherited_id_builds_nothing :
  isInitialized emptyScene = true
  ∧ id <$> default [] (cranes snapshotInherited) = ["constructor"; "B"]
  ∧ threw (Scene.updateThreeScene sumOfPositions (Some snapshotInherited)
             emptyScene) = true
  ∧ craneObjects (tick snapshotInherited emptyScene) = ∅
  ∧ dom (craneObjects (tick snapshotInherited emptyScene))
    ≠@{gset string} list_to_set (id <$> default [] (cranes snapshotInherited)).
Proof.
  assert (Hempty : craneObjects (tick snapshotInherited emptyScene) = ∅)
    by (vm_compute; reflexivity).
  split; [reflexivity|]. split; [reflexivity|].
  split; [vm_compute; reflexivity|]. split; [exact Hempty|].
  rewrite Hempty, dom_empty_L. intros H.
  assert (HB : "B" ∈@{gset string} ∅).
  { rewrite H. apply elem_of_list_to_set. apply elem_of_cons. right.
    apply elem_of_cons. by left. }
  by apply not_elem_of_empty in HB.
Qed.

(** Witness for C3: entity A, slewed to 90 degrees and luffed to 30. *)
Lemma C3_witness :
  ∃ obj',
    craneObjects (updateCraneObject craneA None (tick snapshotAB emptyScene))
        !! "A" = Some obj'
    ∧ y (group_rotation (boomGroup obj')) = (- 90 * (PI / 180))%float
    ∧ z (group_rotation (boomGroup obj')) = (30 * (PI / 180))%float.
Proof.
  destruct (C3_slew_flipped_luffing_not craneA None (tick snapshotAB emptyScene)
              (writeCraneObject craneA (Some "DANGER") (buildCraneObject craneA 0 100)))
    as (obj' & Hobj' & Hy & Hz).
  { vm_compute. reflexivity. }
  exists obj'. split; [exact Hobj'|]. split; [exact Hy|exact Hz].
Defined.

(** Witness for C4: the overlay of one tick replaced by that of the
    next. *)
Lemma C4_witness :
  appearance <$> warningLines (tick snapshotAB (tick snapshotAB emptyScene))
  = [(SegmentGeometry (mkVector3 30 40 0) (mkVector3 80 40 0),
      mkMaterial (LineDashedMaterial 3 2) 0xFF0000%Z false 1)]
  ∧ (line_id <$> warningLines (tick snapshotAB emptyScene) = [116%N]
     ∧ 116%N ∉ scene (tick snapshotAB (tick snapshotAB emptyScene))).
Proof.
  assert (Hwf : wellFormed (tick snapshotAB emptyScene)).
  { apply updateThreeScene_wellFormed. repeat split.
    - apply NoDup_nil_2.
    - intros n Hn. by apply elem_of_nil in Hn.
    - intros l Hl. by apply elem_of_nil in Hl. }
  destruct (C4_overlay_rebuilt_from_collisions sumOfPositions snapshotAB
              (tick snapshotAB emptyScene) eq_refl Hwf)
    as (Hlooks & _ & _ & Hold).
  { repeat constructor. }
  { repeat constructor; apply not_inherited; vm_compute; reflexivity. }
  { repeat constructor; apply not_inherited; vm_compute; reflexivity. }
  split.
  - etransitivity; [exact Hlooks|]. vm_compute. reflexivity.
  - split; [vm_compute; reflexivity|].
    apply (Hold (mkLine 116 (SegmentGeometry (mkVector3 30 40 0) (mkVector3 80 40 0))
                   (mkMaterial (LineDashedMaterial 3 2) 0xFF0000%Z false 1))).
    vm_compute. apply elem_of_cons. by left.
Defined.

(** C4 as stated fails when a collision record names a property of the
    prototype: the first record pairs "constructor" with entity A, the
    second pairs A with B at DANGER. Both entities are in the mapping,
    so the second record is to contribute a line; the callback raises at
    the first record, where the inherited function has no tip marker,
    and the overlay stays empty. *)
Lemma C4_inherited_pair_stops_overlay :
  isInitialized emptyScene = true
  ∧ dom (craneObjects (tick snapshotAB_inheritedPair emptyScene))
    =@{gset string} list_to_set ["A"; "B"]
  ∧ threw (Scene.updateThreeScene sumOfPositions (Some snapshotAB_inheritedPair)
             emptyScene) = true
  ∧ warningLines (tick snapshotAB_inheritedPair emptyScene) = []
  ∧ length (omap (expectedIndicator sumOfPositions
                    (craneObjects (tick snapshotAB_inheritedPair emptyScene)))
                 (default [] (collisions snapshotAB_inheritedPair))) = 1.
Proof.
  split; [reflexivity|]. split.
  - assert (HownAB : ownNamesOnly
                       (id <$> default [] (cranes snapshotAB_inheritedPair))).
    { repeat constructor; apply not_inherited; vm_compute; reflexivity. }
    assert (Hdom : ∀ k, is_Some (craneObjects
                            (tick snapshotAB_inheritedPair emptyScene) !! k)
                        ↔ k ∈ ["A"; "B"]).
    { intros k. unfold tick. split.
      - intros [obj Hobj].
        rewrite tick_lookup in Hobj;
          [|reflexivity|by apply ownNamesOnly_no_raise].
        case_decide as Hk; [exact Hk|discriminate].
      - intros Hk.
        destruct (tick_lookup_in sumOfPositions snapshotAB_inheritedPair
                    emptyScene k eq_refl
                    (ownNamesOnly_no_raise _ _ HownAB) Hk) as [base Hb].
        rewrite (Hb craneA). eauto. }
    apply set_eq. intros k. rewrite elem_of_dom, elem_of_list_to_set. apply Hdom.
  - split; [vm_compute; reflexivity|]. split; vm_compute; reflexivity.
Qed.

(** Witness for C10: entity "A" comes back with another base position,
    mast height and boom length. *)
Lemma C10_witness :
  craneObjects (tick (snapshot [craneA] [] []) emptyScene) !! "A" = Some objectA
  ∧ base_x craneA' ≠ base_x craneA
  ∧ ∃ ry rz tipColor radiusColor radiusOpacity,
      craneObjects
        (tick snapshotA_moved (tick (snapshot [craneA] [] []) emptyScene)) !! "A"
      = Some (repaint ry rz tipColor radiusColor radiusOpacity objectA).
Proof.
  assert (H0 : craneObjects (tick (snapshot [craneA] [] []) emptyScene) !! "A"
               = Some objectA) by (vm_compute; reflexivity).
  split; [exact H0|]. split.
  - intros H. apply (f_equal (PrimFloat.ltb 0)) in H. vm_compute in H. discriminate.
  - destruct (C10_update_keeps_placement_and_geometry sumOfPositions
                snapshotA_moved (tick (snapshot [craneA] [] []) emptyScene)
                "A" objectA H0)
      as (ry & rz & tc & rc & ro & Hlook & _).
    { apply elem_of_cons. by left. }
    exists ry, rz, tc, rc, ro. exact Hlook.
Defined.

(** C3 as stated fails for the luffing angle: for a luffing angle of 30
    degrees the rotation written is [30 * (PI / 180)], which is not
    [-30 * (PI / 180)]. *)
Lemma C3_luffing_is_not_sign_flipped :
  ∃ obj,
    craneObjects (tick (snapshot [craneA] [] []) emptyScene) !! "A" = Some obj
    ∧ luffing_angle craneA = 30%float
    ∧ z (group_rotation (boomGroup obj)) ≠ (- 30 * (PI / 180))%float.
Proof.
  eexists. split; [vm_compute; reflexivity|]. split; [reflexivity|].
  intros H. apply (f_equal (PrimFloat.ltb 0)) in H. vm_compute in H.
  discriminate.
Qed.

End SceneFacts.

(* ===================================================================== *)
(** ** Facts about the transport channel *)
(* ===================================================================== *)

Module ChannelFacts.
Import Wire Channel.

Lemma scheduleReconnect_fields st :
  isConnected (scheduleReconnect st) = isConnected st
  ∧ statusEl (scheduleReconnect st) = statusEl st
  ∧ match reconnectTimer st with
    | Some t =>
        reconnectTimer (scheduleReconnect st) = Some t
        ∧ timers (scheduleReconnect st) = timers st
    | None =>
        reconnectTimer (scheduleReconnect st) = Some (nextTimerId st)
        ∧ timers (scheduleReconnect st) =
            timers st ++ [(nextTimerId st, RECONNECT_INTERVAL)]
    end.
Proof.
  unfold scheduleReconnect. destruct (reconnectTimer st) eqn:E; [done|].
  unfold setTimeout. cbn. done.
Qed.

Lemma updateConnectionStatus_fields connected st :
  isConnected (updateConnectionStatus connected st) = isConnected st
  ∧ reconnectTimer (updateConnectionStatus connected st) = reconnectTimer st
  ∧ timers (updateConnectionStatus connected st) = timers st
  ∧ nextTimerId (updateConnectionStatus connected st) = nextTimerId st.
Proof.
  unfold updateConnectionStatus.
  destruct (statusEl st); [destruct connected|]; done.
Qed.

Lemma updateConnectionStatus_false st :
  statusEl (updateConnectionStatus false st) =
    (λ _, shownDisconnected) <$> statusEl st.
Proof. unfold updateConnectionStatus. destruct (statusEl st) eqn:E; cbn; done. Qed.

(** C5, as amended. A close event, in whatever state the channel is,
    sets [isConnected] to false, shows "disconnected" in the status
    element, and schedules one reconnect timeout of 3000 ms when none is
    scheduled (and none when one is). An error event sets [isConnected]
    to false and shows "disconnected", and schedules nothing: the
    pending timeouts and [reconnectTimer] are as before. *)
Theorem C5_close_schedules_error_only_marks (code : Z) (st : State) :
  (isConnected (onclose code st) = false
   ∧ statusEl (onclose code st) = (λ _, shownDisconnected) <$> statusEl st
   ∧ match reconnectTimer st with
     | None =>
         reconnectTimer (onclose code st) = Some (nextTimerId st)
         ∧ timers (onclose code st) = timers st ++ [(nextTimerId st, 3000%Z)]
     | Some t =>
         reconnectTimer (onclose code st) = Some t
         ∧ timers (onclose code st) = timers st
     end)
  ∧ (isConnected (onerror st) = false
     ∧ statusEl (onerror st) = (λ _, shownDisconnected) <$> statusEl st
     ∧ reconnectTimer (onerror st) = reconnectTimer st
     ∧ timers (onerror st) = timers st).
Proof.
  split.
  - unfold onclose.
    set (st1 := set_isConnected false (console_write (LogClosed code) st)).
    destruct (scheduleReconnect_fields (updateConnectionStatus false st1))
      as (Hc & Hs & Ht).
    destruct (updateConnectionStatus_fields false st1) as (Hc1 & Hr1 & Ht1 & Hn1).
    rewrite Hc, Hs, Hc1, updateConnectionStatus_false.
    split; [reflexivity|]. split; [reflexivity|].
    rewrite Hr1, Ht1, Hn1 in Ht. exact Ht.
  - unfold onerror.
    set (st1 := set_isConnected false (console_write ErrorSocket st)).
    destruct (updateConnectionStatus_fields false st1) as (Hc1 & Hr1 & Ht1 & Hn1).
    rewrite Hc1, Hr1, Ht1, updateConnectionStatus_false. done.
Qed.

(** *** The reconnect timer *)

Lemma timerTracked_ext s1 s2 :
  reconnectTimer s2 = reconnectTimer s1 → timers s2 = timers s1 →
  timerTracked s1 → timerTracked s2.
Proof. unfold timerTracked. intros -> ->. done. Qed.

Lemma timerTracked_length st : timerTracked st → length (timers st) ≤ 1.
Proof.
  unfold timerTracked. intros ->. destruct (reconnectTimer st); cbn; lia.
Qed.

Lemma scheduleReconnect_tracked st :
  timerTracked st →
  timerTracked (scheduleReconnect st)
  ∧ length (timers (scheduleReconnect st)) = 1
  ∧ (∀ e, e ∈ timers st → e ∈ timers (scheduleReconnect st)).
Proof.
  unfold timerTracked. intros Ht.
  destruct (scheduleReconnect_fields st) as (_ & _ & H).
  destruct (reconnectTimer st) as [t|]; destruct H as [-> ->]; rewrite Ht.
  - done.
  - split; [reflexivity|]. split; [reflexivity|]. intros e He.
    by apply elem_of_nil in He.
Qed.

Lemma connectWebSocket_tracked throws st :
  timerTracked st →
  timerTracked (connectWebSocket throws st)
  ∧ (∀ e, e ∈ timers st → e ∈ timers (connectWebSocket throws st)).
Proof.
  intros Ht. unfold connectWebSocket. case_decide; [done|].
  destruct throws.
  - set (st1 := console_write ErrorCreateFailed
                  (console_write (LogConnecting (wsUrl st)) st)).
    destruct (scheduleReconnect_tracked st1) as (H1 & _ & H3); [exact Ht|].
    split; [exact H1|exact H3].
  - done.
Qed.

Lemma onopen_cancels st :
  timerTracked st →
  timers (onopen st) = [] ∧ reconnectTimer (onopen st) = None.
Proof.
  unfold timerTracked, onopen. intros Ht.
  set (st1 := set_isConnected true (console_write LogConnected st)).
  destruct (updateConnectionStatus_fields true st1) as (_ & Hr & Htm & _).
  change (reconnectTimer st1) with (reconnectTimer st) in Hr.
  change (timers st1) with (timers st) in Htm.
  rewrite Hr. destruct (reconnectTimer st) as [t|] eqn:E.
  - unfold clearTimeout. cbn. rewrite Htm, Ht. cbn.
    rewrite decide_False by (intros H; by apply H). done.
  - rewrite Hr, Htm, Ht. done.
Qed.

Lemma onclose_tracked code st :
  timerTracked st →
  timerTracked (onclose code st)
  ∧ length (timers (onclose code st)) = 1
  ∧ (∀ e, e ∈ timers st → e ∈ timers (onclose code st)).
Proof.
  intros Ht. unfold onclose.
  set (st1 := set_isConnected false (console_write (LogClosed code) st)).
  destruct (updateConnectionStatus_fields false st1) as (_ & Hr & Htm & _).
  change (reconnectTimer st1) with (reconnectTimer st) in Hr.
  change (timers st1) with (timers st) in Htm.
  destruct (scheduleReconnect_tracked (updateConnectionStatus false st1))
    as (H1 & H2 & H3).
  { exact (timerTracked_ext st _ Hr Htm Ht). }
  split; [exact H1|]. split; [exact H2|].
  intros e He. apply H3. rewrite Htm. exact He.
Qed.

Lemma onerror_timers st :
  reconnectTimer (onerror st) = reconnectTimer st
  ∧ timers (onerror st) = timers st.
Proof.
  unfold onerror.
  set (st1 := set_isConnected false (console_write ErrorSocket st)).
  destruct (updateConnectionStatus_fields false st1) as (_ & Hr & Htm & _).
  change (reconnectTimer st1) with (reconnectTimer st) in Hr.
  change (timers st1) with (timers st) in Htm.
  split; assumption.
Qed.

Section WithHost.

Variable getWorldPosition :
  THREE.Group → THREE.Group → THREE.Mesh → THREE.Vector3.
Variable JSON_parse : string → option Parsed.

Abbreviation onmessage := (Channel.onmessage getWorldPosition JSON_parse).
Abbreviation deliver := (Channel.deliver getWorldPosition JSON_parse).
Abbreviation run := (Channel.run getWorldPosition JSON_parse).

(** The dispatcher and the message handler leave the connection
    alone. *)
Lemma onDataReceived_frame state st :
  let st' := (Channel.onDataReceived getWorldPosition state st).1 in
  ws st' = ws st ∧ sockets st' = sockets st ∧ isConnected st' = isConnected st
  ∧ reconnectTimer st' = reconnectTimer st ∧ timers st' = timers st
  ∧ statusEl st' = statusEl st ∧ console st' = console st
  ∧ lastData st' = lastData st.
Proof.
  unfold Channel.onDataReceived. cbv zeta.
  destruct (Scene.threw _); [done|]. destruct state; done.
Qed.

Lemma onmessage_frame event_data st :
  ws (onmessage event_data st) = ws st
  ∧ sockets (onmessage event_data st) = sockets st
  ∧ isConnected (onmessage event_data st) = isConnected st
  ∧ reconnectTimer (onmessage event_data st) = reconnectTimer st
  ∧ timers (onmessage event_data st) = timers st
  ∧ statusEl (onmessage event_data st) = statusEl st.
Proof.
  unfold Channel.onmessage.
  destruct (JSON_parse event_data) as [parsed|]; [|done].
  assert (Hdispatch : ∀ state st0,
            ws st0 = ws st → sockets st0 = sockets st →
            isConnected st0 = isConnected st →
            reconnectTimer st0 = reconnectTimer st → timers st0 = timers st →
            statusEl st0 = statusEl st →
            let r := (let '(st1, threw) :=
                        Channel.onDataReceived getWorldPosition state st0 in
                      if threw then console_write ErrorParse st1 else st1) in
            ws r = ws st ∧ sockets r = sockets st
            ∧ isConnected r = isConnected st
            ∧ reconnectTimer r = reconnectTimer st ∧ timers r = timers st
            ∧ statusEl r = statusEl st).
  { intros state st0 H1 H2 H3 H4 H5 H6.
    pose proof (onDataReceived_frame state st0) as Hf. cbv zeta in Hf.
    destruct (Channel.onDataReceived getWorldPosition state st0) as [st1 threw].
    cbn [fst] in Hf. destruct Hf as (F1 & F2 & F3 & F4 & F5 & F6 & _).
    cbv zeta. destruct threw; cbn; rewrite ?F1, ?F2, ?F3, ?F4, ?F5, ?F6; done. }
  destruct parsed as [| |data]; cbn [truthy mbind option_bind truthy_string].
  - done.
  - rewrite decide_False by discriminate. by apply Hdispatch.
  - destruct (truthy_string (error data)); [done|].
    case_decide; [done|]. by apply Hdispatch.
Qed.

Lemma onmessage_timers event_data st :
  reconnectTimer (onmessage event_data st) = reconnectTimer st
  ∧ timers (onmessage event_data st) = timers st.
Proof. destruct (onmessage_frame event_data st) as (_ & _ & _ & -> & -> & _). done. Qed.

Lemma deliver_tracked ev st st' :
  timerTracked st → deliver ev st = Some st' → timerTracked st'.
Proof.
  intros Ht. destruct ev as [throws|k|k event_data|k code|k|t throws];
    cbn [Channel.deliver].
  - intros [= <-]. by apply connectWebSocket_tracked.
  - destruct (sockets st !! k) as [[u []]|]; try discriminate. intros [= <-].
    destruct (onopen_cancels (set_readyState k OPEN st) Ht) as [H1 H2].
    unfold timerTracked. rewrite H1, H2. reflexivity.
  - destruct (sockets st !! k); [|discriminate]. intros [= <-].
    destruct (onmessage_timers event_data st) as [Hr Htm].
    exact (timerTracked_ext st _ Hr Htm Ht).
  - destruct (sockets st !! k); [|discriminate]. intros [= <-].
    by apply (onclose_tracked code (set_readyState k CLOSED st)).
  - destruct (sockets st !! k); [|discriminate]. intros [= <-].
    destruct (onerror_timers st) as [Hr Htm].
    exact (timerTracked_ext st _ Hr Htm Ht).
  - case_decide as Hin; [|discriminate]. intros [= <-].
    unfold reconnectCallback. apply connectWebSocket_tracked.
    unfold timerTracked in *. cbn. rewrite Ht in Hin |- *.
    destruct (reconnectTimer st) as [t'|]; cbn in Hin.
    + apply list_elem_of_singleton in Hin. subst t'. cbn.
      rewrite decide_False by (intros H; by apply H). reflexivity.
    + by apply elem_of_nil in Hin.
Qed.

Lemma run_tracked evs : ∀ st st',
  timerTracked st → run evs st = Some st' → timerTracked st'.
Proof.
  induction evs as [|ev evs IH]; intros st st' Ht; cbn [Channel.run].
  - intros [= <-]. exact Ht.
  - destruct (deliver ev st) as [st1|] eqn:E; [|discriminate]. cbn.
    apply IH. eapply deliver_tracked; eassumption.
Qed.

Lemma run_app evs1 evs2 st :
  run (evs1 ++ evs2) st = run evs1 st ≫= run evs2.
Proof.
  revert st. induction evs1 as [|ev evs1 IH]; intros st; cbn; [reflexivity|].
  destruct (deliver ev st); cbn; [apply IH|reflexivity].
Qed.

(** C6. In every state that the page reaches, at most one reconnect
    timeout is pending. After a close event, and so after any run of
    close events with no open between them, exactly one is pending. An
    open event cancels the pending timeout; no other event removes a
    pending timeout, except that a timeout leaves the list when it
    fires. *)
Theorem C6_one_reconnect_timer
    (scene0 : Scene.State) (el : option StatusElement) (protocol host : string)
    (evs : list Event) (st : State) :
  run evs (initial scene0 el protocol host) = Some st →
  length (timers st) ≤ 1
  ∧ (∀ closes st',
       closes ≠ [] → Forall isClose closes → run closes st = Some st' →
       length (timers st') = 1)
  ∧ (∀ ev st', deliver ev st = Some st' →
       match ev with
       | SocketOpen _ => timers st' = [] ∧ reconnectTimer st' = None
       | TimerFired t _ => ∀ e, e ∈ timers st → e.1 ≠ t → e ∈ timers st'
       | _ => ∀ e, e ∈ timers st → e ∈ timers st'
       end).
Proof.
  intros Hrun.
  assert (Ht : timerTracked st).
  { eapply run_tracked; [|exact Hrun]. reflexivity. }
  clear Hrun. split; [by apply timerTracked_length|]. split.
  - intros closes. revert st Ht.
    induction closes as [|c closes IH]; intros st Ht st' Hne Hall; [done|].
    apply Forall_cons in Hall as [Hc Hall]. cbn [Channel.run].
    destruct (deliver c st) as [st1|] eqn:E; [|discriminate]. cbn.
    assert (Ht1 : timerTracked st1) by (eapply deliver_tracked; eassumption).
    destruct closes as [|c' closes'].
    + cbn. intros [= <-].
      destruct c as [| | |k code| |]; try done. cbn in E.
      destruct (sockets st !! k); [|discriminate]. injection E as <-.
      by apply (onclose_tracked code (set_readyState k CLOSED st)).
    + apply IH; [exact Ht1|discriminate|exact Hall].
  - intros ev st'.
    destruct ev as [throws|k|k event_data|k code|k|t throws];
      cbn [Channel.deliver].
    + intros [= <-]. by apply connectWebSocket_tracked.
    + destruct (sockets st !! k) as [[u []]|]; try discriminate. intros [= <-].
      exact (onopen_cancels (set_readyState k OPEN st) Ht).
    + destruct (sockets st !! k); [|discriminate]. intros [= <-].
      destruct (onmessage_timers event_data st) as [_ ->]. done.
    + destruct (sockets st !! k); [|discriminate]. intros [= <-].
      by apply (onclose_tracked code (set_readyState k CLOSED st)).
    + destruct (sockets st !! k); [|discriminate]. intros [= <-].
      destruct (onerror_timers st) as [_ ->]. done.
    + case_decide as Hin; [|discriminate]. intros _ e He Hne. exfalso.
      unfold timerTracked in Ht. rewrite Ht in Hin, He.
      destruct (reconnectTimer st) as [t'|]; cbn in Hin.
      * apply list_elem_of_singleton in Hin, He. subst. by apply Hne.
      * by apply elem_of_nil in Hin.
Qed.

(** When the socket is open, [connectWebSocket] does nothing. *)
Lemma connectWebSocket_open throws st :
  ws_readyState st = Some OPEN → connectWebSocket throws st = st.
Proof. intros H. unfold connectWebSocket. by rewrite decide_True. Qed.

(** C8. A frame whose text [JSON.parse] rejects writes one error to the
    console and nothing else: the scene state (mapping, overlay, scene
    children), the connection variables, the sockets, the timers, the
    status element, [lastData], [currentState] and the panels are as
    before, so nothing is dispatched. *)
Theorem C8_malformed_frame_is_only_logged (event_data : string) (st : State) :
  JSON_parse event_data = None →
  onmessage event_data st = console_write ErrorParse st
  ∧ console (onmessage event_data st) = console st ++ [ErrorParse]
  ∧ three (onmessage event_data st) = three st
  ∧ (ws (onmessage event_data st), sockets (onmessage event_data st),
     isConnected (onmessage event_data st),
     reconnectTimer (onmessage event_data st), timers (onmessage event_data st),
     statusEl (onmessage event_data st))
    = (ws st, sockets st, isConnected st, reconnectTimer st, timers st, statusEl st)
  ∧ (lastData (onmessage event_data st), currentState (onmessage event_data st),
     panels (onmessage event_data st))
    = (lastData st, currentState st, panels st)
  ∧ (∀ k, is_Some (sockets st !! k) →
       deliver (SocketMessage k event_data) st = Some (console_write ErrorParse st)).
Proof.
  intros Hparse. unfold Channel.deliver, Channel.onmessage. rewrite Hparse.
  repeat split. intros k [sock ->]. reflexivity.
Qed.

End WithHost.

(** *** The code on a sample page *)

Import Samples.

(** C5 as stated fails for error events: on a connecting socket with no
    reconnect scheduled, an error event leaves no timeout pending. *)
Lemma C5_error_event_schedules_nothing :
  ∃ st',
    ws_readyState connecting = Some CONNECTING
    ∧ reconnectTimer connecting = None
    ∧ Channel.deliver sumOfPositions parseByName (SocketError 0) connecting
      = Some st'
    ∧ isConnected st' = false
    ∧ timers st' = [] ∧ reconnectTimer st' = None.
Proof.
  exists (onerror connecting).
  split; [vm_compute; reflexivity|]. split; [vm_compute; reflexivity|].
  split; [vm_compute; reflexivity|]. split; [vm_compute; reflexivity|].
  split; vm_compute; reflexivity.
Qed.

(** Witness for C6: the page connects, its socket opens and is then
    closed three times over. *)
Lemma C6_witness :
  ∃ st st',
    deliverAll [Connect false; SocketOpen 0] page = Some st
    ∧ length (timers st) ≤ 1
    ∧ deliverAll [SocketClose 0 1006; SocketClose 0 1006; SocketClose 0 1006] st
      = Some st'
    ∧ length (timers st') = 1.
Proof.
  assert (∃ st, deliverAll [Connect false; SocketOpen 0] page = Some st)
    as [st H0] by (eexists; vm_compute; reflexivity).
  assert (∃ st', deliverAll
            ([Connect false; SocketOpen 0]
             ++ [SocketClose 0 1006; SocketClose 0 1006; SocketClose 0 1006]) page
          = Some st')
    as [st' H1] by (eexists; vm_compute; reflexivity).
  rewrite run_app, H0 in H1. cbn [mbind option_bind] in H1.
  destruct (C6_one_reconnect_timer sumOfPositions parseByName emptyScene
              (Some (mkStatusElement "" "")) "http:" "localhost:8000"
              [Connect false; SocketOpen 0] st H0) as (Hle & Hcloses & _).
  exists st, st'.
  split; [exact H0|]. split; [exact Hle|]. split; [exact H1|].
  apply (Hcloses [SocketClose 0 1006; SocketClose 0 1006; SocketClose 0 1006]);
    [discriminate|repeat constructor|exact H1].
Defined.

(** C7 at a failing input. The page has called [connectWebSocket] once
    and its socket is still connecting; a second call constructs another
    socket and makes [ws] name it. *)
Theorem C7_connect_while_connecting_opens_a_second_socket :
  ws_readyState connecting = Some CONNECTING
  ∧ ws connecting = Some 0
  ∧ length (sockets connecting) = 1
  ∧ ws (connectWebSocket false connecting) = Some 1
  ∧ readyState <$> sockets (connectWebSocket false connecting)
    = [CONNECTING; CONNECTING]
  ∧ connectWebSocket false connecting ≠ connecting.
Proof.
  split; [vm_compute; reflexivity|]. split; [vm_compute; reflexivity|].
  split; [vm_compute; reflexivity|]. split; [vm_compute; reflexivity|].
  split; [vm_compute; reflexivity|].
  intros H. apply (f_equal ws) in H. vm_compute in H. discriminate.
Qed.

(** Witness for C8: a frame that is not one of the known ones, on a page
    that shows a snapshot. *)
Lemma C8_witness :
  parseByName "{cranes:" = None
  ∧ three (Channel.onmessage sumOfPositions parseByName "{cranes:" showing)
    = three showing
  ∧ Scene.warningLines (three showing) ≠ [].
Proof.
  assert (H : parseByName "{cranes:" = None) by reflexivity.
  destruct (C8_malformed_frame_is_only_logged sumOfPositions parseByName
              "{cranes:" showing H) as (_ & _ & Hthree & _).
  split; [exact H|]. split; [exact Hthree|].
  intros Hnil. apply (f_equal length) in Hnil. vm_compute in Hnil. discriminate.
Defined.

End ChannelFacts.

(* ===================================================================== *)
(** ** Further facts about the scene module *)
(* ===================================================================== *)

Module SceneMore.
Import THREE Wire Scene SceneNotions MoreNotions PlainFacts SceneFacts.

Lemma writeCraneObject_group d a obj :
  group (writeCraneObject d a obj) = group obj.
Proof.
  unfold writeCraneObject. destruct (alerting a) as [l|]; [|reflexivity].
  cbv zeta. destruct (decide (l = "DANGER" ∨ l = "WARNING")); reflexivity.
Qed.

Lemma elem_of_remove_ne o x children :
  x ∈ children → x ≠ o → x ∈ remove o children.
Proof.
  induction children as [|c rest IH]; cbn [remove]; [done|].
  intros Hin Hne. apply elem_of_cons in Hin as [->|Hin].
  - rewrite decide_False by exact Hne. apply elem_of_cons. by left.
  - case_decide; [exact Hin|]. apply elem_of_cons. right. by apply IH.
Qed.

(** [accounted] looks at a state through its scene, its counter, its
    overlay and the group number under each key. *)
Lemma accounted_ext s1 s2 :
  scene s2 = scene s1 → nextObjectId s2 = nextObjectId s1 →
  warningLines s2 = warningLines s1 →
  (∀ k, groupIdOf s2 k = groupIdOf s1 k) →
  accounted s1 → accounted s2.
Proof.
  intros Hs Hn Hw Hg (Hnd & Hlt & Hiff & Hdisj & Hinj).
  assert (Hgi : ∀ n, isGroupId s2 n ↔ isGroupId s1 n).
  { intros n. unfold isGroupId. split; intros [k Hk]; exists k; by rewrite ?Hg in *. }
  assert (Hli : ∀ n, isLineId s2 n ↔ isLineId s1 n).
  { intros n. unfold isLineId. by rewrite Hw. }
  unfold accounted. rewrite Hs, Hn. split; [exact Hnd|]. split; [exact Hlt|].
  split; [|split].
  - intros n. rewrite Hgi, Hli. apply Hiff.
  - intros n. rewrite Hgi, Hli. apply Hdisj.
  - intros k1 k2 n. rewrite !Hg. apply Hinj.
Qed.

Lemma reconcileStep_groupIdOf alerts st i d k :
  groupIdOf (Plain.reconcileStep alerts st (i, d)) k =
    if decide (id d = k)
    then Some (default (nextObjectId st) (groupIdOf st k))
    else groupIdOf st k.
Proof.
  unfold groupIdOf. rewrite reconcileStep_lookup.
  case_decide; [|reflexivity]. cbn. rewrite writeCraneObject_group.
  destruct (craneObjects st !! k); reflexivity.
Qed.

Lemma reconcileStep_accounted alerts st e :
  accounted st → accounted (Plain.reconcileStep alerts st e).
Proof.
  intros Hacc. destruct e as [i d].
  destruct (reconcileStep_fields alerts st i d) as (Hw & Hs & Hn).
  destruct (craneObjects st !! id d) as [obj|] eqn:Hobj.
  - apply (accounted_ext st); try assumption.
    intros k. rewrite reconcileStep_groupIdOf. case_decide as Hk; [|reflexivity].
    subst k. unfold groupIdOf. rewrite Hobj. reflexivity.
  - destruct Hacc as (Hnd & Hlt & Hiff & Hdisj & Hinj).
    assert (Hnone : groupIdOf st (id d) = None)
      by (unfold groupIdOf; rewrite Hobj; reflexivity).
    assert (Hgid : ∀ k, groupIdOf (Plain.reconcileStep alerts st (i, d)) k =
                        if decide (id d = k) then Some (nextObjectId st)
                        else groupIdOf st k).
    { intros k. rewrite reconcileStep_groupIdOf. case_decide; [|reflexivity].
      subst k. rewrite Hnone. reflexivity. }
    assert (Hbelow : ∀ k n, groupIdOf st k = Some n → (n < nextObjectId st)%N).
    { intros k n Hk. apply Hlt, Hiff. left. by exists k. }
    destruct (tidy_add (scene st) (nextObjectId st) (nextObjectId st + 8)
                Hnd Hlt ltac:(lia)) as [Hnd' Hlt'].
    unfold accounted. rewrite Hs, Hn.
    split; [exact Hnd'|]. split; [exact Hlt'|]. split; [|split].
    + intros n. unfold isGroupId, isLineId. rewrite Hw. rewrite elem_of_app.
      rewrite list_elem_of_singleton. split.
      * intros [Hin| ->].
        -- apply Hiff in Hin as [[k Hk]|Hline]; [|by right].
           left. exists k. rewrite Hgid. case_decide; [congruence|exact Hk].
        -- left. exists (id d). rewrite Hgid. by rewrite decide_True.
      * intros [[k Hk]|Hline].
        -- rewrite Hgid in Hk. case_decide.
           ++ right. congruence.
           ++ left. apply Hiff. left. by exists k.
        -- left. apply Hiff. by right.
    + intros n [k Hk] Hline. rewrite Hgid in Hk.
      unfold isLineId in Hline. rewrite Hw in Hline.
      destruct (decide (id d = k)) as [_|_].
      * injection Hk as <-.
        assert (nextObjectId st ∈ scene st) as Hin by (apply Hiff; by right).
        apply Hlt in Hin. lia.
      * apply (Hdisj n); [by exists k|exact Hline].
    + intros k1 k2 n H1 H2. rewrite Hgid in H1, H2.
      destruct (decide (id d = k1)) as [E1|E1], (decide (id d = k2)) as [E2|E2].
      * congruence.
      * injection H1 as <-. apply Hbelow in H2. lia.
      * injection H2 as <-. apply Hbelow in H1. lia.
      * by apply (Hinj k1 k2 n).
Qed.

Lemma reconcile_fold_accounted alerts entries : ∀ st,
  accounted st → accounted (foldl (Plain.reconcileStep alerts) st entries).
Proof.
  induction entries as [|e entries IH]; intros st Hacc; cbn [foldl];
    [exact Hacc|].
  apply IH, reconcileStep_accounted, Hacc.
Qed.

Lemma removeIfDeleted_accounted cranes st key :
  accounted st → accounted (removeIfDeleted cranes st key).
Proof.
  intros Hacc. unfold removeIfDeleted.
  destruct (find _ cranes); [exact Hacc|].
  destruct (craneObjects st !! key) as [obj|] eqn:Hobj; [|exact Hacc].
  destruct Hacc as (Hnd & Hlt & Hiff & Hdisj & Hinj).
  set (g := group_id (group obj)).
  assert (Hkey : groupIdOf st key = Some g)
    by (unfold groupIdOf; rewrite Hobj; reflexivity).
  set (st' := set_craneObjects (delete key) (set_scene (remove g) st)).
  assert (Hgid : ∀ k, groupIdOf st' k =
                      if decide (key = k) then None else groupIdOf st k).
  { intros k. unfold groupIdOf, st'. cbn [craneObjects set_craneObjects set_scene].
    rewrite lookup_delete. case_decide; reflexivity. }
  unfold accounted.
  change (scene st') with (remove g (scene st)).
  change (nextObjectId st') with (nextObjectId st).
  assert (Hli : ∀ n, isLineId st' n ↔ isLineId st n) by reflexivity.
  split; [by apply NoDup_remove|]. split.
  { intros n Hn. eapply Hlt, elem_of_remove, Hn. }
  split; [|split].
  - intros n. rewrite Hli. split.
    + intros Hin.
      assert (n ≠ g) as Hne by (intros ->; by apply (remove_gone g (scene st))).
      apply elem_of_remove in Hin. apply Hiff in Hin as [[k Hk]|Hline]; [|by right].
      left. exists k. rewrite Hgid.
      destruct (decide (key = k)) as [E|_]; [congruence|exact Hk].
    + intros [[k Hk]|Hline].
      * rewrite Hgid in Hk. destruct (decide (key = k)) as [|Hne]; [discriminate|].
        apply elem_of_remove_ne.
        -- apply Hiff. left. by exists k.
        -- intros ->. apply Hne. by apply (Hinj key k g).
      * apply elem_of_remove_ne; [apply Hiff; by right|].
        intros ->. apply (Hdisj g); [by exists key|exact Hline].
  - intros n [k Hk]. rewrite Hli. rewrite Hgid in Hk.
    destruct (decide (key = k)); [discriminate|]. apply Hdisj. by exists k.
  - intros k1 k2 n H1 H2. rewrite Hgid in H1, H2.
    destruct (decide (key = k1)), (decide (key = k2)); try discriminate.
    by apply (Hinj k1 k2 n).
Qed.

Lemma removeDeleted_accounted cranes keys : ∀ st,
  accounted st → accounted (foldl (removeIfDeleted cranes) st keys).
Proof.
  induction keys as [|key keys IH]; intros st Hacc; cbn [foldl]; [exact Hacc|].
  apply IH, removeIfDeleted_accounted, Hacc.
Qed.

Lemma elem_of_removeAll ls : ∀ children x,
  x ∈ children → (∀ line, line ∈ ls → line_id line ≠ x) →
  x ∈ removeAll ls children.
Proof.
  induction ls as [|l ls IH]; intros children x Hin Hne;
    unfold removeAll; cbn [foldl]; [exact Hin|].
  apply IH.
  - apply elem_of_remove_ne; [exact Hin|].
    intros ->. apply (Hne l); [apply elem_of_cons; by left|reflexivity].
  - intros line Hline. apply Hne, elem_of_cons. by right.
Qed.

Lemma cleared_accounted st : accounted st → accounted (cleared st).
Proof.
  intros (Hnd & Hlt & Hiff & Hdisj & Hinj).
  destruct (removeAll_spec (warningLines st) (scene st) Hnd) as (Hnd' & Hsub & Hgone).
  assert (Hgi : ∀ n, isGroupId (cleared st) n ↔ isGroupId st n) by reflexivity.
  unfold accounted.
  change (scene (cleared st)) with (removeAll (warningLines st) (scene st)).
  change (nextObjectId (cleared st)) with (nextObjectId st).
  split; [exact Hnd'|]. split; [intros n Hn; apply Hlt, Hsub, Hn|].
  split; [|split].
  - intros n. rewrite Hgi. split.
    + intros Hin. pose proof (Hsub n Hin) as Hin0.
      apply Hiff in Hin0 as [Hg|[line [Hline Hid]]]; [by left|].
      exfalso. apply (Hgone line Hline). rewrite Hid. exact Hin.
    + intros [Hg|[line [Hline _]]]; [|by apply elem_of_nil in Hline].
      apply elem_of_removeAll; [apply Hiff; by left|].
      intros line Hline Hid. apply (Hdisj n Hg). by exists line.
  - intros n _ [line [Hline _]]. by apply elem_of_nil in Hline.
  - exact Hinj.
Qed.

Section WithEngine.

Variable getWorldPosition : Group → Group → Mesh → Vector3.

Abbreviation updateThreeScene := (Scene.updateThreeScene getWorldPosition).
Abbreviation drawStep := (Plain.drawStep getWorldPosition).

Lemma drawStep_accounted st c :
  accounted st → accounted (drawStep st c).
Proof.
  intros Hacc. pose proof (drawStep_fields getWorldPosition st c) as Hc.
  destruct (drawnIndicator getWorldPosition (craneObjects st) c) as [looks|];
    [|by rewrite Hc].
  destruct Hc as (line & _ & Hid & Hw & Hs & Hn).
  destruct Hacc as (Hnd & Hlt & Hiff & Hdisj & Hinj).
  destruct (drawStep_craneObjects getWorldPosition st c) as [Hobjs _].
  assert (Hg : ∀ k, groupIdOf (drawStep st c) k = groupIdOf st k)
    by (intros k; unfold groupIdOf; by rewrite Hobjs).
  assert (Hgi : ∀ n, isGroupId (drawStep st c) n ↔ isGroupId st n).
  { intros n. unfold isGroupId. split; intros [k Hk]; exists k; by rewrite ?Hg in *. }
  assert (Hli : ∀ n, isLineId (drawStep st c) n
                     ↔ isLineId st n ∨ n = nextObjectId st).
  { intros n. unfold isLineId. rewrite Hw. split.
    - intros [l [Hl Hln]]. apply elem_of_app in Hl as [Hl|Hl].
      + left. by exists l.
      + apply list_elem_of_singleton in Hl. subst l. right. congruence.
    - intros [[l [Hl Hln]]| ->].
      + exists l. split; [apply elem_of_app; by left|exact Hln].
      + exists line. split; [|exact Hid]. apply elem_of_app. right.
        by apply list_elem_of_singleton. }
  destruct (tidy_add (scene st) (nextObjectId st) (nextObjectId st + 1)
              Hnd Hlt ltac:(lia)) as [Hnd' Hlt'].
  unfold accounted. rewrite Hs, Hn.
  split; [exact Hnd'|]. split; [exact Hlt'|]. split; [|split].
  - intros n. rewrite Hgi, Hli, elem_of_app, list_elem_of_singleton, Hiff. tauto.
  - intros n Hgn. apply Hgi in Hgn. rewrite Hli.
    intros [Hline| ->]; [by apply (Hdisj n)|].
    assert (nextObjectId st ∈ scene st) as Hin by (apply Hiff; by left).
    apply Hlt in Hin. lia.
  - intros k1 k2 n. rewrite !Hg. apply Hinj.
Qed.

Lemma draw_fold_accounted cs : ∀ st,
  accounted st → accounted (foldl drawStep st cs).
Proof.
  induction cs as [|c cs IH]; intros st Hacc; cbn [foldl]; [exact Hacc|].
  apply IH, drawStep_accounted, Hacc.
Qed.

(** Every pass of a tick keeps the books, and so does a tick that an
    exception cuts short, wherever it stops. *)
Lemma initialised_tick_accounted state st :
  isInitialized st = true →
  accounted st → accounted (updateThreeScene (Some state) st).
Proof.
  intros Hinit Hacc. rewrite tick_spec by exact Hinit.
  destruct (entitiesRaise state st); cbn [after throws].
  - unfold entityPass. apply reconcile_fold_accounted, Hacc.
  - rewrite updateWarningLines_spec. cbn [after].
    apply draw_fold_accounted, cleared_accounted. unfold afterEntities, entityPass.
    apply removeDeleted_accounted, reconcile_fold_accounted, Hacc.
Qed.

(** X1. [updateThreeScene] keeps the scene and the two registries in
    step: after a tick the scene's children are exactly the root groups
    of the objects in [craneObjects] and the lines in [warningLines],
    each once, with no child left over and none missing. This holds also
    when the tick ends by an exception. *)
Theorem updateThreeScene_accounted (state : option Data) (st : State) :
  accounted st → accounted (updateThreeScene state st).
Proof.
  intros Hacc. destruct state as [state|]; [|exact Hacc].
  destruct (isInitialized st) eqn:Hinit.
  - by apply initialised_tick_accounted.
  - unfold Scene.updateThreeScene. rewrite Hinit. exact Hacc.
Qed.

(** *** The object of a listed entity after a tick *)

Lemma entryIds_imap_shift (g : nat → nat) (cranes : list CraneData) :
  entryIds (imap (λ n, pair (g n)) cranes) = id <$> cranes.
Proof.
  unfold entryIds. rewrite fmap_imap.
  rewrite (imap_ext _ (λ _, id) cranes) by reflexivity.
  apply imap_const.
Qed.

Lemma lastEntity_imap k (cranes : list CraneData) : ∀ (g : nat → nat) d,
  lastEntity k d (imap (λ n, pair (g n)) cranes) = lastOf k d cranes.
Proof.
  induction cranes as [|c cranes IH]; intros g d; [reflexivity|].
  rewrite imap_cons. unfold lastEntity, lastOf in *. cbn [foldl snd].
  apply (IH (g ∘ S)).
Qed.

Lemma lastOf_notin k d (cranes : list CraneData) :
  k ∉ id <$> cranes → lastOf k d cranes = d.
Proof.
  revert d. induction cranes as [|c cranes IH]; intros d Hk; [reflexivity|].
  rewrite fmap_cons in Hk. apply not_elem_of_cons in Hk as [Hne Hk].
  unfold lastOf in *. cbn [foldl]. rewrite decide_False by congruence.
  by apply IH.
Qed.

Lemma reconcile_fold_next alerts entries : ∀ st,
  (nextObjectId st ≤ nextObjectId (foldl (Plain.reconcileStep alerts) st entries))%N.
Proof.
  induction entries as [|[i d] entries IH]; intros st; cbn [foldl]; [lia|].
  etransitivity; [|apply IH].
  destruct (reconcileStep_fields alerts st i d) as (_ & _ & ->).
  destruct (craneObjects st !! id d); lia.
Qed.

(** The entry that first names an id builds the object, unless one is
    there already; the entry that last names it has the final word on
    the pose. *)
Lemma tick_object_of state st pre d post :
  isInitialized st = true →
  entitiesRaise state st = false →
  default [] (cranes state) = pre ++ d :: post →
  id d ∉ id <$> pre →
  ∃ n, (nextObjectId st ≤ n)%N
    ∧ craneObjects (updateThreeScene (Some state) st) !! id d =
        Some (writeCraneObject (lastOf (id d) d post) (tickAlerts state !! id d)
                (default (buildCraneObject d (length pre) n)
                         (craneObjects st !! id d))).
Proof.
  intros Hinit Hno Hcranes Hpre.
  set (alerts := tickAlerts state).
  set (A := imap pair pre).
  set (B := imap ((λ n, pair (length pre + n)) ∘ S) post).
  assert (Hentries : tickEntries state = A ++ (length pre, d) :: B).
  { unfold tickEntries. rewrite Hcranes, imap_app, imap_cons.
    cbn. by rewrite Nat.add_0_r. }
  exists (nextObjectId (foldl (Plain.reconcileStep alerts) st A)).
  split; [apply reconcile_fold_next|].
  rewrite tick_lookup by assumption.
  rewrite decide_True.
  2:{ unfold tickIds. rewrite Hcranes, fmap_app, fmap_cons.
      apply elem_of_app. right. apply elem_of_cons. by left. }
  fold alerts. rewrite Hentries, foldl_app. cbn [foldl].
  erewrite fold_lookup_Some; last first.
  { rewrite reconcileStep_lookup, decide_True by reflexivity.
    rewrite fold_lookup_notin; [reflexivity|].
    unfold A. change (imap pair pre) with (imap (λ n, pair (Datatypes.id n)) pre).
    rewrite entryIds_imap_shift. exact Hpre. }
  rewrite writes_absorb. unfold B.
  change ((λ n, pair (length pre + n)) ∘ S)
    with (λ n, @pair nat CraneData ((λ m, length pre + S m)%nat n)).
  rewrite lastEntity_imap. reflexivity.
Qed.

Lemma ownNamesOnly_elem (ids : list string) k :
  ownNamesOnly ids → k ∈ ids → ¬ JS.inherited k.
Proof. unfold ownNamesOnly. rewrite Forall_forall. intros H Hk. by apply H. Qed.

(** X2. After a tick on an initialised scene with a snapshot none of
    whose entity ids names a property of the prototype, the object of a
    listed entity is the object that was there under its id, or else a
    new one built from the entry that first names the id (base position,
    mast and boom from that entry, colour from its index), written over
    with the pose of the entry that last names the id and with the
    current alert. When the id is named once, the two boom rotations are
    those of that entry's own angles. *)
Theorem tick_first_builds_last_poses
    (state : Data) (st : State) (pre post : list CraneData) (d : CraneData) :
  isInitialized st = true →
  ownNamesOnly (id <$> default [] (cranes state)) →
  default [] (cranes state) = pre ++ d :: post →
  id d ∉ id <$> pre →
  ∃ n obj,
    (nextObjectId st ≤ n)%N
    ∧ craneObjects (updateThreeScene (Some state) st) !! id d = Some obj
    ∧ obj = writeCraneObject (lastOf (id d) d post)
              (default ∅ (status state ≫= crane_alerts) !! id d)
              (default (buildCraneObject d (length pre) n)
                       (craneObjects st !! id d))
    ∧ (craneObjects st !! id d = None →
         group obj = mkGroup n (id d) (mkVector3 (base_x d) 0 (base_y d)) origin)
    ∧ (id d ∉ id <$> post →
         y (group_rotation (boomGroup obj)) = slewRad d
         ∧ z (group_rotation (boomGroup obj)) = luffRad d).
Proof.
  intros Hinit Hown Hcranes Hpre.
  destruct (tick_object_of state st pre d post Hinit
              (ownNamesOnly_no_raise state st Hown) Hcranes Hpre)
    as (n & Hn & Hlook).
  assert (Hd : ¬ JS.inherited (id d)).
  { apply (ownNamesOnly_elem _ _ Hown). rewrite Hcranes, fmap_app, fmap_cons.
    apply elem_of_app. right. apply elem_of_cons. by left. }
  unfold tickAlerts in Hlook. rewrite effectiveAlerts_own in Hlook by exact Hd.
  eexists n, _. split; [exact Hn|]. split; [exact Hlook|].
  split; [reflexivity|]. split.
  - intros Hnone. rewrite writeCraneObject_group, Hnone. reflexivity.
  - intros Hpost. rewrite (lastOf_notin _ _ _ Hpost).
    unfold writeCraneObject.
    destruct (alerting _) as [l|];
      [destruct (decide (l = "DANGER" ∨ l = "WARNING"))|]; split; reflexivity.
Qed.

Lemma writeCraneObject_obj_color d a obj :
  obj_color (writeCraneObject d a obj) = obj_color obj.
Proof.
  unfold writeCraneObject. destruct (alerting a) as [l|]; [|reflexivity].
  cbv zeta. destruct (decide (l = "DANGER" ∨ l = "WARNING")); reflexivity.
Qed.

(** X3. After a tick on an initialised scene with a snapshot none of
    whose entity ids names a property of the prototype, the tip marker
    of every listed entity is coloured by the entity's current level
    alone: white when the level is NORMAL, empty or absent; the level's
    colour when the table has it; black when the level names a property
    of the prototype, whose value is handed to [setHex] as it is; and
    the crane's own colour for any other level. The ring is at the
    crane's colour and opacity 0.15 when the level is NORMAL, empty or
    absent, and at the level's colour and opacity 0.25 when the level is
    WARNING or DANGER. *)
Theorem tick_colours_by_current_level (state : Data) (st : State) (k : string) :
  isInitialized st = true →
  ownNamesOnly (id <$> default [] (cranes state)) →
  k ∈ id <$> default [] (cranes state) →
  ∃ obj,
    craneObjects (updateThreeScene (Some state) st) !! k = Some obj
    ∧ match alerting (default ∅ (status state ≫= crane_alerts) !! k) with
      | None =>
          coloring obj = (0xffffff%Z, (obj_color obj, 0.15%float))
      | Some l =>
          (coloring obj).1 =
            match ALERT_LEVEL_COLORS_own l with
            | Some c => c
            | None => if decide (JS.inherited l) then 0%Z else obj_color obj
            end
          ∧ (l = "DANGER" ∨ l = "WARNING" →
             ∃ c, ALERT_LEVEL_COLORS_own l = Some c
                  ∧ coloring obj = (c, (c, 0.25%float)))
      end.
Proof.
  intros Hinit Hown Hk.
  pose proof (ownNamesOnly_no_raise state st Hown) as Hno.
  destruct (tick_lookup_in getWorldPosition state st k Hinit Hno Hk) as [base Hb].
  destruct (tickIds_inhabited state k Hk) as [d0 _].
  eexists. split; [apply (Hb d0)|].
  rewrite writeCraneObject_coloring, writeCraneObject_obj_color.
  unfold tickAlerts.
  rewrite effectiveAlerts_own by exact (ownNamesOnly_elem _ _ Hown Hk).
  destruct (alerting (default ∅ (status state ≫= crane_alerts) !! k)) as [l|];
    [|reflexivity].
  assert (Hcol : hexOf (or_default (ALERT_LEVEL_COLORS l) (obj_color base))
                 = match ALERT_LEVEL_COLORS_own l with
                   | Some c => c
                   | None => if decide (JS.inherited l) then 0%Z else obj_color base
                   end).
  { unfold ALERT_LEVEL_COLORS, ALERT_LEVEL_COLORS_own, JS.get.
    repeat case_decide; reflexivity. }
  cbv zeta. rewrite Hcol.
  destruct (decide (l = "DANGER" ∨ l = "WARNING")) as [Hhigh|Hlow].
  - split; [reflexivity|]. intros _.
    destruct Hhigh as [-> | ->]; eexists; split; reflexivity.
  - split; [reflexivity|]. intros Hhigh. contradiction.
Qed.

Lemma omap_length_le {A B} (f : A → option B) (l : list A) :
  length (omap f l) ≤ length l.
Proof.
  induction l as [|a l IH]; cbn [omap list_omap]; [done|].
  destruct (f a); cbn [length]; lia.
Qed.

(** X4. On an initialised scene and with a snapshot neither whose
    entity ids nor whose collision records' ids name a property of the
    prototype, a collision record whose level is anything but NORMAL and
    whose two entities are in the mapping after the tick is drawn, also
    when its level is not one that the colour table has: the line is
    then white. The overlay never holds more lines than the snapshot has
    collision records. *)
Theorem tick_draws_unknown_level_white
    (state : Data) (st : State) (c : Collision) (objA objB : CraneObject) :
  isInitialized st = true →
  ownNamesOnly (id <$> default [] (cranes state)) →
  Forall (λ c, ownNamesOnly [crane_a_id c; crane_b_id c])
         (default [] (collisions state)) →
  c ∈ default [] (collisions state) →
  alert_level c ≠ "NORMAL" →
  ¬ JS.inherited (alert_level c) →
  craneObjects (updateThreeScene (Some state) st) !! crane_a_id c = Some objA →
  craneObjects (updateThreeScene (Some state) st) !! crane_b_id c = Some objB →
  (SegmentGeometry (tipWorldPosition getWorldPosition objA)
                   (tipWorldPosition getWorldPosition objB),
   dashed (Hex (default 0xFFFFFF%Z (ALERT_LEVEL_COLORS_own (alert_level c)))))
    ∈ appearance <$> warningLines (updateThreeScene (Some state) st)
  ∧ length (warningLines (updateThreeScene (Some state) st))
    ≤ length (default [] (collisions state)).
Proof.
  intros Hinit Hown Hpairs Hc Hlevel Hnot HA HB.
  assert (Hun : updateThreeScene (Some state) st =
                returns (foldl drawStep (cleared (afterEntities state st))
                               (default [] (collisions state)))).
  { apply tick_unfold; [exact Hinit|by apply ownNamesOnly_no_raise|].
    eapply Forall_impl; [exact Hpairs|]. intros c' Hc'.
    apply Forall_cons in Hc' as [Ha Hc']. apply Forall_cons in Hc' as [Hb _].
    by apply raisesOn_own. }
  rewrite Hun in *. cbn [after returns] in *.
  destruct (draw_fold_craneObjects getWorldPosition (default [] (collisions state))
              (cleared (afterEntities state st))) as [Hobjs _].
  rewrite Hobjs in HA, HB.
  assert (Hlen : ∀ l, length (appearance <$> l) = length l)
    by (intros l; apply length_fmap).
  rewrite <- Hlen, draw_fold_lines. cbn [fmap list_fmap app warningLines cleared
    set_warningLines set_scene]. split.
  - apply list_elem_of_omap. exists c. split; [exact Hc|].
    unfold drawnIndicator. rewrite decide_False by exact Hlevel.
    rewrite HA, HB. f_equal. f_equal. f_equal.
    unfold ALERT_LEVEL_COLORS, ALERT_LEVEL_COLORS_own, JS.get.
    repeat case_decide; try reflexivity. contradiction.
  - apply omap_length_le.
Qed.

(** X5. A snapshot whose crane list is missing or empty takes every
    object away: after the tick the mapping is empty, and what is left
    in the scene are the overlay's lines only. *)
Theorem tick_without_cranes_clears (state : Data) (st : State) :
  isInitialized st = true →
  accounted st →
  default [] (cranes state) = [] →
  craneObjects (updateThreeScene (Some state) st) = ∅
  ∧ ∀ n, n ∈ scene (updateThreeScene (Some state) st) →
         isLineId (updateThreeScene (Some state) st) n.
Proof.
  intros Hinit Hacc Hnil.
  assert (Hno : entitiesRaise state st = false)
    by (unfold entitiesRaise, tickEntries; rewrite Hnil; reflexivity).
  assert (Hempty : craneObjects (updateThreeScene (Some state) st) = ∅).
  { apply map_eq. intros k. rewrite tick_lookup by assumption.
    rewrite lookup_empty. apply decide_False.
    unfold tickIds. rewrite Hnil. apply not_elem_of_nil. }
  split; [exact Hempty|].
  pose proof (initialised_tick_accounted state st Hinit Hacc) as Hacc'.
  intros n Hn. destruct Hacc' as (_ & _ & Hiff & _).
  apply Hiff in Hn as [[k Hk]|Hline]; [|exact Hline].
  unfold groupIdOf in Hk. rewrite Hempty, lookup_empty in Hk. discriminate.
Qed.

End WithEngine.

(** *** The scenario reset *)

Lemma removeIds_spec ids : ∀ children,
  NoDup children →
  NoDup (removeIds ids children)
  ∧ (∀ x, x ∈ removeIds ids children → x ∈ children ∧ x ∉ ids).
Proof.
  induction ids as [|g ids IH]; intros children Hnd; unfold removeIds; cbn [foldl].
  - split; [exact Hnd|]. intros x Hx. split; [exact Hx|apply not_elem_of_nil].
  - destruct (IH (remove g children) (NoDup_remove _ _ Hnd)) as [Hnd' Hsub].
    split; [exact Hnd'|]. intros x Hx. apply Hsub in Hx as [Hx Hids].
    split; [eapply elem_of_remove, Hx|].
    apply not_elem_of_cons. split; [|exact Hids].
    intros ->. exact (remove_gone g children Hnd Hx).
Qed.

Lemma elem_of_removeIds ids : ∀ children x,
  x ∈ children → x ∉ ids → x ∈ removeIds ids children.
Proof.
  induction ids as [|g ids IH]; intros children x Hin Hne;
    unfold removeIds; cbn [foldl]; [exact Hin|].
  apply not_elem_of_cons in Hne as [Hg Hne].
  apply IH; [|exact Hne]. by apply elem_of_remove_ne.
Qed.

Lemma clearCraneObjects_unfold st :
  Page.clearCraneObjects st =
    set_craneObjects (λ _, ∅)
      (set_scene
         (removeIds (omap (groupIdOf st) (map_to_list (craneObjects st)).*1)) st).
Proof.
  unfold Page.clearCraneObjects. f_equal.
  generalize ((map_to_list (craneObjects st)).*1). intros keys.
  assert (Hgen : ∀ s, craneObjects s = craneObjects st →
            foldl (λ s key,
                     match craneObjects s !! key with
                     | Some obj => set_scene (remove (group_id (group obj))) s
                     | None => s
                     end) s keys
            = set_scene (removeIds (omap (groupIdOf st) keys)) s).
  { induction keys as [|key keys IH]; intros s Hs; cbn [foldl omap list_omap].
    - destruct s; reflexivity.
    - unfold groupIdOf at 1. rewrite Hs.
      destruct (craneObjects st !! key) as [obj|]; cbn [fmap option_fmap option_map].
      + rewrite IH by exact Hs. reflexivity.
      + apply IH, Hs. }
  apply Hgen. reflexivity.
Qed.

(** The reset empties [craneObjects] and takes exactly the objects' root
    groups out of the scene; the overlay is not touched. *)
Lemma clearCraneObjects_keeps_overlay (st : State) :
  accounted st →
  craneObjects (Page.clearCraneObjects st) = ∅
  ∧ warningLines (Page.clearCraneObjects st) = warningLines st
  ∧ (∀ n, n ∈ scene (Page.clearCraneObjects st) ↔ isLineId st n)
  ∧ accounted (Page.clearCraneObjects st).
Proof.
  intros (Hnd & Hlt & Hiff & Hdisj & Hinj).
  rewrite clearCraneObjects_unfold.
  set (gids := omap (groupIdOf st) (map_to_list (craneObjects st)).*1).
  assert (Hgids : ∀ n, n ∈ gids ↔ isGroupId st n).
  { intros n. unfold gids. rewrite list_elem_of_omap. split.
    - intros [k [_ Hk]]. by exists k.
    - intros [k Hk]. exists k. split; [|exact Hk].
      apply elem_of_keys. unfold groupIdOf in Hk.
      destruct (craneObjects st !! k); [eauto|discriminate]. }
  destruct (removeIds_spec gids (scene st) Hnd) as [Hnd' Hsub].
  assert (Hscene : ∀ n, n ∈ removeIds gids (scene st) ↔ isLineId st n).
  { intros n. split.
    - intros Hin. apply Hsub in Hin as [Hin Hnot].
      apply Hiff in Hin as [Hg|Hl]; [|exact Hl]. exfalso. by apply Hnot, Hgids.
    - intros Hl. apply elem_of_removeIds; [apply Hiff; by right|].
      intros Hg. apply Hgids in Hg. by apply (Hdisj n). }
  split; [reflexivity|]. split; [reflexivity|]. split; [exact Hscene|].
  split; [exact Hnd'|]. split.
  { intros n Hn. apply Hlt. by apply Hsub in Hn as [Hn _]. }
  split; [|split].
  - intros n. rewrite (Hscene n). split; [by right|].
    intros [[k Hk]|Hl]; [discriminate|exact Hl].
  - intros n [k Hk]. discriminate.
  - intros k1 k2 n Hk. discriminate.
Qed.

Section ResetThenTick.

Variable getWorldPosition : Group → Group → Mesh → Vector3.

(** X7. After the scenario reset, the next tick, with a snapshot none
    of whose entity ids names a property of the prototype, builds every
    listed entity anew from the snapshot: the object under an id is a
    fresh build from the entry that first names it, placed at that
    entry's base position, whatever object the id had before the
    reset. *)
Theorem reset_then_tick_rebuilds
    (state : Data) (st : State) (pre post : list CraneData) (d : CraneData) :
  isInitialized st = true →
  ownNamesOnly (id <$> default [] (cranes state)) →
  default [] (cranes state) = pre ++ d :: post →
  id d ∉ id <$> pre →
  ∃ n obj,
    (nextObjectId st ≤ n)%N
    ∧ craneObjects
        (Scene.updateThreeScene getWorldPosition (Some state)
           (Page.clearCraneObjects st)) !! id d = Some obj
    ∧ obj = writeCraneObject (lastOf (id d) d post)
              (default ∅ (status state ≫= crane_alerts) !! id d)
              (buildCraneObject d (length pre) n)
    ∧ group_position (group obj) = mkVector3 (base_x d) 0 (base_y d)
    ∧ mastHeight obj = mast_height d ∧ boomLength obj = boom_length d.
Proof.
  intros Hinit Hown Hcranes Hpre.
  assert (Hinit' : isInitialized (Page.clearCraneObjects st) = true)
    by (rewrite clearCraneObjects_unfold; exact Hinit).
  destruct (tick_object_of getWorldPosition state (Page.clearCraneObjects st)
              pre d post Hinit' (ownNamesOnly_no_raise state _ Hown) Hcranes Hpre)
    as (n & Hn & Hlook).
  assert (Hd : ¬ JS.inherited (id d)).
  { apply (ownNamesOnly_elem _ _ Hown). rewrite Hcranes, fmap_app, fmap_cons.
    apply elem_of_app. right. apply elem_of_cons. by left. }
  unfold tickAlerts in Hlook. rewrite effectiveAlerts_own in Hlook by exact Hd.
  assert (Hnone : craneObjects (Page.clearCraneObjects st) !! id d = None)
    by (rewrite clearCraneObjects_unfold; apply lookup_empty).
  rewrite Hnone in Hlook. cbn [default] in Hlook.
  assert (Hnext : nextObjectId (Page.clearCraneObjects st) = nextObjectId st)
    by (rewrite clearCraneObjects_unfold; reflexivity).
  rewrite Hnext in Hn.
  eexists n, _. split; [exact Hn|]. split; [exact Hlook|].
  split; [reflexivity|].
  unfold writeCraneObject.
  destruct (alerting _) as [l|];
    [destruct (decide (l = "DANGER" ∨ l = "WARNING"))|]; repeat split.
Qed.

End ResetThenTick.

(** A scene with no object, no line and no child is accounted for,
    whatever its counter. *)
Lemma accounted_empty (initialized : bool) (n : N) :
  accounted (mkState initialized [] ∅ [] n).
Proof.
  split; [apply NoDup_nil_2|]. split; [intros m Hm; by apply elem_of_nil in Hm|].
  split; [|split].
  - intros m. split; [intros Hm; by apply elem_of_nil in Hm|].
    intros [[k Hk]|[line [Hline _]]]; [discriminate|by apply elem_of_nil in Hline].
  - intros m [k Hk]. discriminate.
  - intros k1 k2 m Hk. discriminate.
Qed.

(** *** The code on sample snapshots *)

Import Samples MoreSamples.

(** The scene after a first tick with entities A and B is accounted
    for. *)
Lemma sample_tick_accounted : accounted (tick snapshotAB emptyScene).
Proof.
  unfold tick. apply initialised_tick_accounted; [reflexivity|].
  apply accounted_empty.
Qed.

(** Witness for X1: a second tick on the scene of entities A and B. *)
Lemma X1_witness :
  accounted (tick snapshotAB emptyScene)
  ∧ accounted (tick snapshotC (tick snapshotAB emptyScene)).
Proof.
  split; [exact sample_tick_accounted|].
  exact (updateThreeScene_accounted sumOfPositions (Some snapshotC)
           (tick snapshotAB emptyScene) sample_tick_accounted).
Defined.

(** Witness for X2: entity B, listed second and once, on a fresh
    scene. *)
Lemma X2_witness :
  ∃ obj,
    craneObjects (tick snapshotAB emptyScene) !! "B" = Some obj
    ∧ y (group_rotation (boomGroup obj)) = slewRad craneB
    ∧ z (group_rotation (boomGroup obj)) = luffRad craneB.
Proof.
  assert (Hown : ownNamesOnly (id <$> default [] (cranes snapshotAB)))
    by (repeat constructor; apply not_inherited; vm_compute; reflexivity).
  destruct (tick_first_builds_last_poses sumOfPositions snapshotAB emptyScene
              [craneA] [] craneB eq_refl Hown eq_refl)
    as (n & obj & _ & Hlook & _ & _ & Hrot).
  { intros H. apply list_elem_of_singleton in H. discriminate. }
  exists obj. split; [exact Hlook|].
  apply Hrot. intros H. by apply elem_of_nil in H.
Defined.

(** Witness for X3: entity A at DANGER. *)
Lemma X3_witness :
  ∃ obj,
    craneObjects (tick snapshotAB emptyScene) !! "A" = Some obj
    ∧ coloring obj = (0xFF0000%Z, (0xFF0000%Z, 0.25%float)).
Proof.
  assert (Hown : ownNamesOnly (id <$> default [] (cranes snapshotAB)))
    by (repeat constructor; apply not_inherited; vm_compute; reflexivity).
  destruct (tick_colours_by_current_level sumOfPositions snapshotAB emptyScene "A"
              eq_refl Hown) as (obj & Hlook & Hcol).
  { apply elem_of_cons. by left. }
  exists obj. split; [exact Hlook|].
  assert (Ha : alerting (default ∅ (status snapshotAB ≫= crane_alerts) !! "A")
               = Some "DANGER") by (vm_compute; reflexivity).
  rewrite Ha in Hcol. destruct Hcol as [_ Hring].
  destruct Hring as (c & Hc & Hring); [by left|].
  injection Hc as <-. exact Hring.
Defined.

(** Witness for X4: a collision record at the level "CRITICAL" between
    entities A and B. *)
Lemma X4_witness :
  ALERT_LEVEL_COLORS_own (alert_level (pair_AB "CRITICAL")) = None
  ∧ ∃ objA objB,
      craneObjects (tick snapshotAB_critical emptyScene) !! "A" = Some objA
      ∧ craneObjects (tick snapshotAB_critical emptyScene) !! "B" = Some objB
      ∧ (SegmentGeometry (tipWorldPosition sumOfPositions objA)
                         (tipWorldPosition sumOfPositions objB),
         dashed (Hex 0xFFFFFF%Z))
        ∈ appearance <$> warningLines (tick snapshotAB_critical emptyScene).
Proof.
  split; [reflexivity|].
  assert (∃ o, craneObjects (tick snapshotAB_critical emptyScene) !! "A" = Some o)
    as [objA HA] by (eexists; vm_compute; reflexivity).
  assert (∃ o, craneObjects (tick snapshotAB_critical emptyScene) !! "B" = Some o)
    as [objB HB] by (eexists; vm_compute; reflexivity).
  exists objA, objB. split; [exact HA|]. split; [exact HB|].
  assert (Hown : ownNamesOnly (id <$> default [] (cranes snapshotAB_critical)))
    by (repeat constructor; apply not_inherited; vm_compute; reflexivity).
  assert (Hpairs : Forall (λ c, ownNamesOnly [crane_a_id c; crane_b_id c])
                          (default [] (collisions snapshotAB_critical)))
    by (repeat constructor; apply not_inherited; vm_compute; reflexivity).
  destruct (tick_draws_unknown_level_white sumOfPositions snapshotAB_critical
              emptyScene (pair_AB "CRITICAL") objA objB eq_refl Hown Hpairs)
    as [Hin _].
  - apply elem_of_cons. by left.
  - discriminate.
  - apply not_inherited. vm_compute. reflexivity.
  - exact HA.
  - exact HB.
  - exact Hin.
Defined.

(** Witness for X5: a snapshot that lists nothing, after one with
    entities A and B. *)
Lemma X5_witness :
  craneObjects (tick snapshotAB emptyScene) ≠ ∅
  ∧ craneObjects (tick snapshotNone (tick snapshotAB emptyScene)) = ∅.
Proof.
  split.
  - intros H. apply (f_equal size) in H. vm_compute in H. discriminate.
  - destruct (tick_without_cranes_clears sumOfPositions snapshotNone
                (tick snapshotAB emptyScene) eq_refl sample_tick_accounted eq_refl)
      as [Hempty _].
    exact Hempty.
Defined.

(** Witness for X7: entity A comes back after the reset with another
    base position and is placed there. *)
Lemma X7_witness :
  ∃ obj,
    craneObjects
      (tick snapshotA_moved
         (Page.clearCraneObjects (tick (snapshot [craneA] [] []) emptyScene)))
      !! "A" = Some obj
    ∧ group_position (group obj) = mkVector3 7 0 9
    ∧ mastHeight obj = 55%float.
Proof.
  assert (Hown : ownNamesOnly (id <$> default [] (cranes snapshotA_moved)))
    by (repeat constructor; apply not_inherited; vm_compute; reflexivity).
  destruct (reset_then_tick_rebuilds sumOfPositions snapshotA_moved
              (tick (snapshot [craneA] [] []) emptyScene) [] [] craneA'
              eq_refl Hown eq_refl)
    as (n & obj & _ & Hlook & _ & Hpos & Hmast & _).
  { intros H. by apply elem_of_nil in H. }
  exists obj. split; [exact Hlook|]. split; [exact Hpos|exact Hmast].
Defined.

End SceneMore.

(* ===================================================================== *)
(** ** Further facts about the transport channel *)
(* ===================================================================== *)

Module ChannelMore.
Import Wire Channel MoreNotions ChannelFacts.

Lemma scheduleReconnect_rest st :
  display (scheduleReconnect st) = display st
  ∧ ws (scheduleReconnect st) = ws st
  ∧ sockets (scheduleReconnect st) = sockets st.
Proof. unfold scheduleReconnect. destruct (reconnectTimer st); done. Qed.

Lemma connectWebSocket_display throws st :
  display (connectWebSocket throws st) = display st.
Proof.
  unfold connectWebSocket. case_decide; [reflexivity|].
  destruct throws; [|reflexivity].
  match goal with |- display (scheduleReconnect ?s) = _ =>
    destruct (scheduleReconnect_rest s) as (-> & _) end.
  reflexivity.
Qed.

Lemma updateConnectionStatus_rest connected st :
  display (updateConnectionStatus connected st) = display st
  ∧ ws (updateConnectionStatus connected st) = ws st
  ∧ sockets (updateConnectionStatus connected st) = sockets st.
Proof.
  unfold updateConnectionStatus.
  destruct (statusEl st); [destruct connected|]; done.
Qed.

Lemma onopen_rest st :
  display (onopen st) = display st ∧ ws (onopen st) = ws st
  ∧ sockets (onopen st) = sockets st.
Proof.
  unfold onopen.
  set (st1 := set_isConnected true (console_write LogConnected st)).
  destruct (updateConnectionStatus_rest true st1) as (Hd & Hw & Hs).
  destruct (reconnectTimer (updateConnectionStatus true st1));
    cbn; unfold display in *; cbn; done.
Qed.

Lemma onclose_rest code st :
  display (onclose code st) = display st ∧ ws (onclose code st) = ws st
  ∧ sockets (onclose code st) = sockets st.
Proof.
  unfold onclose.
  set (st1 := set_isConnected false (console_write (LogClosed code) st)).
  destruct (updateConnectionStatus_rest false st1) as (Hd & Hw & Hs).
  destruct (scheduleReconnect_rest (updateConnectionStatus false st1))
    as (-> & -> & ->).
  done.
Qed.

Lemma onerror_rest st :
  display (onerror st) = display st ∧ ws (onerror st) = ws st
  ∧ sockets (onerror st) = sockets st.
Proof.
  unfold onerror.
  set (st1 := set_isConnected false (console_write ErrorSocket st)).
  apply (updateConnectionStatus_rest false st1).
Qed.

Section WithHost.

Variable getWorldPosition :
  THREE.Group → THREE.Group → THREE.Mesh → THREE.Vector3.
Variable JSON_parse : string → option Parsed.

Abbreviation onmessage := (Channel.onmessage getWorldPosition JSON_parse).
Abbreviation deliver := (Channel.deliver getWorldPosition JSON_parse).
Abbreviation run := (Channel.run getWorldPosition JSON_parse).

(** X8. A frame that parses becomes [lastData] ([null] and the other
    falsy values as themselves). A frame that is [null] is logged as an
    error, because reading its [error] field raises, and touches nothing
    else. An object is dispatched only if it has no error text and no
    acknowledgment mark: an error frame is logged as a warning and an
    acknowledgment is dropped silently, the error taking precedence when
    a frame has both, and neither touches the scene, [currentState] or
    the panels. An error field holding the empty string does not make an
    error frame. A dispatched snapshot becomes [currentState] and goes to
    [updateThreeScene]; when that raises, the handler logs an error and
    the panel writers are not reached, and when it returns they are. No
    frame changes the connection variables, the sockets or the timers. *)
Theorem onmessage_classifies (event_data : string) (parsed : Parsed) (st : State) :
  JSON_parse event_data = Some parsed →
  lastData (onmessage event_data st) = truthy parsed
  ∧ (ws (onmessage event_data st), sockets (onmessage event_data st),
     isConnected (onmessage event_data st),
     reconnectTimer (onmessage event_data st), timers (onmessage event_data st),
     statusEl (onmessage event_data st))
    = (ws st, sockets st, isConnected st, reconnectTimer st, timers st, statusEl st)
  ∧ match parsed with
    | ParsedNull =>
        console (onmessage event_data st) = console st ++ [ErrorParse]
        ∧ (three (onmessage event_data st) = three st
 ∧ currentState (onmessage event_data st) = currentState st
 ∧ panels (onmessage event_data st) = panels st)
    | ParsedFalsy =>
        console (onmessage event_data st) = console st
        ∧ (three (onmessage event_data st) = three st
 ∧ currentState (onmessage event_data st) = None
 ∧ panels (onmessage event_data st) = panels st)
    | ParsedValue data =>
        (∀ e, error data = Some e → e ≠ "" →
           console (onmessage event_data st) = console st ++ [WarnServerError e]
           ∧ (three (onmessage event_data st) = three st
 ∧ currentState (onmessage event_data st) = currentState st
 ∧ panels (onmessage event_data st) = panels st))
        ∧ ((error data = None ∨ error data = Some "") →
           if decide (ack data = Some true)
           then console (onmessage event_data st) = console st
                ∧ (three (onmessage event_data st) = three st
 ∧ currentState (onmessage event_data st) = currentState st
 ∧ panels (onmessage event_data st) = panels st)
           else
             let o := Scene.updateThreeScene getWorldPosition (Some data)
                        (three st) in
             currentState (onmessage event_data st) = Some data
             ∧ three (onmessage event_data st) = Scene.after o
             ∧ if Scene.threw o
               then console (onmessage event_data st) = console st ++ [ErrorParse]
                    ∧ panels (onmessage event_data st) = panels st
               else console (onmessage event_data st) = console st
                    ∧ panels (onmessage event_data st) = panels st ++ [data])
    end.
Proof.
  intros Hparse.
  split; [|split].
  - unfold Channel.onmessage. rewrite Hparse.
    destruct parsed as [| |data]; cbn [truthy mbind option_bind truthy_string].
    + reflexivity.
    + rewrite decide_False by discriminate. reflexivity.
    + destruct (truthy_string (error data)); [reflexivity|].
      case_decide; [reflexivity|].
      unfold Channel.onDataReceived. cbv zeta.
      destruct (Scene.threw _); reflexivity.
  - destruct (onmessage_frame getWorldPosition JSON_parse event_data st)
      as (-> & -> & -> & -> & -> & ->).
    reflexivity.
  - unfold Channel.onmessage. rewrite Hparse.
    destruct parsed as [| |data]; cbn [truthy mbind option_bind truthy_string].
    + done.
    + rewrite decide_False by discriminate. done.
    + split.
      * intros e He Hne. rewrite He. cbn [truthy_string].
        rewrite decide_False by exact Hne. done.
      * intros Hnone.
        assert (truthy_string (error data) = None) as ->.
        { destruct Hnone as [->| ->]; reflexivity. }
        case_decide; [done|].
        unfold Channel.onDataReceived. cbv zeta.
        cbn [three set_currentState].
        destruct (Scene.threw _); done.
Qed.

(** X9. Only message events change what the page shows of the data:
    connecting, opening, closing, failing and reconnecting leave the
    scene, [currentState], the panels and [lastData] exactly as they
    were. *)
Theorem only_messages_change_display (ev : Event) (st st' : State) :
  deliver ev st = Some st' →
  (∀ k event_data, ev ≠ SocketMessage k event_data) →
  display st' = display st.
Proof.
  intros Hdel Hev.
  destruct ev as [throws|k|k event_data|k code|k|t throws];
    cbn [Channel.deliver] in Hdel.
  - injection Hdel as <-. apply connectWebSocket_display.
  - destruct (sockets st !! k) as [[u []]|]; try discriminate.
    injection Hdel as <-.
    destruct (onopen_rest (set_readyState k OPEN st)) as (-> & _). reflexivity.
  - exfalso. by apply (Hev k event_data).
  - destruct (sockets st !! k); [|discriminate]. injection Hdel as <-.
    destruct (onclose_rest code (set_readyState k CLOSED st)) as (-> & _).
    reflexivity.
  - destruct (sockets st !! k); [|discriminate]. injection Hdel as <-.
    apply onerror_rest.
  - case_decide; [|discriminate]. injection Hdel as <-.
    unfold reconnectCallback. rewrite connectWebSocket_display. reflexivity.
Qed.

(** *** Which socket [ws] names *)

Lemma connectWebSocket_newest throws st :
  wsIsNewest st → wsIsNewest (connectWebSocket throws st).
Proof.
  unfold wsIsNewest, connectWebSocket. intros Hws. case_decide; [exact Hws|].
  destruct throws.
  - match goal with |- context [scheduleReconnect ?s] =>
      destruct (scheduleReconnect_rest s) as (_ & -> & ->) end.
    exact Hws.
  - cbn. rewrite length_app. cbn. by rewrite Nat.add_1_r.
Qed.

Lemma set_readyState_length k r st :
  length (sockets (set_readyState k r st)) = length (sockets st).
Proof. unfold set_readyState. cbn. apply length_alter. Qed.

Lemma deliver_newest ev st st' :
  wsIsNewest st → deliver ev st = Some st' → wsIsNewest st'.
Proof.
  unfold wsIsNewest. intros Hws.
  destruct ev as [throws|k|k event_data|k code|k|t throws];
    cbn [Channel.deliver].
  - intros [= <-]. by apply connectWebSocket_newest.
  - destruct (sockets st !! k) as [[u []]|]; try discriminate. intros [= <-].
    destruct (onopen_rest (set_readyState k OPEN st)) as (_ & -> & ->).
    rewrite set_readyState_length. exact Hws.
  - destruct (sockets st !! k); [|discriminate]. intros [= <-].
    destruct (onmessage_frame getWorldPosition JSON_parse event_data st)
      as (-> & -> & _).
    exact Hws.
  - destruct (sockets st !! k); [|discriminate]. intros [= <-].
    destruct (onclose_rest code (set_readyState k CLOSED st)) as (_ & -> & ->).
    rewrite set_readyState_length. exact Hws.
  - destruct (sockets st !! k); [|discriminate]. intros [= <-].
    destruct (onerror_rest st) as (_ & -> & ->). exact Hws.
  - case_decide; [|discriminate]. intros [= <-].
    unfold reconnectCallback. by apply connectWebSocket_newest.
Qed.

Lemma run_newest evs : ∀ st st',
  wsIsNewest st → run evs st = Some st' → wsIsNewest st'.
Proof.
  induction evs as [|ev evs IH]; intros st st' Hws; cbn [Channel.run].
  - intros [= <-]. exact Hws.
  - destruct (deliver ev st) as [st1|] eqn:E; [|discriminate]. cbn.
    apply IH. eapply deliver_newest; eassumption.
Qed.

(** X10. In every state that the page reaches, [ws] names the socket
    that was constructed last (and is null only while none was): a
    socket that [connectWebSocket] has replaced is never named again,
    although its handlers stay installed. *)
Theorem ws_is_the_newest_socket
    (scene0 : Scene.State) (el : option StatusElement) (protocol host : string)
    (evs : list Event) (st : State) :
  run evs (initial scene0 el protocol host) = Some st →
  (ws st = None ↔ sockets st = [])
  ∧ (∀ k, ws st = Some k → is_Some (sockets st !! k) ∧ S k = length (sockets st)).
Proof.
  intros Hrun.
  assert (Hws : wsIsNewest st).
  { eapply run_newest; [|exact Hrun]. reflexivity. }
  unfold wsIsNewest in Hws. rewrite Hws.
  destruct (sockets st) as [|sock rest] eqn:Hs; cbn [length].
  - split; [done|]. intros k Hk. discriminate.
  - split; [split; discriminate|]. intros k [= <-].
    split; [|reflexivity]. apply lookup_lt_is_Some. cbn. lia.
Qed.

(** *** The reconnect loop *)

(** X11. When the reconnect timeout fires and the current socket is not
    open, the attempt is made: either a new socket is constructed and
    [ws] names it, connecting, with no timeout pending, or the
    constructor raises and exactly one new timeout is pending. The loop
    never stops by itself. When the current socket is open, the firing
    only clears [reconnectTimer]. *)
Theorem reconnect_timer_fires (t : positive) (throws : bool) (st : State) :
  timerTracked st →
  t ∈ (timers st).*1 →
  ∃ st',
    deliver (TimerFired t throws) st = Some st'
    ∧ if decide (ws_readyState st = Some OPEN)
      then timers st' = [] ∧ reconnectTimer st' = None
           ∧ sockets st' = sockets st ∧ ws st' = ws st
      else if throws
      then timers st' = [(nextTimerId st, RECONNECT_INTERVAL)]
           ∧ reconnectTimer st' = Some (nextTimerId st)
           ∧ sockets st' = sockets st ∧ ws st' = ws st
      else timers st' = [] ∧ reconnectTimer st' = None
           ∧ sockets st' = sockets st ++ [mkSocket (wsUrl st) CONNECTING]
           ∧ ws st' = Some (length (sockets st))
           ∧ ws_readyState st' = Some CONNECTING.
Proof.
  intros Ht Hin. eexists. cbn [Channel.deliver].
  rewrite decide_True by exact Hin. split; [reflexivity|].
  assert (Hexp : timers (expire t st) = []).
  { unfold timerTracked in Ht. unfold expire. cbn. rewrite Ht in Hin |- *.
    destruct (reconnectTimer st) as [t'|]; cbn in Hin |- *; [|reflexivity].
    apply list_elem_of_singleton in Hin. subst t'.
    rewrite decide_False by (intros H; by apply H). reflexivity. }
  assert (Hrest : nextTimerId (expire t st) = nextTimerId st
                  ∧ sockets (expire t st) = sockets st
                  ∧ ws (expire t st) = ws st
                  ∧ wsUrl (expire t st) = wsUrl st
                  ∧ ws_readyState (expire t st) = ws_readyState st) by done.
  destruct Hrest as (Hn & Hs & Hw & Hu & Hr).
  generalize dependent (expire t st). intros s0 Hexp Hn Hs Hw Hu Hr.
  unfold reconnectCallback, connectWebSocket.
  change (ws_readyState (console_write LogReconnecting (set_reconnectTimer None s0)))
    with (ws_readyState s0).
  rewrite Hr.
  destruct (decide (ws_readyState st = Some OPEN)) as [Hopen|Hclosed].
  - cbn. rewrite Hexp, Hs, Hw. done.
  - destruct throws.
    + unfold scheduleReconnect, setTimeout. cbn. rewrite Hexp, Hn, Hs, Hw. done.
    + cbn.
      change (wsUrl (console_write _ (console_write _ (set_reconnectTimer None s0))))
        with (wsUrl s0).
      rewrite Hexp, Hs, Hu. repeat split.
      rewrite lookup_app_r by lia. by rewrite Nat.sub_diag.
Qed.

(** *** The status element *)

Lemma updateConnectionStatus_shown el0 connected st :
  statusShown el0 st →
  statusShown el0 (set_isConnected connected
                     (updateConnectionStatus connected st)).
Proof.
  unfold statusShown, updateConnectionStatus.
  destruct (statusEl st) as [el|] eqn:E; cbn.
  - intros [Hne _]. destruct connected; cbn; rewrite ?E; cbn.
    + split; [exact Hne|reflexivity].
    + split; [exact Hne|by left].
  - rewrite E. done.
Qed.

Lemma statusShown_ext el0 s1 s2 :
  statusEl s2 = statusEl s1 → isConnected s2 = isConnected s1 →
  statusShown el0 s1 → statusShown el0 s2.
Proof. unfold statusShown. intros -> ->. done. Qed.

Lemma scheduleReconnect_status st :
  statusEl (scheduleReconnect st) = statusEl st
  ∧ isConnected (scheduleReconnect st) = isConnected st.
Proof. unfold scheduleReconnect. destruct (reconnectTimer st); done. Qed.

Lemma connectWebSocket_status throws st :
  statusEl (connectWebSocket throws st) = statusEl st
  ∧ isConnected (connectWebSocket throws st) = isConnected st.
Proof.
  unfold connectWebSocket. case_decide; [done|]. destruct throws; [|done].
  match goal with |- context [scheduleReconnect ?s] =>
    destruct (scheduleReconnect_status s) as (-> & ->) end.
  done.
Qed.

Lemma deliver_shown el0 ev st st' :
  statusShown el0 st → deliver ev st = Some st' → statusShown el0 st'.
Proof.
  intros Hsh.
  destruct ev as [throws|k|k event_data|k code|k|t throws];
    cbn [Channel.deliver].
  - intros [= <-]. destruct (connectWebSocket_status throws st) as [Hs Hc].
    exact (statusShown_ext el0 st _ Hs Hc Hsh).
  - destruct (sockets st !! k) as [[u []]|]; try discriminate. intros [= <-].
    pose proof (updateConnectionStatus_shown el0 true st Hsh) as H1.
    unfold onopen.
    set (st1 := updateConnectionStatus true
                  (set_isConnected true
                     (console_write LogConnected (set_readyState k OPEN st)))).
    assert (H2 : statusShown el0 st1).
    { unfold st1, statusShown, updateConnectionStatus in *. cbn in *.
      destruct (statusEl st); cbn in *; exact H1. }
    destruct (reconnectTimer st1); [|exact H2]. exact H2.
  - destruct (sockets st !! k); [|discriminate]. intros [= <-].
    destruct (onmessage_frame getWorldPosition JSON_parse event_data st)
      as (_ & _ & Hc & _ & _ & Hs).
    exact (statusShown_ext el0 st _ Hs Hc Hsh).
  - destruct (sockets st !! k); [|discriminate]. intros [= <-].
    pose proof (updateConnectionStatus_shown el0 false st Hsh) as H1.
    unfold onclose.
    match goal with |- statusShown _ (scheduleReconnect ?s) =>
      destruct (scheduleReconnect_status s) as [Hs Hc];
      apply (statusShown_ext el0 s _ Hs Hc) end.
    unfold statusShown, updateConnectionStatus in *. cbn in *.
    destruct (statusEl st); cbn in *; exact H1.
  - destruct (sockets st !! k); [|discriminate]. intros [= <-].
    pose proof (updateConnectionStatus_shown el0 false st Hsh) as H1.
    unfold onerror.
    unfold statusShown, updateConnectionStatus in *. cbn in *.
    destruct (statusEl st); cbn in *; exact H1.
  - case_decide; [|discriminate]. intros [= <-].
    unfold reconnectCallback.
    match goal with |- statusShown _ (connectWebSocket _ ?s) =>
      destruct (connectWebSocket_status throws s) as [Hs Hc];
      apply (statusShown_ext el0 s _ Hs Hc) end.
    exact Hsh.
Qed.

(** X12. In every state that the page reaches, the status element is
    there exactly if the page was loaded with one (the code never makes
    or drops it), and it agrees with [isConnected]: while [isConnected]
    is true it shows "connected", and while it is false it shows
    "disconnected" or, before the first socket event, what the page was
    loaded with. *)
Theorem status_element_follows_isConnected
    (scene0 : Scene.State) (el : option StatusElement) (protocol host : string)
    (evs : list Event) (st : State) :
  run evs (initial scene0 el protocol host) = Some st →
  (statusEl st = None ↔ el = None)
  ∧ (isConnected st = true →
     ∀ shown, statusEl st = Some shown → shown = shownConnected)
  ∧ (isConnected st = false →
     ∀ shown, statusEl st = Some shown →
       shown = shownDisconnected ∨ el = Some shown).
Proof.
  intros Hrun.
  assert (Hsh : statusShown el st).
  { revert Hrun.
    assert (H0 : statusShown el (initial scene0 el protocol host)).
    { unfold statusShown. cbn. destruct el; [|reflexivity].
      split; [discriminate|by right]. }
    revert H0. generalize (initial scene0 el protocol host).
    induction evs as [|ev evs IH]; intros s Hs; cbn [Channel.run].
    - intros [= <-]. exact Hs.
    - destruct (deliver ev s) as [s1|] eqn:E; [|discriminate]. cbn.
      apply IH. eapply deliver_shown; eassumption. }
  unfold statusShown in Hsh.
  destruct (statusEl st) as [shown|].
  - destruct Hsh as [Hne Hsh]. split; [split; [discriminate|done]|].
    split; intros Hc shown' [= <-]; rewrite Hc in Hsh; exact Hsh.
  - split; [done|]. split; intros _ shown [=].
Qed.

End WithHost.

(** *** The code on a sample page *)

Import Samples MoreSamples.

(** Witness for X8: an error frame on a page that shows a snapshot. *)
Lemma X8_witness :
  lastData (Channel.onmessage sumOfPositions parseByName "error" showing)
    = Some (mkData (Some "overloaded") None None None None)
  ∧ three (Channel.onmessage sumOfPositions parseByName "error" showing)
    = three showing
  ∧ console (Channel.onmessage sumOfPositions parseByName "error" showing)
    = console showing ++ [WarnServerError "overloaded"].
Proof.
  destruct (onmessage_classifies sumOfPositions parseByName "error"
              (ParsedValue (mkData (Some "overloaded") None None None None))
              showing eq_refl)
    as (Hlast & _ & Herr & _).
  split; [exact Hlast|].
  destruct (Herr "overloaded" eq_refl) as (Hconsole & Hthree & _);
    [discriminate|].
  split; [exact Hthree|exact Hconsole].
Defined.

(** Witness for X9: the socket of a page that shows a snapshot is
    closed. *)
Lemma X9_witness :
  ∃ st',
    Channel.deliver sumOfPositions parseByName (SocketClose 0 1006) showing
      = Some st'
    ∧ display st' = display showing.
Proof.
  assert (∃ st', Channel.deliver sumOfPositions parseByName
                   (SocketClose 0 1006) showing = Some st')
    as [st' H] by (eexists; vm_compute; reflexivity).
  exists st'. split; [exact H|].
  apply (only_messages_change_display sumOfPositions parseByName
           (SocketClose 0 1006) showing st' H).
  intros k event_data. discriminate.
Defined.

(** Witness for X10: [connectWebSocket] is called twice in a row. *)
Lemma X10_witness :
  ∃ st,
    deliverAll [Connect false; Connect false] page = Some st
    ∧ ws st = Some 1
    ∧ length (sockets st) = 2.
Proof.
  assert (∃ st, deliverAll [Connect false; Connect false] page = Some st
                ∧ ws st = Some 1)
    as (st & H & Hws) by (eexists; split; vm_compute; reflexivity).
  exists st. split; [exact H|]. split; [exact Hws|].
  destruct (ws_is_the_newest_socket sumOfPositions parseByName emptyScene
              (Some (mkStatusElement "" "")) "http:" "localhost:8000"
              [Connect false; Connect false] st H) as [_ Hnewest].
  destruct (Hnewest 1 Hws) as [_ Hlen]. symmetry. exact Hlen.
Defined.

(** The page once its socket has opened and closed: one timeout is
    pending and [ws] names the closed socket. *)
Lemma page_closed_again :
  ∃ st, deliverAll [Connect false; SocketOpen 0; SocketClose 0 1006] page
          = Some st
        ∧ (timers st).*1 = [1%positive]
        ∧ ws_readyState st = Some CLOSED
        ∧ length (sockets st) = 1.
Proof. eexists. split; [|split; [|split]]; vm_compute; reflexivity. Qed.

(** Witness for X11: the socket of the page has opened and closed, and
    the timeout fires. *)
Lemma X11_witness :
  ∃ st st',
    deliverAll [Connect false; SocketOpen 0; SocketClose 0 1006] page = Some st
    ∧ Channel.deliver sumOfPositions parseByName (TimerFired 1 false) st = Some st'
    ∧ ws st' = Some 1
    ∧ timers st' = [].
Proof.
  destruct page_closed_again as (st & H & Htimers & Hready & Hlen).
  assert (Htracked : timerTracked st).
  { apply (run_tracked sumOfPositions parseByName _ _ st (eq_refl : timerTracked page) H). }
  destruct (reconnect_timer_fires sumOfPositions parseByName 1 false st Htracked)
    as (st' & Hdel & Hcases).
  { rewrite Htimers. apply elem_of_cons. by left. }
  exists st, st'. split; [exact H|]. split; [exact Hdel|].
  destruct (decide (ws_readyState st = Some OPEN)) as [Hopen|_];
    [rewrite Hready in Hopen; discriminate|].
  destruct Hcases as (Ht & _ & _ & Hws & _).
  split; [|exact Ht]. rewrite Hws, Hlen. reflexivity.
Defined.

(** Witness for X12: the page connects and its socket opens. *)
Lemma X12_witness :
  ∃ st,
    deliverAll [Connect false; SocketOpen 0] page = Some st
    ∧ isConnected st = true
    ∧ statusEl st = Some shownConnected.
Proof.
  assert (∃ st, deliverAll [Connect false; SocketOpen 0] page = Some st
                ∧ isConnected st = true)
    as (st & H & Hconn) by (eexists; split; vm_compute; reflexivity).
  exists st. split; [exact H|]. split; [exact Hconn|].
  destruct (status_element_follows_isConnected sumOfPositions parseByName
              emptyScene (Some (mkStatusElement "" "")) "http:" "localhost:8000"
              [Connect false; SocketOpen 0] st H) as (Hthere & Hshown & _).
  destruct (statusEl st) as [shown|] eqn:Hel.
  - f_equal. apply (Hshown Hconn shown eq_refl).
  - destruct Hthere as [Hnone _]. discriminate (Hnone eq_refl).
Defined.

End ChannelMore.

(* ===================================================================== *)
(** ** Facts about the commands, the scenario reset and the summary *)
(* ===================================================================== *)

Module PageFacts.
Import Wire Page MoreNotions.

(** *** Objects and the spread *)

Lemma getProperty_setProperty k k' v o :
  getProperty k' (setProperty k v o) =
    if decide (k = k') then Some v else getProperty k' o.
Proof.
  induction o as [|[k0 v0] o IH]; cbn [setProperty getProperty].
  - destruct (decide (k = k')); reflexivity.
  - destruct (decide (k0 = k)) as [->|Hne]; cbn [getProperty].
    + destruct (decide (k = k')); reflexivity.
    + rewrite IH. destruct (decide (k0 = k')) as [->|]; [|reflexivity].
      by rewrite decide_False.
Qed.

Lemma setProperty_fresh k v o :
  k ∉ o.*1 → setProperty k v o = o ++ [(k, v)].
Proof.
  induction o as [|[k0 v0] o IH]; intros Hk; cbn [setProperty]; [reflexivity|].
  rewrite fmap_cons in Hk. apply not_elem_of_cons in Hk as [Hne Hk].
  cbn in Hne. rewrite decide_False by congruence.
  rewrite IH by exact Hk. reflexivity.
Qed.

Lemma spread_fresh source : ∀ target,
  NoDup source.*1 → (∀ k, k ∈ source.*1 → k ∉ target.*1) →
  spread target source = target ++ source.
Proof.
  induction source as [|[k v] source IH]; intros target Hnd Hdisj;
    unfold spread in *; cbn [foldl fst snd].
  - by rewrite app_nil_r.
  - rewrite fmap_cons in Hnd. apply NoDup_cons in Hnd as [Hk Hnd].
    rewrite setProperty_fresh by (apply Hdisj, elem_of_cons; by left).
    rewrite IH.
    + by rewrite <- app_assoc.
    + exact Hnd.
    + intros k' Hk'. rewrite fmap_app. intros Hin.
      apply elem_of_app in Hin as [Hin|Hin].
      * apply (Hdisj k'); [apply elem_of_cons; by right|exact Hin].
      * cbn in Hin, Hk. apply list_elem_of_singleton in Hin. subst k'.
        contradiction.
Qed.

Lemma getProperty_spread_notin k source : ∀ target,
  k ∉ source.*1 → getProperty k (spread target source) = getProperty k target.
Proof.
  induction source as [|[k0 v0] source IH]; intros target Hk;
    unfold spread in *; cbn [foldl fst snd]; [reflexivity|].
  rewrite fmap_cons in Hk. apply not_elem_of_cons in Hk as [Hne Hk].
  rewrite IH by exact Hk. rewrite getProperty_setProperty.
  apply decide_False. cbn in Hne. congruence.
Qed.

Lemma getProperty_spread_in k v source : ∀ target,
  NoDup source.*1 → (k, v) ∈ source →
  getProperty k (spread target source) = Some v.
Proof.
  induction source as [|[k0 v0] source IH]; intros target Hnd Hin.
  - by apply elem_of_nil in Hin.
  - rewrite fmap_cons in Hnd. apply NoDup_cons in Hnd as [Hk0 Hnd].
    apply elem_of_cons in Hin as [[= -> ->]|Hin].
    + unfold spread. cbn [foldl fst snd]. fold (spread (setProperty k0 v0 target) source).
      rewrite getProperty_spread_notin by exact Hk0.
      rewrite getProperty_setProperty. by rewrite decide_True.
    + unfold spread. cbn [foldl fst snd]. fold (spread (setProperty k0 v0 target) source).
      by apply IH.
Qed.

Section WithStringify.

Variable JSON_stringify : list (string * Value) → string.

Abbreviation sendMessage := (Page.sendMessage JSON_stringify).
Abbreviation sendCraneControl := (Page.sendCraneControl JSON_stringify).
Abbreviation applyScenario := (Page.applyScenario JSON_stringify).

(** What [sendMessage] does, case by case. *)
Lemma sendMessage_cases throws m st :
  match Channel.ws_readyState (client st) with
  | Some Channel.OPEN =>
      ∃ k, Channel.ws (client st) = Some k
        ∧ sendMessage throws m st =
            if throws then (false, sendConsole_write ErrorSendFailed st)
            else (true, set_sent (λ fs, fs ++ [(k, JSON_stringify m)]) st)
  | _ => sendMessage throws m st = (false, sendConsole_write WarnNotConnected st)
  end.
Proof.
  unfold Page.sendMessage, Channel.ws_readyState.
  destruct (Channel.ws (client st)) as [k|]; cbn; [|reflexivity].
  destruct (Channel.sockets (client st) !! k) as [[u r]|]; cbn; [|reflexivity].
  destruct r; try reflexivity. exists k. split; reflexivity.
Qed.

(** X13. [sendMessage] succeeds exactly when the socket that [ws] names
    is open and the send does not raise; it then hands one frame, the
    serialised message, to that socket. In every other case (no socket
    yet, or one that is connecting, closing or closed, or a send that
    raises) it returns false, hands over nothing and writes one line to
    the console. It never changes the channel's own state. *)
Theorem sendMessage_succeeds_iff_open
    (throws : bool) (m : list (string * Value)) (st : State) :
  ((sendMessage throws m st).1 = true
   ↔ Channel.ws_readyState (client st) = Some Channel.OPEN ∧ throws = false)
  ∧ client (sendMessage throws m st).2 = client st
  ∧ ((sendMessage throws m st).1 = true →
     ∃ k, Channel.ws (client st) = Some k
       ∧ sent (sendMessage throws m st).2 = sent st ++ [(k, JSON_stringify m)]
       ∧ sendConsole (sendMessage throws m st).2 = sendConsole st)
  ∧ ((sendMessage throws m st).1 = false →
     sent (sendMessage throws m st).2 = sent st
     ∧ length (sendConsole (sendMessage throws m st).2)
       = S (length (sendConsole st))).
Proof.
  pose proof (sendMessage_cases throws m st) as Hc.
  destruct (Channel.ws_readyState (client st)) as [[]|];
    [|destruct Hc as (k & Hk & Hc)| | |];
    rewrite Hc; [|destruct throws| | |];
    cbn; rewrite ?length_app; cbn;
    repeat split; try done; try lia; try (by intros [? ?]).
  intros _. exists k. done.
Qed.

(** X14. A command follows the state of the socket that [ws] names:
    once that socket has had its close event, every send fails and hands
    over nothing; once it has had its open event, a send that does not
    raise succeeds. *)
Theorem send_follows_socket_events
    (getWorldPosition : THREE.Group → THREE.Group → THREE.Mesh → THREE.Vector3)
    (JSON_parse : string → option Parsed)
    (throws : bool) (m : list (string * Value)) (st : State)
    (k : nat) (c' : Channel.State) :
  Channel.ws (client st) = Some k →
  (∀ code,
     Channel.deliver getWorldPosition JSON_parse (Channel.SocketClose k code)
       (client st) = Some c' →
     (sendMessage throws m (set_client (λ _, c') st)).1 = false
     ∧ sent (sendMessage throws m (set_client (λ _, c') st)).2 = sent st)
  ∧ (Channel.deliver getWorldPosition JSON_parse (Channel.SocketOpen k)
       (client st) = Some c' →
     (sendMessage false m (set_client (λ _, c') st)).1 = true
     ∧ sent (sendMessage false m (set_client (λ _, c') st)).2
       = sent st ++ [(k, JSON_stringify m)]).
Proof.
  intros Hws. split.
  - intros code Hdel. cbn [Channel.deliver] in Hdel.
    destruct (Channel.sockets (client st) !! k) as [sock|] eqn:Hsock;
      [|discriminate].
    injection Hdel as <-.
    match goal with |- context [set_client (λ _, ?c) st] => set (c1 := c) end.
    assert (Hr : Channel.ws_readyState c1 = Some Channel.CLOSED).
    { unfold Channel.ws_readyState, c1.
      destruct (ChannelMore.onclose_rest code
                  (Channel.set_readyState k Channel.CLOSED (client st)))
        as (_ & -> & ->).
      cbn. rewrite Hws. cbn. rewrite list_lookup_alter, decide_True by reflexivity.
      rewrite Hsock. reflexivity. }
    pose proof (sendMessage_cases throws m (set_client (λ _, c1) st)) as Hc.
    cbn [client set_client] in Hc. rewrite Hr in Hc. rewrite Hc. done.
  - intros Hdel. cbn [Channel.deliver] in Hdel.
    destruct (Channel.sockets (client st) !! k) as [[u []]|] eqn:Hsock;
      try discriminate.
    injection Hdel as <-.
    match goal with |- context [set_client (λ _, ?c) st] => set (c1 := c) end.
    assert (Hr : Channel.ws_readyState c1 = Some Channel.OPEN
                 ∧ Channel.ws c1 = Some k).
    { unfold Channel.ws_readyState, c1.
      destruct (ChannelMore.onopen_rest
                  (Channel.set_readyState k Channel.OPEN (client st)))
        as (_ & -> & ->).
      cbn. rewrite Hws. cbn. rewrite list_lookup_alter, decide_True by reflexivity.
      rewrite Hsock. done. }
    destruct Hr as [Hr Hk].
    pose proof (sendMessage_cases false m (set_client (λ _, c1) st)) as Hc.
    cbn [client set_client] in Hc. rewrite Hr in Hc.
    destruct Hc as (k' & Hk' & ->). cbn [client set_client] in Hk'.
    assert (k' = k) as -> by congruence. split; reflexivity.
Qed.

(** X15. On an open channel [sendCraneControl] hands over one frame, the
    serialisation of the command object. For controls none of which is
    named by digits alone: when the controls name neither [type] nor
    [crane_id], the object is [type: "control"], the crane id and then
    the controls in their order. A control named [type] or [crane_id]
    takes the place of the command's own field. *)
Theorem sendCraneControl_frame
    (craneId : string) (controls : list (string * Value)) (st : State) (k : nat) :
  Channel.ws (client st) = Some k →
  Channel.ws_readyState (client st) = Some Channel.OPEN →
  NoDup controls.*1 →
  Forall (λ key, digitsOnly key = false) controls.*1 →
  let command :=
    spread [("type", VString "control"); ("crane_id", VString craneId)] controls in
  sendCraneControl false craneId controls st
    = (true, set_sent (λ fs, fs ++ [(k, JSON_stringify command)]) st)
  ∧ ("type" ∉ controls.*1 → "crane_id" ∉ controls.*1 →
     command = [("type", VString "control"); ("crane_id", VString craneId)]
               ++ controls)
  ∧ (∀ key v, (key, v) ∈ controls → getProperty key command = Some v)
  ∧ ("type" ∉ controls.*1 → getProperty "type" command = Some (VString "control"))
  ∧ ("crane_id" ∉ controls.*1 →
     getProperty "crane_id" command = Some (VString craneId)).
Proof.
  intros Hws Hopen Hnd _ command.
  split; [|split; [|split; [|split]]].
  - unfold Page.sendCraneControl. fold command.
    pose proof (sendMessage_cases false command st) as Hc.
    rewrite Hopen in Hc. destruct Hc as (k' & Hk' & ->).
    assert (k' = k) as -> by congruence. reflexivity.
  - intros Ht Hc. apply spread_fresh; [exact Hnd|].
    intros key Hkey Hin. cbn in Hin.
    repeat (apply elem_of_cons in Hin as [->|Hin]; [contradiction|]).
    by apply elem_of_nil in Hin.
  - intros key v Hin. by apply getProperty_spread_in.
  - intros Ht. unfold command. rewrite getProperty_spread_notin by exact Ht.
    reflexivity.
  - intros Hc. unfold command. rewrite getProperty_spread_notin by exact Hc.
    reflexivity.
Qed.

(** X6. [applyScenario] resets the scene whether or not its command is
    sent: [craneObjects] is emptied and exactly the objects' root groups
    leave the scene, with the channel closed as with it open. It does
    not touch the overlay, whose lines stay in the scene until the next
    tick. The command goes out only on an open channel. Afterwards the
    active scenario buttons are exactly those of the chosen scenario. *)
Theorem applyScenario_resets_scene
    (throws : bool) (scenarioId : string) (st : State) :
  accounted (Channel.three (client st)) →
  let st' := applyScenario throws scenarioId st in
  Scene.craneObjects (Channel.three (client st')) = ∅
  ∧ Scene.warningLines (Channel.three (client st'))
    = Scene.warningLines (Channel.three (client st))
  ∧ (∀ n, n ∈ Scene.scene (Channel.three (client st'))
          ↔ isLineId (Channel.three (client st)) n)
  ∧ accounted (Channel.three (client st'))
  ∧ (Channel.ws_readyState (client st) ≠ Some Channel.OPEN → sent st' = sent st)
  ∧ (∀ btn, btn ∈ scenarioButtons st' →
       (active btn = true ↔ data_id btn = scenarioId))
  ∧ data_id <$> scenarioButtons st' = data_id <$> scenarioButtons st.
Proof.
  intros Hacc st'.
  destruct (SceneMore.clearCraneObjects_keeps_overlay _ Hacc)
    as (Hempty & Hlines & Hscene & Hacc').
  set (st1 := set_client (Channel.set_three clearCraneObjects) st).
  pose proof (sendMessage_cases throws
                [("type", VString "scenario"); ("scenario_id", VString scenarioId)]
                st1) as Hc.
  assert (Hclient : client st' = client st1).
  { unfold st', Page.applyScenario, Page.sendScenarioApply. fold st1.
    destruct (Channel.ws_readyState (client st1)) as [[]|];
      try (rewrite Hc; reflexivity).
    destruct Hc as (k & _ & ->). destruct throws; reflexivity. }
  rewrite Hclient.
  split; [exact Hempty|]. split; [exact Hlines|]. split; [exact Hscene|].
  split; [exact Hacc'|]. split; [|split].
  - intros Hclosed. unfold st', Page.applyScenario, Page.sendScenarioApply.
    fold st1.
    change (Channel.ws_readyState (client st1))
      with (Channel.ws_readyState (client st)) in Hc.
    destruct (Channel.ws_readyState (client st)) as [[]|];
      try (rewrite Hc; reflexivity).
    contradiction.
  - intros btn Hbtn. unfold st', Page.applyScenario in Hbtn.
    cbn [scenarioButtons set_scenarioButtons] in Hbtn.
    apply list_elem_of_fmap in Hbtn as (b0 & -> & _). cbn.
    apply bool_decide_eq_true.
  - unfold st', Page.applyScenario. cbn [scenarioButtons set_scenarioButtons].
    rewrite <- list_fmap_compose.
    assert (Hb : scenarioButtons (Page.sendScenarioApply JSON_stringify throws
                                    scenarioId st1).2 = scenarioButtons st).
    { unfold Page.sendScenarioApply.
      destruct (Channel.ws_readyState (client st1)) as [[]|];
        try (rewrite Hc; reflexivity).
      destruct Hc as (k & _ & ->). destruct throws; reflexivity. }
    fold st1. rewrite Hb. reflexivity.
Qed.

End WithStringify.

(** *** The status summary *)

Lemma tally_fold levels : ∀ counts level,
  default 0 (foldl tally counts levels !! level) =
    default 0 (counts !! level) + length (filter (λ l, l = level) levels).
Proof.
  induction levels as [|x levels IH]; intros counts level; cbn [foldl].
  - rewrite filter_nil. cbn. lia.
  - rewrite IH. unfold tally. rewrite lookup_insert.
    destruct (decide (x = level)) as [->|Hne].
    + rewrite filter_cons_True by reflexivity. cbn. lia.
    + rewrite filter_cons_False by exact Hne. reflexivity.
Qed.

Lemma setTextContent_lookup i t st j :
  elements (setTextContent i t st) !! j =
    if decide (i = j) then (λ _, t) <$> elements st !! j else elements st !! j.
Proof.
  unfold setTextContent. destruct (elements st !! i) as [old|] eqn:E; cbn.
  - rewrite lookup_insert. destruct (decide (i = j)) as [->|]; [|reflexivity].
    rewrite E. reflexivity.
  - destruct (decide (i = j)) as [->|]; [|reflexivity]. rewrite E. reflexivity.
Qed.

Lemma setTextContent_rest i t st :
  client (setTextContent i t st) = client st
  ∧ sent (setTextContent i t st) = sent st
  ∧ sendConsole (setTextContent i t st) = sendConsole st
  ∧ scenarioButtons (setTextContent i t st) = scenarioButtons st.
Proof. unfold setTextContent. destruct (elements st !! i); done. Qed.

Lemma validLevels_partition (levels : list string) :
  Forall Scene.validLevel levels →
  length (filter (λ l, l = "NORMAL") levels)
  + length (filter (λ l, l = "CAUTION") levels)
  + length (filter (λ l, l = "WARNING") levels)
  + length (filter (λ l, l = "DANGER") levels) = length levels.
Proof.
  induction 1 as [|x levels Hx _ IH]; [reflexivity|].
  unfold Scene.validLevel in Hx.
  repeat (apply elem_of_cons in Hx as [->|Hx]);
    [| | | |by apply elem_of_nil in Hx];
    repeat (first [rewrite filter_cons_True by reflexivity
                  |rewrite filter_cons_False by discriminate]);
    cbn [length]; lia.
Qed.

(** X16. [updateStatusSummary] writes only into elements that exist and
    only into its five: the crane total and the four level counters. A
    counter that exists shows how many entities of the alert table are
    at its level, and the total shows the length of the crane list; when
    every level of the table is one of the four, the four counts add up
    to the size of the table, and an entity at any other level is in
    none of them. *)
Theorem updateStatusSummary_counts (state : Data) (status0 : Status) (st : State) :
  status state = Some status0 →
    let alerts := default ∅ (crane_alerts status0) in
    let st' := updateStatusSummary (Some state) st in
    dom (elements st') =@{gset string} dom (elements st)
    ∧ (∀ i, i ∉ ["total-cranes"; "count-normal"; "count-caution";
                 "count-warning"; "count-danger"] →
            elements st' !! i = elements st !! i)
    ∧ (is_Some (elements st !! "total-cranes") →
       elements st' !! "total-cranes"
       = Some (pretty (length (default [] (cranes state)))))
    ∧ (∀ i level,
         (i, level) ∈ [("count-normal", "NORMAL"); ("count-caution", "CAUTION");
                       ("count-warning", "WARNING"); ("count-danger", "DANGER")] →
         is_Some (elements st !! i) →
         elements st' !! i = Some (pretty (countLevel level alerts)))
    ∧ ((∀ k level, alerts !! k = Some level → Scene.validLevel level) →
       countLevel "NORMAL" alerts + countLevel "CAUTION" alerts
       + countLevel "WARNING" alerts + countLevel "DANGER" alerts = size alerts)
    ∧ client st' = client st ∧ sent st' = sent st.
Proof.
  intros Hstatus alerts st'.
  assert (Hlook : ∀ j, elements st' !! j =
    if decide ("count-danger" = j)
    then (λ _, pretty (countLevel "DANGER" alerts)) <$> elements st !! j
    else if decide ("count-warning" = j)
    then (λ _, pretty (countLevel "WARNING" alerts)) <$> elements st !! j
    else if decide ("count-caution" = j)
    then (λ _, pretty (countLevel "CAUTION" alerts)) <$> elements st !! j
    else if decide ("count-normal" = j)
    then (λ _, pretty (countLevel "NORMAL" alerts)) <$> elements st !! j
    else if decide ("total-cranes" = j)
    then (λ _, pretty (length (default [] (cranes state)))) <$> elements st !! j
    else elements st !! j).
  { intros j. unfold st', updateStatusSummary. rewrite Hstatus. fold alerts.
    rewrite !setTextContent_lookup.
    assert (Hcount : ∀ level, level ∈ ["NORMAL"; "CAUTION"; "WARNING"; "DANGER"] →
              default 0 (foldl tally noCounts (map_to_list alerts).*2 !! level)
              = countLevel level alerts).
    { intros level Hlevel. rewrite tally_fold. unfold countLevel.
      repeat (apply elem_of_cons in Hlevel as [->|Hlevel]);
        [| | | |by apply elem_of_nil in Hlevel];
        match goal with |- default 0 (noCounts !! ?l) + _ = _ =>
          assert (default 0 (noCounts !! l) = 0) as -> by (vm_compute; reflexivity)
        end; reflexivity. }
    rewrite !Hcount by (rewrite !elem_of_cons; auto 6).
    repeat (case_decide; [subst j; repeat (rewrite decide_False by discriminate);
                          try reflexivity|]).
    reflexivity. }
  split; [|split; [|split; [|split; [|split]]]].
  - apply set_eq. intros j. rewrite !elem_of_dom, Hlook.
    repeat case_decide; rewrite ?fmap_is_Some; reflexivity.
  - intros i Hi. rewrite Hlook.
    repeat (rewrite decide_False;
            [|intros <-; apply Hi; rewrite !elem_of_cons; auto 6]).
    reflexivity.
  - intros [old Hold]. rewrite Hlook.
    repeat (rewrite decide_False by discriminate).
    rewrite decide_True by reflexivity. rewrite Hold. reflexivity.
  - intros i level Hin [old Hold]. rewrite Hlook.
    repeat (apply elem_of_cons in Hin as [[= -> ->]|Hin]);
      [| | | |by apply elem_of_nil in Hin];
      repeat (rewrite decide_False by discriminate);
      rewrite decide_True by reflexivity; rewrite Hold; reflexivity.
  - intros Hvalid. unfold countLevel.
    rewrite validLevels_partition.
    + rewrite length_fmap. apply length_map_to_list.
    + apply Forall_forall. intros level Hlevel.
      apply list_elem_of_fmap in Hlevel as ([k l] & -> & Hkl).
      apply elem_of_map_to_list in Hkl. by apply (Hvalid k).
  - unfold st', updateStatusSummary. rewrite Hstatus.
    repeat match goal with |- context [setTextContent ?i ?t ?s] =>
      destruct (setTextContent_rest i t s) as (-> & -> & _ & _) end.
    done.
Qed.

(** *** The code on a sample page *)

Import Samples MoreSamples.

(** Witness for X14: the socket of the opened page is closed, and a
    command is sent. *)
Lemma X14_witness :
  ∃ c',
    Channel.deliver sumOfPositions parseByName (Channel.SocketClose 0 1006) opened
      = Some c'
    ∧ (sendMessage showObject false slewTo45 (pageOf c')).1 = false
    ∧ sent (sendMessage showObject false slewTo45 (pageOf c')).2 = [].
Proof.
  assert (∃ c', Channel.deliver sumOfPositions parseByName
                  (Channel.SocketClose 0 1006) opened = Some c')
    as [c' H] by (eexists; vm_compute; reflexivity).
  exists c'. split; [exact H|].
  assert (Hws : Channel.ws (client (pageOf opened)) = Some 0)
    by (vm_compute; reflexivity).
  destruct (send_follows_socket_events showObject sumOfPositions parseByName
              false slewTo45 (pageOf opened) 0 c' Hws) as [Hclosed _].
  exact (Hclosed 1006%Z H).
Defined.

(** Witness for X15: the slew slider of entity A on the opened page. *)
Lemma X15_witness :
  (sendCraneControl showObject false "A" slewTo45 (pageOf opened)).1 = true
  ∧ spread [("type", VString "control"); ("crane_id", VString "A")] slewTo45
    = [("type", VString "control"); ("crane_id", VString "A");
       ("slew_angle", VNumber 45)].
Proof.
  assert (Hws : Channel.ws (client (pageOf opened)) = Some 0)
    by (vm_compute; reflexivity).
  assert (Hopen : Channel.ws_readyState (client (pageOf opened))
                  = Some Channel.OPEN) by (vm_compute; reflexivity).
  pose proof (sendCraneControl_frame showObject "A" slewTo45 (pageOf opened) 0
                Hws Hopen) as Hframe.
  cbv zeta in Hframe.
  destruct Hframe as (Hsend & Horder & _).
  - apply NoDup_singleton.
  - repeat constructor.
  - split; [rewrite Hsend; reflexivity|].
    apply Horder; intros Hin; apply list_elem_of_singleton in Hin; discriminate.
Defined.

(** Witness for X6: the scenario "dense" is chosen on a page that shows
    entities A and B, the button of "basic" being active. *)
Lemma X6_witness :
  Scene.craneObjects
    (Channel.three (client (applyScenario showObject false "dense" (pageOf showing))))
    = ∅
  ∧ Scene.warningLines
      (Channel.three (client (applyScenario showObject false "dense" (pageOf showing))))
    = Scene.warningLines (Channel.three (client (pageOf showing)))
  ∧ Scene.warningLines (Channel.three (client (pageOf showing))) ≠ [].
Proof.
  assert (Hthree : Channel.three (client (pageOf showing))
                   = tick snapshotAB emptyScene) by (vm_compute; reflexivity).
  assert (Hacc : accounted (Channel.three (client (pageOf showing)))).
  { rewrite Hthree. exact SceneMore.sample_tick_accounted. }
  pose proof (applyScenario_resets_scene showObject false "dense" (pageOf showing)
                Hacc) as Hreset.
  cbv zeta in Hreset. destruct Hreset as (Hempty & Hlines & _).
  split; [exact Hempty|]. split; [exact Hlines|].
  intros Hnil. apply (f_equal length) in Hnil. vm_compute in Hnil. discriminate.
Defined.

(** Witness for X16: entity A at DANGER and entity B at CAUTION, on a
    page without the counter of the NORMAL level. *)
Lemma X16_witness :
  elements (updateStatusSummary (Some snapshotAB) (pageOf page)) !! "count-danger"
    = Some "1"
  ∧ elements (updateStatusSummary (Some snapshotAB) (pageOf page)) !! "total-cranes"
    = Some "2"
  ∧ elements (updateStatusSummary (Some snapshotAB) (pageOf page)) !! "count-normal"
    = None.
Proof.
  pose proof (updateStatusSummary_counts snapshotAB
                (mkStatus (Some (list_to_map [("A", "DANGER"); ("B", "CAUTION")])))
                (pageOf page) eq_refl) as Hsummary.
  cbv zeta in Hsummary.
  destruct Hsummary as (Hdom & _ & Htotal & Hcount & _).
  split; [|split].
  - etransitivity.
    + apply (Hcount "count-danger" "DANGER").
      * rewrite !elem_of_cons. auto 6.
      * eexists. vm_compute. reflexivity.
    + vm_compute. reflexivity.
  - etransitivity.
    + apply Htotal. eexists. vm_compute. reflexivity.
    + vm_compute. reflexivity.
  - apply not_elem_of_dom. rewrite Hdom. apply not_elem_of_dom.
    vm_compute. reflexivity.
Defined.

End PageFacts.
